(** * license: the cache bootstrap and the two listing commands

    A shallow embedding of package [base] of the license tool:
    [writeLicense], [Bootstrap] and [setLogLevel] (base/bootstrap.go) and
    [getLocalList], [getRemoteList], [printList], [ListLocal], [ListRemote]
    (the listing file).

    The program talks to three things outside itself, and each is modelled
    explicitly:
    - the file system, a directory tree ([node]) addressed by rooted, cleaned
      paths, with the [os]/[ioutil]/[shutil] calls the code makes;
    - the remote provider and the decoders, deterministic functions of a
      record [Env];
    - the Go scheduler: the goroutines [Bootstrap] starts are stepped one
      shared-state operation at a time in the order a schedule gives. *)

From Stdlib Require Import Ascii.
From stdpp Require Import gmap strings list fin_maps sorting.

Set Default Proof Using "Type".
#[local] Set Warnings "-register-all".
Open Scope string_scope.
Open Scope list_scope.
Open Scope stdpp_scope.

(** ** Bytes, strings and paths *)

(** Go's [[]byte]. *)
Definition bytes := list Byte.byte.

(** [[]byte(s)]: the bytes of a Go string. *)
Definition bytes_of_string (s : string) : bytes := String.list_byte_of_string s.

(** A rooted, cleaned path, as the list of its components from the root:
    [/tmp/license-1/data] is [["tmp"; "license-1"; "data"]]. *)
Definition path := list string.

(** [strings.Split(s, "/")]. *)
Fixpoint split_slash (s : string) : list string :=
  match s with
  | EmptyString => [EmptyString]
  | String a s' =>
      if Ascii.eqb a "/"%char then EmptyString :: split_slash s'
      else match split_slash s' with
           | [] => [String a EmptyString]
           | w :: ws => String a w :: ws
           end
  end.

(** One component appended to a cleaned rooted path, the way [Clean] reads
    it: empty components and [.] vanish, [..] climbs (and stays at the root). *)
Definition push_component (p : path) (c : string) : path :=
  if decide (c = "" ∨ c = ".") then p
  else if decide (c = "..") then removelast p
  else p ++ [c].

(** [path.Join(dir, elem)] / [filepath.Join(dir, elem)] for a rooted, cleaned
    [dir]: the concatenation [dir/elem], cleaned lexically. *)
Definition path_Join (dir : path) (elem : string) : path :=
  fold_left push_component (split_slash elem) dir.

(** A name without a path separator. *)
Definition plain_name (s : string) : Prop :=
  "/"%char ∉ String.list_ascii_of_string s.

#[global] Instance plain_name_dec s : Decision (plain_name s).
Proof. unfold plain_name. apply _. Defined.

(** ** The file system: a directory tree *)

Inductive node :=
| File (data : bytes)
| Dir (entries : gmap string node).

(** The whole file system is the node at the root ([None]: nothing there). *)
Definition FS := option node.

(** [os.Stat]: the node a path leads to, if every component before the last
    is a directory that holds the next one. *)
Fixpoint lookup_path (p : path) (t : FS) : FS :=
  match p with
  | [] => t
  | c :: p' =>
      match t with
      | Some (Dir m) => lookup_path p' (m !! c)
      | _ => None
      end
  end.

(** Every proper ancestor of [p] is a directory: the entry [p] itself can be
    created, replaced or removed. *)
Fixpoint reachable (p : path) (t : FS) : bool :=
  match p with
  | [] => true
  | c :: p' =>
      match t with
      | Some (Dir m) => reachable p' (m !! c)
      | _ => false
      end
  end.

(** The entry at [p] becomes [f] of what was there; nothing changes when [p]
    is not reachable. *)
Fixpoint modify (p : path) (f : FS → FS) (t : FS) : FS :=
  match p with
  | [] => f t
  | c :: p' =>
      match t with
      | Some (Dir m) => Some (Dir (partial_alter (modify p' f) c m))
      | _ => t
      end
  end.

Definition is_dir (t : FS) : bool :=
  match t with Some (Dir _) => true | _ => false end.

(** Neither path is an ancestor of (or equal to) the other. *)
Definition unrelated (p q : path) : Prop := ¬ p `prefix_of` q ∧ ¬ q `prefix_of` p.

(** ** Records and errors of package [base] *)

(** The License record. The source reads its [Key] and [Name]; [URL] is the
    handle [fetchFullInfo] follows and [Body] stands for the rest of the full
    record that the template is rendered from. *)
Record License := { Key : string; Name : string; URL : string; Body : string }.

(** The values built by the [newErr...] constructors, each with the arguments
    the source passes. *)
Inductive Error :=
| ErrParsingArguments
| ErrBadFlagSyntax (flag : string)
| ErrCannotLocateHomeDir
| ErrCreateTempDirFailed (p : path)
| ErrCreateDirFailed (p : path)
| ErrFetchFailed
| ErrDeserializeFailed (content : bytes)
| ErrWriteFileFailed (p : path)
| ErrRemovePathFailed (p : path)
| ErrCopyTreeFailed (src dst : path)
| ErrReadFailed.

(** Modelled from the spec: the cache layout [data/raw/<key>.json],
    [data/templates/<key>.tmpl], [data/index.json] fixes the four path
    constants, which are declared outside the given source. *)
Definition DataDirectory : string := "data".
Definition RawDirectory : string := "raw".
Definition TemplatesDirectory : string := "templates".
Definition IndexFile : string := "index.json".

(** ** The environment *)

(** What [flagSet.Parse] hands back. *)
Record ParseResult := { BadFlags : list string; Values : gmap string string }.

(** How a failing [ioutil.WriteFile] leaves the file: not opened at all, or
    cut after [n] bytes. *)
Inductive WriteFault := FailOpen | FailWrite (n : nat).

(** A failing [os.RemoveAll]: the kind of error, and what it leaves where the
    tree stood. *)
Record RemoveFault := { rf_permission : bool; rf_residue : FS → FS }.

(** Everything a run depends on besides the file system: the flag parser, the
    remote provider and the decoders (deterministic within and across runs),
    the process environment, and which I/O operations fail. *)
Record Env := {
  flagSet_Parse : list string → option ParseResult;
  fetchIndex : option bytes;
  readIndex : option bytes;
  fetchFullInfo : License → option bytes;
  jsonToList : bytes → option (list License);
  jsonToLicense : bytes → option License;
  textTemplateString : License → string;
  (** [homedir.Dir()] *)
  homedir_Dir : option path;
  (** the name [ioutil.TempDir] picks, [None] when it cannot pick one *)
  TempDir_name : option path;
  (** the package constant naming the cache directory under the home *)
  LicenseDirectory : string;
  mkdir_fault : path → bool;
  write_fault : path → option WriteFault;
  remove_fault : path → option RemoveFault;
  (** a failing [shutil.CopyTree] and what it leaves at the destination *)
  copy_fault : path → path → option (FS → FS);
}.

(** ** The operating-system calls *)

(** [os.Mkdir]: the parent must be a directory and the name free. *)
Definition Mkdir (E : Env) (p : path) (t : FS) : FS * bool :=
  match lookup_path p t with
  | Some _ => (t, false)
  | None =>
      if reachable p t && negb (mkdir_fault E p)
      then (modify p (λ _, Some (Dir ∅)) t, true)
      else (t, false)
  end.

(** [os.MkdirAll], by recursion on the reversed path as the library recurses
    on the parent: an existing directory is success, an existing file is an
    error, otherwise the parent is made first and then the directory. *)
Fixpoint MkdirAll_rev (E : Env) (rp : list string) (t : FS) : FS * bool :=
  match lookup_path (rev rp) t with
  | Some (Dir _) => (t, true)
  | Some (File _) => (t, false)
  | None =>
      match rp with
      | [] => (t, false)
      | _ :: rparent =>
          let '(t', ok) := MkdirAll_rev E rparent t in
          if ok then Mkdir E (rev rp) t' else (t', false)
      end
  end.

Definition MkdirAll (E : Env) (p : path) (t : FS) : FS * bool :=
  MkdirAll_rev E (rev p) t.

(** [ioutil.WriteFile]: creates or truncates the file; the parent must be a
    directory and the path must not name a directory. *)
Definition WriteFile (E : Env) (p : path) (data : bytes) (t : FS) : FS * bool :=
  if reachable p t && negb (is_dir (lookup_path p t)) then
    match write_fault E p with
    | None => (modify p (λ _, Some (File data)) t, true)
    | Some FailOpen => (t, false)
    | Some (FailWrite n) => (modify p (λ _, Some (File (take n data))) t, false)
    end
  else (t, false).

(** [os.RemoveAll]: removes the path and everything below it; a path that is
    not there is no error. The result is the error, if any, as
    [os.IsPermission] classifies it. *)
Definition RemoveAll (E : Env) (p : path) (t : FS) : FS * option bool :=
  match remove_fault E p with
  | None => (modify p (λ _, None) t, None)
  | Some flt => (modify p (rf_residue flt) t, Some (rf_permission flt))
  end.

(** [shutil.CopyTree(src, dst, nil)]: [src] must be a directory and [dst]
    must not exist; [dst] is made with [os.MkdirAll] and receives a copy of
    everything below [src]. *)
Definition CopyTree (E : Env) (src dst : path) (t : FS) : FS * bool :=
  match lookup_path src t with
  | Some (Dir m) =>
      match lookup_path dst t with
      | Some _ => (t, false)
      | None =>
          let '(t1, ok) := MkdirAll E dst t in
          if ok then
            match copy_fault E src dst with
            | None => (modify dst (λ _, Some (Dir m)) t1, true)
            | Some residue => (modify dst residue t1, false)
            end
          else (t1, false)
      end
  | _ => (t, false)
  end.

(** [ioutil.TempDir("", tempDirPrefix)]: a new directory under the name the
    environment picks; the name comes back empty on failure. *)
Definition TempDir (E : Env) (t : FS) : FS * option path :=
  match TempDir_name E with
  | None => (t, None)
  | Some p =>
      let '(t', ok) := Mkdir E p t in
      if ok then (t', Some p) else (t, None)
  end.

(** ** The state of a run *)

(** The file system, the logger's two switches, and the messages handed to
    [logger.VerbosePrintln], oldest first. *)
Record World := {
  fs : FS;
  logger_quiet : bool;
  logger_verbose : bool;
  logged : list string;
}.

Definition with_fs (t : FS) (w : World) : World :=
  {| fs := t; logger_quiet := logger_quiet w;
     logger_verbose := logger_verbose w; logged := logged w |}.

Definition SetQuiet (b : bool) (w : World) : World :=
  {| fs := fs w; logger_quiet := b;
     logger_verbose := logger_verbose w; logged := logged w |}.

Definition SetVerbose (b : bool) (w : World) : World :=
  {| fs := fs w; logger_quiet := logger_quiet w;
     logger_verbose := b; logged := logged w |}.

Definition VerbosePrintln (msg : string) (w : World) : World :=
  {| fs := fs w; logger_quiet := logger_quiet w;
     logger_verbose := logger_verbose w; logged := logged w ++ [msg] |}.

(** [setLogLevel] (bootstrap.go, lines 15-38). *)
Definition setLogLevel (E : Env) (args : list string) (w : World)
  : World * option Error :=
  match flagSet_Parse E args with
  | None => (w, Some ErrParsingArguments)
  | Some result =>
      match BadFlags result with
      | bad :: _ => (w, Some (ErrBadFlagSyntax bad))
      | [] =>
          let w1 := if Values result !! "quiet" is Some _
                    then SetQuiet true w else w in
          let w2 := if Values result !! "verbose" is Some _
                    then SetVerbose true w1 else w1 in
          (w2, None)
      end
  end.

(** ** Materializing one license *)

(** A task as the sequence of operations it performs on the world outside
    it: the network fetch and the file writes are the points where the
    scheduler may switch to another goroutine. *)
Inductive prog (R : Type) :=
| Ret (r : R)
| FetchOp (l : License) (k : option bytes → prog R)
| WriteOp (p : path) (data : bytes) (k : bool → prog R).
Arguments Ret {R} r.
Arguments FetchOp {R} l k.
Arguments WriteOp {R} p data k.

(** [writeLicense] (bootstrap.go, lines 40-68). [None] is the [nil] error. *)
Definition writeLicense (E : Env) (l : License) (rawPath templatesPath : path)
  : prog (option Error) :=
  (* fetch full license info JSON *)
  FetchOp l (λ fetched,
    match fetched with
    | None => Ret (Some ErrFetchFailed)
    | Some content =>
        (* deserialize JSON to License struct *)
        match jsonToLicense E content with
        | None => Ret (Some (ErrDeserializeFailed content))
        | Some fullLicense =>
            (* write JSON to disk *)
            let rawFilePath := path_Join rawPath (Key l +:+ ".json") in
            WriteOp rawFilePath content (λ ok,
              if negb ok then Ret (Some (ErrWriteFileFailed rawFilePath))
              else
                (* construct template and save it in the templates directory *)
                let templateData := textTemplateString E fullLicense in
                let templateFilePath :=
                  path_Join templatesPath (Key l +:+ ".tmpl") in
                WriteOp templateFilePath (bytes_of_string templateData) (λ ok',
                  if negb ok' then Ret (Some (ErrWriteFileFailed templateFilePath))
                  else Ret None))
        end
    end).

(** A task run from start to end with nothing else touching the file system. *)
Fixpoint exec {R} (E : Env) (p : prog R) (t : FS) : FS * R :=
  match p with
  | Ret r => (t, r)
  | FetchOp l k => exec E (k (fetchFullInfo E l)) t
  | WriteOp q data k =>
      let '(t', ok) := WriteFile E q data t in exec E (k ok) t'
  end.

(** The number of operations of that run. *)
Fixpoint prog_steps {R} (E : Env) (p : prog R) (t : FS) : nat :=
  match p with
  | Ret _ => 0
  | FetchOp l k => S (prog_steps E (k (fetchFullInfo E l)) t)
  | WriteOp q data k =>
      let '(t', ok) := WriteFile E q data t in S (prog_steps E (k ok) t')
  end.

(** ** The goroutines of the fan-out *)

(** One goroutine started by the loop at lines 137-144: inside
    [writeLicense] (at [Ret r] it is about to send [r] on the channel), then
    with its deferred [wg.Done()] pending, then gone. *)
Inductive goroutine :=
| GRun (p : prog (option Error))
| GDeferred
| GExited.

(** The state the goroutines share: the channel buffer (each value tagged
    with the index of its sender, which the program does not see), the
    WaitGroup counter and the file system. *)
Record pool := {
  gs : list goroutine;
  ch : list (nat * option Error);
  wg : Z;
  pfs : FS;
}.

(** Goroutine [i] performs its next operation. A send on a full buffer
    blocks: the state does not change. *)
Definition step_goroutine (E : Env) (cap : nat) (s : pool) (i : nat) : pool :=
  match gs s !! i with
  | Some (GRun (FetchOp l k)) =>
      {| gs := <[i := GRun (k (fetchFullInfo E l))]> (gs s);
         ch := ch s; wg := wg s; pfs := pfs s |}
  | Some (GRun (WriteOp q data k)) =>
      let '(t', ok) := WriteFile E q data (pfs s) in
      {| gs := <[i := GRun (k ok)]> (gs s); ch := ch s; wg := wg s; pfs := t' |}
  | Some (GRun (Ret r)) =>
      if decide (length (ch s) < cap) then
        {| gs := <[i := GDeferred]> (gs s); ch := ch s ++ [(i, r)];
           wg := wg s; pfs := pfs s |}
      else s
  | Some GDeferred =>
      {| gs := <[i := GExited]> (gs s); ch := ch s;
         wg := (wg s - 1)%Z; pfs := pfs s |}
  | Some GExited | None => s
  end.

(** The goroutines run in the order the schedule names them. *)
Definition run_schedule (E : Env) (cap : nat) (sched : list nat) (s : pool) : pool :=
  fold_left (step_goroutine E cap) sched s.

(** The operations goroutine [g] still has to perform, the send and the
    deferred [Done] included. *)
Definition goroutine_steps (E : Env) (g : goroutine) (t : FS) : nat :=
  match g with
  | GRun p => prog_steps E p t + 2
  | GDeferred => 1
  | GExited => 0
  end.

(** Goroutine [i] runs until it is gone (or stays blocked on its send). *)
Definition finish_goroutine (E : Env) (cap : nat) (s : pool) (i : nat) : pool :=
  match gs s !! i with
  | Some g =>
      Nat.iter (goroutine_steps E g (pfs s)) (λ s', step_goroutine E cap s' i) s
  | None => s
  end.

(** When the schedule is used up the scheduler lets every goroutine that is
    still there run to its end, one after the other. *)
Definition finish_all (E : Env) (cap : nat) (s : pool) : pool :=
  fold_left (finish_goroutine E cap) (seq 0 (length (gs s))) s.

(** Lines 133-144: [wg.Add(len(licenses))], the buffered channel, and one
    goroutine per license, each on its own copy [me] of the license. *)
Definition launch (E : Env) (licenses : list License)
    (rawPath templatesPath : path) (t : FS) : pool :=
  {| gs := (λ me, GRun (writeLicense E me rawPath templatesPath)) <$> licenses;
     ch := []; wg := Z.of_nat (length licenses); pfs := t |}.

(** Lines 133-147: the goroutines are launched and run, under the schedule
    and then to their end; [wg.Wait()] returns when the counter is zero, and
    the channel is closed. The result is the file system and the channel's
    content at that point; [None] when [Wait] never returns. *)
Definition fan_out (E : Env) (sched : list nat) (licenses : list License)
    (rawPath templatesPath : path) (t : FS)
  : option (FS * list (nat * option Error)) :=
  let cap := length licenses in
  let s1 := finish_all E cap
              (run_schedule E cap sched (launch E licenses rawPath templatesPath t)) in
  if decide (wg s1 = 0%Z) then Some (pfs s1, ch s1) else None.

(** Lines 149-154: the first non-nil error received from the closed channel. *)
Fixpoint first_error (received : list (nat * option Error)) : option Error :=
  match received with
  | [] => None
  | (_, Some err) :: _ => Some err
  | (_, None) :: rest => first_error rest
  end.

(** ** Bootstrap *)

(** How a call ends: it returns ([None] is [nil]), or it never does. *)
Inductive outcome := Returned (err : option Error) | Blocked.

(** A run of [Bootstrap]: how it ended and the world it left, together with
    three observations of the run that the theorems speak about: the staging
    root once [ioutil.TempDir] has made it, the file system at the moment
    [fetchIndex] is called, and the file system and the content of the
    channel when [wg.Wait()] returns. *)
Record Run := {
  result : outcome;
  final : World;
  staging : option path;
  at_fetch : option FS;
  joined : option (FS * list (nat * option Error));
}.

(** Lines 100-107: the loop over [pathsToMake]. *)
Fixpoint make_paths (E : Env) (pathsToMake : list path) (t : FS) : FS * option Error :=
  match pathsToMake with
  | [] => (t, None)
  | p :: rest =>
      let '(t', ok) := MkdirAll E p t in
      if ok then make_paths E rest t' else (t', Some (ErrCreateDirFailed p))
  end.

(** Lines 156-172: the commit. *)
Definition commit (E : Env) (home tempLicensePath : path) (w : World)
  : World * option Error :=
  let w := VerbosePrintln "created license templates..." w in
  (* remove existing path + data *)
  let realLicensePath := path_Join home (LicenseDirectory E) in
  let '(t1, err) := RemoveAll E realLicensePath (fs w) in
  if err is Some true then (with_fs t1 w, Some (ErrRemovePathFailed realLicensePath))
  else
    (* copy temp data to real path *)
    let '(t2, ok) := CopyTree E tempLicensePath realLicensePath t1 in
    if negb ok
    then (with_fs t2 w, Some (ErrCopyTreeFailed tempLicensePath realLicensePath))
    else (VerbosePrintln "bootstrap complete!" (with_fs t2 w), None).

(** Lines 89-172 without the deferred call: everything [Bootstrap] does once
    the staging root exists. *)
Definition Bootstrap_staged (E : Env) (sched : list nat)
    (home tempLicensePath : path) (w : World) : Run :=
  (* make path strings relative to temp directory *)
  let dataPath := path_Join tempLicensePath DataDirectory in
  let rawPath := path_Join dataPath RawDirectory in
  let templatesPath := path_Join dataPath TemplatesDirectory in
  let indexFilePath := path_Join dataPath IndexFile in
  let here := Some tempLicensePath in
  (* create data directories *)
  let '(t1, err) := make_paths E [rawPath; templatesPath] (fs w) in
  let w := with_fs t1 w in
  if err is Some e then Build_Run (Returned (Some e)) w here None None else
  (* fetch index file json *)
  match fetchIndex E with
  | None => Build_Run (Returned (Some ErrFetchFailed)) w here (Some t1) None
  | Some serialized =>
      let w := VerbosePrintln "fetched data from api.github.com..." w in
      (* write fetched index JSON to file *)
      let '(t2, ok) := WriteFile E indexFilePath serialized (fs w) in
      let w := with_fs t2 w in
      if negb ok
      then Build_Run (Returned (Some (ErrCreateDirFailed indexFilePath))) w
             here (Some t1) None
      else
        let w := VerbosePrintln "created local index file..." w in
        (* make list of short licenses from the fetched index file *)
        match jsonToList E serialized with
        | None => Build_Run (Returned (Some (ErrDeserializeFailed serialized))) w
                    here (Some t1) None
        | Some licenses =>
            match fan_out E sched licenses rawPath templatesPath (fs w) with
            | None => Build_Run Blocked w here (Some t1) None
            | Some (t3, received) =>
                let w := with_fs t3 w in
                (* check for errors *)
                match first_error received with
                | Some e => Build_Run (Returned (Some e)) w here (Some t1)
                              (Some (t3, received))
                | None =>
                    let '(w', r) := commit E home tempLicensePath w in
                    Build_Run (Returned r) w' here (Some t1) (Some (t3, received))
                end
            end
        end
  end.

(** The deferred function of lines 96-98; what [os.RemoveAll] returns is
    dropped. It runs when [Bootstrap] returns, not when it blocks. *)
Definition deferred_cleanup (E : Env) (tempLicensePath : path) (r : Run) : Run :=
  match result r with
  | Returned _ =>
      Build_Run (result r)
        (with_fs (RemoveAll E tempLicensePath (fs (final r))).1 (final r))
        (staging r) (at_fetch r) (joined r)
  | Blocked => r
  end.

(** [Bootstrap] (bootstrap.go, lines 72-173), under the schedule [sched] of
    its goroutines. *)
Definition Bootstrap (E : Env) (sched : list nat) (args : list string) (w : World)
  : Run :=
  match setLogLevel E args w with
  | (w, Some err) => Build_Run (Returned (Some err)) w None None None
  | (w, None) =>
      (* bail immediately if we cannot find the user's home directory *)
      match homedir_Dir E with
      | None => Build_Run (Returned (Some ErrCannotLocateHomeDir)) w None None None
      | Some home =>
          (* create temporary directory *)
          match TempDir E (fs w) with
          | (_, None) =>
              Build_Run (Returned (Some (ErrCreateTempDirFailed []))) w
                None None None
          | (t, Some tempLicensePath) =>
              deferred_cleanup E tempLicensePath
                (Bootstrap_staged E sched home tempLicensePath (with_fs t w))
          end
      end
  end.

(** ** Listing *)

(** A slice: [len] elements from offset [off] of the backing array [base]. *)
Record slice := { base : nat; off : nat; len : nat }.

(** What the terminal receives: the header printed by
    [fmt.Println("Available licenses:\n")], one row per
    [fmt.Printf("%s%-14s(%s)\n", indent, l.Key, l.Name)] holding the key and
    the name it is given, and the closing empty [fmt.Println()]. *)
Inductive Output :=
| OutHeader
| OutRow (key name : string)
| OutBlank.

(** The backing arrays of the slices, and the terminal. *)
Record Lister := {
  heap : gmap nat (list License);
  stdout : list Output;
}.

(** Modelled from the spec: [ByLicenseKey] (its [Len], [Less] and [Swap]
    are declared outside the given source) orders licenses by key,
    ascending and byte-wise; its [Less] is Go's [<] on the two keys. *)
Definition ByLicenseKey_Less (a b : License) : bool := String.ltb (Key a) (Key b).

(** One element put in its place in a sorted run: before the first element
    it is [Less] than. *)
Fixpoint sort_insert (x : License) (l : list License) : list License :=
  match l with
  | [] => [x]
  | y :: l' => if ByLicenseKey_Less x y then x :: y :: l' else y :: sort_insert x l'
  end.

(** [sort.Sort] on a [ByLicenseKey]: insertion sort, left to right, which is
    what the library runs on short slices. [sort.Sort] promises no order
    among equal keys; the theorems below use only that the result is sorted
    and a permutation of the input. *)
Definition sort_Sort (l : list License) : list License :=
  fold_left (λ acc x, sort_insert x acc) l [].

(** The elements a slice shows. *)
Definition read_slice (s : slice) (h : gmap nat (list License)) : list License :=
  take (len s) (drop (off s) (default [] (h !! base s))).

(** The elements of a slice replaced, in its backing array. *)
Definition write_slice (s : slice) (new : list License) (h : gmap nat (list License))
  : gmap nat (list License) :=
  match h !! base s with
  | Some arr =>
      <[base s := take (off s) arr ++ new ++ drop (off s + len s) arr]> h
  | None => h
  end.

(** [printList] (listing file, lines 28-39): sorts the backing array of the
    slice it is given, then prints. *)
Definition printList (licenses : slice) (st : Lister) : Lister :=
  let h := write_slice licenses (sort_Sort (read_slice licenses (heap st))) (heap st) in
  {| heap := h;
     stdout := stdout st ++ [OutHeader]
               ++ ((λ l, OutRow (Key l) (Name l)) <$> read_slice licenses h)
               ++ [OutBlank] |}.

(** [getLocalList] and [getRemoteList] (lines 8-26). *)
Definition getLocalList (E : Env) : option (list License) :=
  match readIndex E with
  | None => None
  | Some content => jsonToList E content
  end.

Definition getRemoteList (E : Env) : option (list License) :=
  match fetchIndex E with
  | None => None
  | Some body => jsonToList E body
  end.

(** The slice a freshly decoded list lives in: a new backing array. *)
Definition new_slice (l : list License) (st : Lister) : slice * Lister :=
  let a := fresh (dom (heap st)) in
  ({| base := a; off := 0; len := length l |},
   {| heap := <[a := l]> (heap st); stdout := stdout st |}).

(** [ListLocal] and [ListRemote] (lines 41-65). *)
Definition ListLocal (E : Env) (st : Lister) : Lister * option Error :=
  match getLocalList E with
  | None => (st, Some ErrReadFailed)
  | Some decoded =>
      let '(licenses, st) := new_slice decoded st in
      (printList licenses st, None)
  end.

Definition ListRemote (E : Env) (st : Lister) : Lister * option Error :=
  match getRemoteList E with
  | None => (st, Some ErrFetchFailed)
  | Some decoded =>
      let '(licenses, st) := new_slice decoded st in
      (printList licenses st, None)
  end.

(** * Notions the properties are stated with *)

(** The file system [t0] with the subtree [X] at the staging root. *)
Definition with_staging (temp : path) (X : FS) (t0 : FS) : FS :=
  modify temp (λ _, X) t0.

(** The [data] directory: the two directories and, once written, the index. *)
Definition data_dir (index : option bytes) (R T : gmap string node)
  : gmap string node :=
  <["raw" := Dir R]> (<["templates" := Dir T]>
    (match index with Some b => {["index.json" := File b]} | None => ∅ end)).

(** The tree at the staging root. *)
Definition staging_tree (index : option bytes) (R T : gmap string node) : FS :=
  Some (Dir {["data" := Dir (data_dir index R T)]}).

(** The names of the two files of a license. *)
Definition raw_name (l : License) : string := Key l +:+ ".json".
Definition template_name (l : License) : string := Key l +:+ ".tmpl".

(** The raw directory [R] and the templates directory [T] hold exactly the
    files of the licenses: for each license the bytes fetched for it, and the
    template rendered from their decoding. *)
Definition cache_files (E : Env) (licenses : list License)
    (R T : gmap string node) : Prop :=
  (∀ name n, R !! name = Some n ↔
     ∃ l content, l ∈ licenses ∧ name = raw_name l
       ∧ fetchFullInfo E l = Some content ∧ n = File content)
  ∧ (∀ name n, T !! name = Some n ↔
     ∃ l content full, l ∈ licenses ∧ name = template_name l
       ∧ fetchFullInfo E l = Some content ∧ jsonToLicense E content = Some full
       ∧ n = File (bytes_of_string (textTemplateString E full)))
  ∧ (∀ l, l ∈ licenses →
     ∃ content full,
       fetchFullInfo E l = Some content ∧ jsonToLicense E content = Some full).

(** The keys of the decoded index are plain names: none holds a path
    separator (the data model's "stable identifier"). *)
Definition index_keys_plain (E : Env) : Prop :=
  ∀ serialized licenses,
    fetchIndex E = Some serialized → jsonToList E serialized = Some licenses →
    Forall (λ l, plain_name (Key l)) licenses.

(** The keys of the decoded index are pairwise distinct (the data model's
    "unique" key). *)
Definition index_keys_distinct (E : Env) : Prop :=
  ∀ serialized licenses,
    fetchIndex E = Some serialized → jsonToList E serialized = Some licenses →
    NoDup (Key <$> licenses).

(** Nothing stands in the way of the commit: the home directory is there,
    the cache directory lies directly in it, and the operating system fails
    neither the removal of the old cache nor the making and filling of the
    new one. *)
Definition commit_unhindered (E : Env) (home temp : path) (t0 : FS) : Prop :=
  is_dir (lookup_path home t0) = true
  ∧ plain_name (LicenseDirectory E) ∧ 2 < String.length (LicenseDirectory E)
  ∧ mkdir_fault E (path_Join home (LicenseDirectory E)) = false
  ∧ remove_fault E (path_Join home (LicenseDirectory E)) = None
  ∧ copy_fault E temp (path_Join home (LicenseDirectory E)) = None.


(** Ascending byte-wise order of the keys. *)
Definition key_le (a b : License) : Prop := (Key a ≤ Key b)%string.


(** C2, the claim as stated, for one run: if all the values received are
    [nil], [Bootstrap] returns [nil] and the real cache holds the index file
    and one raw and one template file per license. *)
Definition C2_as_stated (E : Env) (sched : list nat) (args : list string)
    (w : World) : Prop :=
  ∀ tj received home,
    joined (Bootstrap E sched args w) = Some (tj, received) →
    (∀ x, x ∈ received → x.2 = None) →
    homedir_Dir E = Some home →
    result (Bootstrap E sched args w) = Returned None
    ∧ ∃ serialized licenses R T,
        fetchIndex E = Some serialized ∧ jsonToList E serialized = Some licenses
        ∧ lookup_path (path_Join home (LicenseDirectory E))
            (fs (final (Bootstrap E sched args w)))
          = staging_tree (Some serialized) R T
        ∧ size R = length licenses ∧ size T = length licenses.

(** C3, the claim as stated, for one run: if fetching the index fails,
    [Bootstrap] fails with [FetchFailed] and no staging area has been created
    by the time of the fetch. *)
Definition C3_as_stated (E : Env) (sched : list nat) (args : list string)
    (w : World) : Prop :=
  fetchIndex E = None →
  result (Bootstrap E sched args w) = Returned (Some ErrFetchFailed)
  ∧ ∀ temp t, staging (Bootstrap E sched args w) = Some temp →
              at_fetch (Bootstrap E sched args w) = Some t →
              lookup_path temp t = None.


(** The messages [Bootstrap] hands to [logger.VerbosePrintln], in the order
    of the source (lines 116, 123, 156 and 170). *)
Definition progress_messages : list string :=
  ["fetched data from api.github.com..."; "created local index file...";
   "created license templates..."; "bootstrap complete!"].

(** The two errors of the commit (lines 158-168). *)
Definition commit_error (e : Error) : bool :=
  match e with
  | ErrRemovePathFailed _ | ErrCopyTreeFailed _ _ => true
  | _ => false
  end.

(** What the value [r] a goroutine sends says about its license [l]: the
    error, if any, is one of those [writeLicense] builds, for the reason it
    builds it. *)
Definition task_explained (E : Env) (rawPath templatesPath : path) (l : License)
    (r : option Error) : Prop :=
  match fetchFullInfo E l with
  | None => r = Some ErrFetchFailed
  | Some content =>
      match jsonToLicense E content with
      | None => r = Some (ErrDeserializeFailed content)
      | Some _ =>
          r = None
          ∨ r = Some (ErrWriteFileFailed (path_Join rawPath (Key l +:+ ".json")))
          ∨ r = Some (ErrWriteFileFailed (path_Join templatesPath (Key l +:+ ".tmpl")))
      end
  end.

(** * Invariants of the fan-out *)

Definition live (g : goroutine) : nat := match g with GExited => 0 | _ => 1 end.
Definition sent (g : goroutine) : bool := match g with GRun _ => false | _ => true end.

(** What holds of the counter and the channel in every state the pool can
    reach, for [n] goroutines and a buffer of [n] places: the counter is the
    number of goroutines that are not gone yet, and the channel holds one
    value from each goroutine that is past its send, and nothing else. *)
Record pool_counts (n : nat) (s : pool) : Prop := {
  pc_length : length (gs s) = n;
  pc_wg : wg s = Z.of_nat (sum_list (live <$> gs s));
  pc_nodup : NoDup (ch s).*1;
  pc_sent : ∀ j, j ∈ (ch s).*1 ↔ sent <$> gs s !! j = Some true;
}.

(** Every write the task may still perform goes below [temp]. *)
Fixpoint writes_under {R} (temp : path) (p : prog R) : Prop :=
  match p with
  | Ret _ => True
  | FetchOp _ k => ∀ r, writes_under temp (k r)
  | WriteOp q _ k => (∃ q', q = temp ++ q') ∧ ∀ ok, writes_under temp (k ok)
  end.

Definition pool_confined (temp : path) (t0 : FS) (s : pool) : Prop :=
  (∃ X, pfs s = with_staging temp X t0 ∧ is_dir X = true)
  ∧ ∀ i p, gs s !! i = Some (GRun p) → writes_under temp p.

(** [writeLicense] from line 59 on, and from line 53 on. *)
Definition write_template_step (E : Env) (l : License) (templatesPath : path)
    (fullLicense : License) : prog (option Error) :=
  let templateFilePath := path_Join templatesPath (Key l +:+ ".tmpl") in
  WriteOp templateFilePath (bytes_of_string (textTemplateString E fullLicense))
    (λ ok', if negb ok' then Ret (Some (ErrWriteFileFailed templateFilePath))
            else Ret None).

Definition write_raw_step (E : Env) (l : License) (rawPath templatesPath : path)
    (content : bytes) (fullLicense : License) : prog (option Error) :=
  let rawFilePath := path_Join rawPath (Key l +:+ ".json") in
  WriteOp rawFilePath content
    (λ ok, if negb ok then Ret (Some (ErrWriteFileFailed rawFilePath))
           else write_template_step E l templatesPath fullLicense).

(** Where the goroutine of license [l], the [i]-th, stands, and what it has
    left in the two directories. *)
Inductive task_state (E : Env) (rawPath templatesPath : path) (i : nat) (l : License)
    (R T : gmap string node) (received : list (nat * option Error))
  : goroutine → Prop :=
| ts_start :
    task_state E rawPath templatesPath i l R T received
      (GRun (writeLicense E l rawPath templatesPath))
| ts_failed e :
    task_state E rawPath templatesPath i l R T received (GRun (Ret (Some e)))
| ts_raw content full :
    fetchFullInfo E l = Some content → jsonToLicense E content = Some full →
    task_state E rawPath templatesPath i l R T received
      (GRun (write_raw_step E l rawPath templatesPath content full))
| ts_template content full :
    fetchFullInfo E l = Some content → jsonToLicense E content = Some full →
    R !! raw_name l = Some (File content) →
    task_state E rawPath templatesPath i l R T received
      (GRun (write_template_step E l templatesPath full))
| ts_written content full :
    fetchFullInfo E l = Some content → jsonToLicense E content = Some full →
    R !! raw_name l = Some (File content) →
    T !! template_name l
      = Some (File (bytes_of_string (textTemplateString E full))) →
    task_state E rawPath templatesPath i l R T received (GRun (Ret None))
| ts_sent g r :
    sent g = true → (i, r) ∈ received →
    (r = None → ∃ content full,
        fetchFullInfo E l = Some content ∧ jsonToLicense E content = Some full
        ∧ R !! raw_name l = Some (File content)
        ∧ T !! template_name l
          = Some (File (bytes_of_string (textTemplateString E full)))) →
    task_state E rawPath templatesPath i l R T received g.

(** Only files of the licenses lie in the directory. *)
Definition only_files (name_of : License → string) (licenses : list License)
    (S : gmap string node) : Prop :=
  ∀ name n, S !! name = Some n →
    (∃ d, n = File d) ∧ ∃ l, l ∈ licenses ∧ name = name_of l.

Record pool_shape (E : Env) (temp : path) (t0 : FS) (index : bytes)
    (licenses : list License) (R T : gmap string node) (s : pool) : Prop := {
  ps_fs : pfs s = with_staging temp (staging_tree (Some index) R T) t0;
  ps_length : length (gs s) = length licenses;
  ps_raw : only_files raw_name licenses R;
  ps_templates : only_files template_name licenses T;
  ps_tasks : ∀ i l, licenses !! i = Some l →
    ∃ g, gs s !! i = Some g
         ∧ task_state E (temp ++ ["data"; "raw"]) (temp ++ ["data"; "templates"])
             i l R T (ch s) g;
}.

(** Every value the task may still return satisfies [P]. *)
Fixpoint returns_only (E : Env) (P : option Error → Prop) (p : prog (option Error))
  : Prop :=
  match p with
  | Ret r => P r
  | FetchOp l k => returns_only E P (k (fetchFullInfo E l))
  | WriteOp _ _ k => ∀ ok, returns_only E P (k ok)
  end.

(** Each goroutine can only return, and has only sent, a value that its own
    license explains. *)
Definition pool_explained (E : Env) (rawPath templatesPath : path)
    (licenses : list License) (s : pool) : Prop :=
  ∀ i l, licenses !! i = Some l →
    (∀ p, gs s !! i = Some (GRun p) →
          returns_only E (task_explained E rawPath templatesPath l) p)
    ∧ (∀ r, (i, r) ∈ ch s → task_explained E rawPath templatesPath l r).

(** The value a task returns when each write it attempts succeeds unless the
    environment faults the path. *)
Fixpoint prog_outcome {R} (E : Env) (p : prog R) : R :=
  match p with
  | Ret r => r
  | FetchOp l k => prog_outcome E (k (fetchFullInfo E l))
  | WriteOp q _ k => prog_outcome E (k (bool_decide (write_fault E q = None)))
  end.

(** Where each goroutine stands, it is still heading for the value its task
    had from the start; the values sent are those values. *)
Definition pool_settled (E : Env) (rawPath templatesPath : path)
    (licenses : list License) (s : pool) : Prop :=
  ∀ i l, licenses !! i = Some l →
    (∀ p, gs s !! i = Some (GRun p) →
          prog_outcome E p = prog_outcome E (writeLicense E l rawPath templatesPath))
    ∧ (∀ r, (i, r) ∈ ch s →
            r = prog_outcome E (writeLicense E l rawPath templatesPath)).

(** * A small world to run the model in *)

Definition demo_license (key name : string) : License :=
  {| Key := key; Name := name;
     URL := "https://api.github.com/licenses/" +:+ key; Body := "" |}.

Definition demo_licenses : list License :=
  [demo_license "mit" "MIT License";
   demo_license "apache-2.0" "Apache License 2.0";
   demo_license "gpl-3.0" "GNU General Public License v3.0"].

(** An environment over the three licenses: the index, what fetching the
    detail of a license gives, and the faults of writes and removals are
    left open. *)
Definition demo_env (index : option bytes) (detail : License → option bytes)
    (wfault : path → option WriteFault) (rfault : path → option RemoveFault) : Env :=
  {| flagSet_Parse := λ _, Some {| BadFlags := []; Values := ∅ |};
     fetchIndex := index;
     readIndex := Some (bytes_of_string "[local index]");
     fetchFullInfo := detail;
     jsonToList := λ _, Some demo_licenses;
     jsonToLicense := λ content,
       Some {| Key := ""; Name := ""; URL := "";
               Body := String.string_of_list_byte content |};
     textTemplateString := λ full, "template of " +:+ Body full;
     homedir_Dir := Some ["home"; "u"];
     TempDir_name := Some ["tmp"; "license-042"];
     LicenseDirectory := ".license";
     mkdir_fault := λ _, false;
     write_fault := wfault;
     remove_fault := rfault;
     copy_fault := λ _ _, None |}.

Definition demo_index : option bytes := Some (bytes_of_string "[remote index]").

Definition demo_detail (l : License) : option bytes :=
  Some (bytes_of_string ("detail of " +:+ Key l)).

(** The provider fails on the detail of [gpl-3.0] only. *)
Definition demo_detail_gpl_fails (l : License) : option bytes :=
  if decide (Key l = "gpl-3.0") then None else demo_detail l.

(** A file system with a home directory that holds an older cache, and an
    empty [/tmp]. *)
Definition demo_fs : FS :=
  Some (Dir {[
    "home" := Dir {[ "u" := Dir {[ ".license" := Dir {[ "data" := Dir {[
                "index.json" := File (bytes_of_string "[old index]") ]} ]} ]} ]};
    "tmp" := Dir ∅ ]}).

Definition demo_world : World :=
  {| fs := demo_fs; logger_quiet := false; logger_verbose := false; logged := [] |}.

Definition no_write_fault : path → option WriteFault := λ _, None.
Definition no_remove_fault : path → option RemoveFault := λ _, None.

(** The index cannot be fetched. *)
Definition demo_env_no_index : Env :=
  demo_env None demo_detail no_write_fault no_remove_fault.

(** The removal of the old cache meets a permission error. *)
Definition remove_denied (target : path) : path → option RemoveFault :=
  λ p, if decide (p = target)
       then Some {| rf_permission := true; rf_residue := λ t, t |}
       else None.

(** The removal of the old cache fails with an error that is not a
    permission error, and removes nothing. *)
Definition remove_busy (target : path) : path → option RemoveFault :=
  λ p, if decide (p = target)
       then Some {| rf_permission := false; rf_residue := λ t, t |}
       else None.

(** The index file cannot be opened for writing. *)
Definition index_write_fails : path → option WriteFault :=
  λ p, if decide (p = ["tmp"; "license-042"; "data"; "index.json"])
       then Some FailOpen else None.

(** A flag parser for the two flags of [setLogLevel] (lines 17-18): the
    spellings of [quiet] and [verbose] set their key, anything else is a bad
    flag. *)
Definition quiet_flags : list string := ["--quiet"; "-quiet"; "-q"].
Definition verbose_flags : list string := ["--verbose"; "-verbose"; "-v"].

Definition demo_parse (args : list string) : option ParseResult :=
  Some {| BadFlags := filter (λ a, a ∉ quiet_flags ++ verbose_flags) args;
          Values := list_to_map
            ((if bool_decide (Exists (λ a, a ∈ quiet_flags) args)
              then [("quiet", "true")] else [])
             ++ (if bool_decide (Exists (λ a, a ∈ verbose_flags) args)
                 then [("verbose", "true")] else [])) |}.

(** The environment [E] with another flag parser, another index decoder, or
    other faults of [os.Mkdir]. *)
Definition with_flagSet_Parse (E : Env) (parse : list string → option ParseResult)
  : Env :=
  {| flagSet_Parse := parse;
     fetchIndex := fetchIndex E; readIndex := readIndex E;
     fetchFullInfo := fetchFullInfo E; jsonToList := jsonToList E;
     jsonToLicense := jsonToLicense E; textTemplateString := textTemplateString E;
     homedir_Dir := homedir_Dir E; TempDir_name := TempDir_name E;
     LicenseDirectory := LicenseDirectory E; mkdir_fault := mkdir_fault E;
     write_fault := write_fault E; remove_fault := remove_fault E;
     copy_fault := copy_fault E |}.

Definition with_jsonToList (E : Env) (decode : bytes → option (list License)) : Env :=
  {| flagSet_Parse := flagSet_Parse E;
     fetchIndex := fetchIndex E; readIndex := readIndex E;
     fetchFullInfo := fetchFullInfo E; jsonToList := decode;
     jsonToLicense := jsonToLicense E; textTemplateString := textTemplateString E;
     homedir_Dir := homedir_Dir E; TempDir_name := TempDir_name E;
     LicenseDirectory := LicenseDirectory E; mkdir_fault := mkdir_fault E;
     write_fault := write_fault E; remove_fault := remove_fault E;
     copy_fault := copy_fault E |}.

Definition with_mkdir_fault (E : Env) (fault : path → bool) : Env :=
  {| flagSet_Parse := flagSet_Parse E;
     fetchIndex := fetchIndex E; readIndex := readIndex E;
     fetchFullInfo := fetchFullInfo E; jsonToList := jsonToList E;
     jsonToLicense := jsonToLicense E; textTemplateString := textTemplateString E;
     homedir_Dir := homedir_Dir E; TempDir_name := TempDir_name E;
     LicenseDirectory := LicenseDirectory E; mkdir_fault := fault;
     write_fault := write_fault E; remove_fault := remove_fault E;
     copy_fault := copy_fault E |}.

(** The environment in which everything goes well. *)
Definition demo_env_ok : Env :=
  demo_env demo_index demo_detail no_write_fault no_remove_fault.

(** The detail of [gpl-3.0] cannot be fetched. *)
Definition demo_env_gpl_fails : Env :=
  demo_env demo_index demo_detail_gpl_fails no_write_fault no_remove_fault.



(** A file that cannot be opened for writing. *)
Definition write_denied (target : path) : path → option WriteFault :=
  λ p, if decide (p = target) then Some FailOpen else None.

(** A file system in which the name [ioutil.TempDir] picks is taken. *)
Definition demo_fs_temp_taken : FS :=
  Some (Dir {[ "home" := Dir {[ "u" := Dir ∅ ]};
               "tmp" := Dir {[ "license-042" := Dir ∅ ]} ]}).

(** * Properties *)

(** ** The directory tree *)

Section tree.
Implicit Types (p q : path) (t : FS) (f g : FS → FS).

Lemma lookup_path_app p q t :
  lookup_path (p ++ q) t = lookup_path q (lookup_path p t).
Proof.
  revert t. induction p as [|c p IH]; intros t; simpl; [done|].
  destruct t as [[d|m]|]; simpl; auto; by destruct q.
Qed.

Lemma lookup_path_None p : lookup_path p None = None.
Proof. by destruct p. Qed.

Lemma reachable_app p q t :
  reachable (p ++ q) t = reachable p t && reachable q (lookup_path p t).
Proof.
  revert t. induction p as [|c p IH]; intros t; simpl; [done|].
  destruct t as [[d|m]|]; simpl; auto.
Qed.

Lemma modify_app p q f t : modify (p ++ q) f t = modify p (modify q f) t.
Proof.
  revert t. induction p as [|c p IH]; intros t; simpl; [done|].
  destruct t as [[d|m]|]; simpl; auto.
  do 2 f_equal. apply partial_alter_ext. intros; apply IH.
Qed.

Lemma modify_ext p f g t : (∀ x, f x = g x) → modify p f t = modify p g t.
Proof.
  intros Hfg. revert t. induction p as [|c p IH]; intros t; simpl; [done|].
  destruct t as [[d|m]|]; simpl; auto.
  do 2 f_equal. apply partial_alter_ext. intros; apply IH.
Qed.

Lemma modify_modify p f g t : modify p f (modify p g t) = modify p (f ∘ g) t.
Proof.
  revert t. induction p as [|c p IH]; intros t; simpl; [done|].
  destruct t as [[d|m]|]; simpl; auto.
  do 2 f_equal. rewrite partial_alter_partial_alter_eq.
  apply partial_alter_ext. intros; apply IH.
Qed.

Lemma modify_id p f t : f (lookup_path p t) = lookup_path p t → modify p f t = t.
Proof.
  revert t. induction p as [|c p IH]; intros t; simpl; [done|].
  destruct t as [[d|m]|]; simpl; auto.
  intros H. do 2 f_equal. apply partial_alter_id. by apply IH.
Qed.

Lemma modify_unreachable p f t : reachable p t = false → modify p f t = t.
Proof.
  revert t. induction p as [|c p IH]; intros t; simpl; [done|].
  destruct t as [[d|m]|]; simpl; auto.
  intros H. do 2 f_equal. apply partial_alter_id. by apply IH.
Qed.

Lemma lookup_modify p f t :
  reachable p t = true → lookup_path p (modify p f t) = f (lookup_path p t).
Proof.
  revert t. induction p as [|c p IH]; intros t; simpl; [done|].
  destruct t as [[d|m]|]; simpl; try done.
  intros H. rewrite lookup_partial_alter_eq. by apply IH.
Qed.

Lemma reachable_modify p f t : reachable p (modify p f t) = reachable p t.
Proof.
  revert t. induction p as [|c p IH]; intros t; simpl; [done|].
  destruct t as [[d|m]|]; simpl; try done.
  rewrite lookup_partial_alter_eq. apply IH.
Qed.

Lemma lookup_modify_unrelated p q f t :
  unrelated p q → lookup_path q (modify p f t) = lookup_path q t.
Proof.
  revert q t. induction p as [|c p IH]; intros q t [Hpq Hqp].
  { destruct Hpq. apply prefix_nil. }
  destruct q as [|d q]; [destruct Hqp; apply prefix_nil|].
  simpl. destruct t as [[x|m]|]; simpl; try done.
  destruct (decide (c = d)) as [->|Hne].
  - rewrite lookup_partial_alter_eq. apply IH.
    split; intros H; [apply Hpq|apply Hqp]; by apply prefix_cons.
  - by rewrite lookup_partial_alter_ne.
Qed.

(** What lies below [p] after the entry at [p] was set. *)
Lemma lookup_under_modify p q f t :
  reachable p t = true →
  lookup_path (p ++ q) (modify p f t) = lookup_path q (f (lookup_path p t)).
Proof. intros H. by rewrite lookup_path_app, lookup_modify. Qed.

Lemma reachable_under_modify p q f t :
  reachable p t = true →
  reachable (p ++ q) (modify p f t) = reachable q (f (lookup_path p t)).
Proof.
  intros H. by rewrite reachable_app, reachable_modify, H, lookup_modify.
Qed.

Lemma modify_under_modify p q f g t :
  modify (p ++ q) f (modify p g t) = modify p (modify q f ∘ g) t.
Proof. by rewrite modify_app, modify_modify. Qed.

Lemma is_dir_reachable p t : is_dir (lookup_path p t) = true → reachable p t = true.
Proof.
  revert t. induction p as [|c p IH]; intros t; simpl; [done|].
  destruct t as [[d|m]|]; simpl; try done. apply IH.
Qed.

Lemma unrelated_sym p q : unrelated p q → unrelated q p.
Proof. intros [??]; by split. Qed.

Lemma unrelated_app_l p q r : unrelated p q → unrelated (p ++ r) q.
Proof.
  intros [Hpq Hqp]. split.
  - intros H. apply Hpq. etrans; [|done]. by apply prefix_app_r.
  - intros H. destruct (prefix_weak_total q p (p ++ r)) as [?|?]; auto.
    by apply prefix_app_r.
Qed.
End tree.

(** ** Paths *)

Section paths.
Implicit Types (s k : string) (d : path).

Lemma list_ascii_of_string_app s1 s2 :
  String.list_ascii_of_string (s1 +:+ s2)
  = String.list_ascii_of_string s1 ++ String.list_ascii_of_string s2.
Proof. induction s1 as [|a s1 IH]; simpl; [done|]. by rewrite IH. Qed.

Lemma list_ascii_of_string_inj s1 s2 :
  String.list_ascii_of_string s1 = String.list_ascii_of_string s2 → s1 = s2.
Proof.
  intros H. rewrite <-(String.string_of_list_ascii_of_string s1),
    <-(String.string_of_list_ascii_of_string s2). by rewrite H.
Qed.

(** Two keys with the same file name are the same key. *)
Lemma append_suffix_inj s1 s2 ext : s1 +:+ ext = s2 +:+ ext → s1 = s2.
Proof.
  intros H. apply list_ascii_of_string_inj.
  apply (f_equal String.list_ascii_of_string) in H.
  rewrite !list_ascii_of_string_app in H. by apply app_inv_tail in H.
Qed.

Lemma length_append s1 s2 :
  String.length (s1 +:+ s2) = String.length s1 + String.length s2.
Proof. induction s1 as [|a s1 IH]; simpl; [done|]. by rewrite IH. Qed.

Lemma plain_name_append s1 s2 :
  plain_name s1 → plain_name s2 → plain_name (s1 +:+ s2).
Proof.
  unfold plain_name. rewrite list_ascii_of_string_app, elem_of_app. tauto.
Qed.

Lemma split_slash_plain s : plain_name s → split_slash s = [s].
Proof.
  unfold plain_name. induction s as [|a s IH]; simpl; [done|].
  intros H. destruct (Ascii.eqb_spec a "/"%char) as [->|Hne].
  { destruct H. by left. }
  rewrite IH; [done|]. intros Hin. apply H. by right.
Qed.

Lemma path_Join_plain d s :
  plain_name s → 2 < String.length s → path_Join d s = d ++ [s].
Proof.
  intros Hs Hlen. unfold path_Join. rewrite split_slash_plain by done.
  simpl. unfold push_component.
  destruct (decide (s = "" ∨ s = ".")) as [[-> | ->]|_]; [simpl in Hlen; lia..|].
  destruct (decide (s = "..")) as [->|_]; [simpl in Hlen; lia|done].
Qed.

(** The file of a key lies directly in the directory it is joined to, for a
    key without a separator. *)
Lemma path_Join_key d k ext :
  plain_name k → plain_name ext → 2 < String.length ext →
  path_Join d (k +:+ ext) = d ++ [k +:+ ext].
Proof.
  intros Hk Hext Hlen. apply path_Join_plain.
  - by apply plain_name_append.
  - rewrite length_append. lia.
Qed.

Lemma plain_json : plain_name ".json" ∧ 2 < String.length ".json".
Proof. split; [by apply (bool_decide_unpack _)|simpl; lia]. Qed.
End paths.

(** ** The staging area seen from its root *)

Section staging.
Context (E : Env) (temp : path) (t0 : FS).
Hypothesis Hreach : reachable temp t0 = true.
Implicit Types (q : path) (X : FS).

Lemma lookup_with_staging q X :
  lookup_path (temp ++ q) (with_staging temp X t0) = lookup_path q X.
Proof using Hreach. unfold with_staging. by rewrite lookup_under_modify. Qed.

Lemma lookup_staging_root X : lookup_path temp (with_staging temp X t0) = X.
Proof using Hreach. unfold with_staging. by rewrite lookup_modify. Qed.

Lemma reachable_with_staging q X :
  reachable (temp ++ q) (with_staging temp X t0) = reachable q X.
Proof using Hreach. unfold with_staging. by rewrite reachable_under_modify. Qed.

Lemma modify_with_staging q f X :
  modify (temp ++ q) f (with_staging temp X t0) = with_staging temp (modify q f X) t0.
Proof. unfold with_staging. by rewrite modify_under_modify. Qed.

Lemma with_staging_twice X Y :
  with_staging temp Y (with_staging temp X t0) = with_staging temp Y t0.
Proof. unfold with_staging. by rewrite modify_modify. Qed.

Lemma lookup_outside_staging q X :
  unrelated temp q → lookup_path q (with_staging temp X t0) = lookup_path q t0.
Proof. apply lookup_modify_unrelated. Qed.

(** The staging root was not there before: taking it away again gives the
    file system back as it was. *)
Lemma with_staging_gone :
  lookup_path temp t0 = None → with_staging temp None t0 = t0.
Proof. intros H. apply modify_id. by rewrite H. Qed.

Lemma Mkdir_with_staging q X :
  Mkdir E (temp ++ q) (with_staging temp X t0)
  = match lookup_path q X with
    | Some _ => (with_staging temp X t0, false)
    | None =>
        if reachable q X && negb (mkdir_fault E (temp ++ q))
        then (with_staging temp (modify q (λ _, Some (Dir ∅)) X) t0, true)
        else (with_staging temp X t0, false)
    end.
Proof using Hreach.
  unfold Mkdir.
  by rewrite lookup_with_staging, reachable_with_staging, modify_with_staging.
Qed.

Lemma WriteFile_with_staging q data X :
  WriteFile E (temp ++ q) data (with_staging temp X t0)
  = if reachable q X && negb (is_dir (lookup_path q X)) then
      match write_fault E (temp ++ q) with
      | None => (with_staging temp (modify q (λ _, Some (File data)) X) t0, true)
      | Some FailOpen => (with_staging temp X t0, false)
      | Some (FailWrite n) =>
          (with_staging temp (modify q (λ _, Some (File (take n data))) X) t0, false)
      end
    else (with_staging temp X t0, false).
Proof using Hreach.
  unfold WriteFile. rewrite lookup_with_staging, reachable_with_staging.
  destruct (write_fault E (temp ++ q)) as [[|n]|];
    by rewrite ?modify_with_staging.
Qed.

Lemma RemoveAll_staging X :
  remove_fault E temp = None →
  RemoveAll E temp (with_staging temp X t0) = (with_staging temp None t0, None).
Proof. intros H. unfold RemoveAll, with_staging. rewrite H. by rewrite modify_modify. Qed.
End staging.

Lemma MkdirAll_rev_unfold E rp t :
  MkdirAll_rev E rp t
  = match lookup_path (rev rp) t with
    | Some (Dir _) => (t, true)
    | Some (File _) => (t, false)
    | None =>
        match rp with
        | [] => (t, false)
        | _ :: rparent =>
            let '(t', ok) := MkdirAll_rev E rparent t in
            if ok then Mkdir E (rev rp) t' else (t', false)
        end
    end.
Proof. by destruct rp. Qed.

Lemma MkdirAll_is_dir E p t : is_dir (lookup_path p t) = true → MkdirAll E p t = (t, true).
Proof.
  unfold MkdirAll. rewrite MkdirAll_rev_unfold, rev_involutive.
  by destruct (lookup_path p t) as [[]|].
Qed.

Lemma MkdirAll_snoc E p c t :
  MkdirAll E (p ++ [c]) t
  = match lookup_path (p ++ [c]) t with
    | Some (Dir _) => (t, true)
    | Some (File _) => (t, false)
    | None =>
        let '(t', ok) := MkdirAll E p t in
        if ok then Mkdir E (p ++ [c]) t' else (t', false)
    end.
Proof.
  unfold MkdirAll. rewrite MkdirAll_rev_unfold, rev_involutive.
  by rewrite rev_app_distr.
Qed.

Section staging_more.
Context (E : Env) (temp : path) (t0 : FS).
Hypothesis Hreach : reachable temp t0 = true.

Lemma is_dir_modify q f X : q ≠ [] → is_dir X = true → is_dir (modify q f X) = true.
Proof. destruct q; [done|]. by destruct X as [[]|]. Qed.

(** [MkdirAll], [Mkdir] and [WriteFile] below the staging root change
    nothing outside it, and leave the root a directory. *)
Lemma Mkdir_confined q X :
  is_dir X = true →
  ∃ X' ok, Mkdir E (temp ++ q) (with_staging temp X t0) = (with_staging temp X' t0, ok)
           ∧ is_dir X' = true.
Proof using Hreach.
  intros HX. rewrite Mkdir_with_staging by done.
  destruct (lookup_path q X) eqn:Hl; [by eauto|].
  destruct (_ && _); [|by eauto].
  eexists _, _; split; [done|]. apply is_dir_modify; [|done].
  intros ->. simpl in Hl. by subst.
Qed.

Lemma MkdirAll_confined q X :
  is_dir X = true →
  ∃ X' ok, MkdirAll E (temp ++ q) (with_staging temp X t0) = (with_staging temp X' t0, ok)
           ∧ is_dir X' = true.
Proof using Hreach.
  revert X. induction q as [|c q IH] using rev_ind; intros X HX.
  - rewrite app_nil_r, MkdirAll_is_dir; [by eauto|].
    by rewrite lookup_staging_root.
  - rewrite app_assoc, MkdirAll_snoc, <-app_assoc, lookup_with_staging by done.
    destruct (lookup_path (q ++ [c]) X) as [[]|]; [by eauto..|].
    destruct (IH X HX) as (X1 & ok1 & -> & HX1).
    destruct ok1; [|by eauto]. by apply Mkdir_confined.
Qed.

Lemma WriteFile_confined q data X :
  is_dir X = true →
  ∃ X' ok, WriteFile E (temp ++ q) data (with_staging temp X t0)
           = (with_staging temp X' t0, ok) ∧ is_dir X' = true.
Proof using Hreach.
  intros HX. rewrite WriteFile_with_staging by done.
  destruct (reachable q X && negb (is_dir (lookup_path q X))) eqn:Hc; [|by eauto].
  assert (q ≠ []) as Hq.
  { intros ->. simpl in Hc. by rewrite HX in Hc. }
  destruct (write_fault E (temp ++ q)) as [[|n]|]; eexists _, _;
    (split; [done|]); auto using is_dir_modify.
Qed.
End staging_more.

(** ** The fan-out: counting *)

Lemma sum_list_insert {A} (f : A → nat) (l : list A) i x y :
  l !! i = Some x →
  sum_list (f <$> <[i := y]> l) + f x = sum_list (f <$> l) + f y.
Proof.
  revert i. induction l as [|a l IH]; intros [|i] H; simplify_eq/=; [lia|].
  specialize (IH _ H). lia.
Qed.

Section pool_steps.
Context (E : Env) (cap : nat).
Implicit Types (s : pool) (i j : nat).

Lemma step_length s i : length (gs (step_goroutine E cap s i)) = length (gs s).
Proof.
  unfold step_goroutine. destruct (gs s !! i) as [[[r|l k|q d k]| |]|]; simpl;
    try done; try by rewrite length_insert.
  - case_decide; simpl; [by rewrite length_insert|done].
  - destruct (WriteFile E q d (pfs s)); simpl. by rewrite length_insert.
Qed.

Lemma step_other s i j : i ≠ j → gs (step_goroutine E cap s i) !! j = gs s !! j.
Proof.
  intros Hne. unfold step_goroutine.
  destruct (gs s !! i) as [[[r|l k|q d k]| |]|]; simpl;
    try done; try by rewrite list_lookup_insert_ne.
  - case_decide; simpl; [by rewrite list_lookup_insert_ne|done].
  - destruct (WriteFile E q d (pfs s)); simpl. by rewrite list_lookup_insert_ne.
Qed.

(** A property every step keeps is kept by whole schedules and by running
    the goroutines to their end. *)
Lemma run_schedule_inv (I : pool → Prop) sched s :
  (∀ s i, I s → I (step_goroutine E cap s i)) → I s → I (run_schedule E cap sched s).
Proof.
  intros Hstep. unfold run_schedule. revert s.
  induction sched as [|i sched IH]; intros s Hs; simpl; auto.
Qed.

Lemma iter_step_inv (I : pool → Prop) n s i :
  (∀ s i, I s → I (step_goroutine E cap s i)) → I s →
  I (Nat.iter n (λ s', step_goroutine E cap s' i) s).
Proof. intros Hstep Hs. induction n as [|n IH]; simpl; auto. Qed.

Lemma finish_goroutine_inv (I : pool → Prop) s i :
  (∀ s i, I s → I (step_goroutine E cap s i)) → I s → I (finish_goroutine E cap s i).
Proof.
  intros Hstep Hs. unfold finish_goroutine.
  destruct (gs s !! i); [|done]. by apply iter_step_inv.
Qed.

Lemma finish_all_inv (I : pool → Prop) s :
  (∀ s i, I s → I (step_goroutine E cap s i)) → I s → I (finish_all E cap s).
Proof.
  intros Hstep. unfold finish_all. generalize (seq 0 (length (gs s))).
  intros l. revert s. induction l as [|i l IH]; intros s Hs; simpl; [done|].
  apply IH. by apply finish_goroutine_inv.
Qed.
End pool_steps.

Section counting.
Context (E : Env) (n : nat).
Implicit Types (s : pool) (i j : nat).

Lemma counts_init (progs : list (prog (option Error))) t :
  length progs = n →
  pool_counts n {| gs := GRun <$> progs; ch := []; wg := Z.of_nat n; pfs := t |}.
Proof.
  intros <-. split; simpl.
  - by rewrite length_fmap.
  - f_equal. induction progs as [|p progs IH]; simpl; [done|]. by rewrite IH.
  - constructor.
  - intros j. rewrite list_lookup_fmap. split; [by intros ?%elem_of_nil|].
    by destruct (progs !! j).
Qed.

(** A goroutine that has not sent yet finds room in the buffer. *)
Lemma counts_room s i g :
  pool_counts n s → gs s !! i = Some g → sent g = false → length (ch s) < n.
Proof.
  intros [Hlen _ Hnd Hsent] Hi Hg.
  assert (i ∉ (ch s).*1) as Hnotin.
  { rewrite Hsent, Hi. simpl. by rewrite Hg. }
  assert (i :: (ch s).*1 ⊆+ seq 0 n) as Hsub.
  { apply NoDup_submseteq; [by constructor|].
    intros x Hx. apply elem_of_seq. split; [lia|]. simpl.
    rewrite <-Hlen. apply elem_of_cons in Hx as [->|Hx].
    - by eapply lookup_lt_Some.
    - apply Hsent in Hx. destruct (gs s !! x) eqn:Hgx; [|done].
      by eapply lookup_lt_Some. }
  apply submseteq_length in Hsub. rewrite length_seq in Hsub. simpl in Hsub.
  rewrite length_fmap in Hsub. lia.
Qed.

Lemma counts_insert_same s i g g' t :
  pool_counts n s → gs s !! i = Some g → live g' = live g → sent g' = sent g →
  pool_counts n {| gs := <[i := g']> (gs s); ch := ch s; wg := wg s; pfs := t |}.
Proof.
  intros [Hlen Hwg Hnd Hsent] Hi Hlive Hs. split; simpl.
  - by rewrite length_insert.
  - pose proof (sum_list_insert live (gs s) i g g' Hi). rewrite Hwg. f_equal. lia.
  - done.
  - intros j. rewrite Hsent. destruct (decide (i = j)) as [<-|Hne].
    + rewrite list_lookup_insert_eq by (by eapply lookup_lt_Some).
      rewrite Hi. simpl. by rewrite Hs.
    + by rewrite list_lookup_insert_ne.
Qed.

Lemma counts_step s i :
  pool_counts n s → pool_counts n (step_goroutine E n s i).
Proof.
  intros Hc. pose proof Hc as [Hlen Hwg Hnd Hsent]. unfold step_goroutine.
  destruct (gs s !! i) as [[[r|l k|q d k]| |]|] eqn:Hi; try done.
  - case_decide; [|done]. split; simpl.
    + by rewrite length_insert.
    + pose proof (sum_list_insert live (gs s) i _ GDeferred Hi) as Hsum.
      rewrite Hwg. f_equal. cbn [live] in Hsum. lia.
    + rewrite fmap_app. simpl. apply NoDup_app. split_and!; [done| |apply NoDup_singleton].
      intros x Hx ->%list_elem_of_singleton. apply Hsent in Hx. by rewrite Hi in Hx.
    + intros j. rewrite fmap_app, elem_of_app, Hsent. simpl.
      rewrite list_elem_of_singleton. destruct (decide (i = j)) as [<-|Hne].
      * rewrite list_lookup_insert_eq by (by eapply lookup_lt_Some).
        split; [done|by right].
      * rewrite list_lookup_insert_ne by done.
        split; [intros [?|?]; [done|congruence]|by left].
  - by eapply counts_insert_same.
  - destruct (WriteFile E q d (pfs s)). by eapply counts_insert_same.
  - split; simpl.
    + by rewrite length_insert.
    + pose proof (sum_list_insert live (gs s) i _ GExited Hi) as Hsum.
      rewrite Hwg. cbn [live] in Hsum. lia.
    + done.
    + intros j. rewrite Hsent. destruct (decide (i = j)) as [<-|Hne].
      * rewrite list_lookup_insert_eq by (by eapply lookup_lt_Some). by rewrite Hi.
      * by rewrite list_lookup_insert_ne.
Qed.

(** Once the counter is zero every goroutine is gone and the channel holds
    exactly one value from each. *)
Lemma counts_zero s :
  pool_counts n s → wg s = 0%Z →
  (∀ j, j < n → gs s !! j = Some GExited) ∧ (ch s).*1 ≡ₚ seq 0 n.
Proof.
  intros [Hlen Hwg Hnd Hsent] H0. rewrite Hwg in H0.
  assert (sum_list (live <$> gs s) = 0) as H0' by lia.
  assert (Forall (λ g, g = GExited) (gs s)) as Hall.
  { clear -H0'. induction (gs s) as [|g l IH]; [done|].
    rewrite fmap_cons in H0'. cbn [sum_list sum_list_with id] in H0'.
    constructor; [by destruct g|]. apply IH. lia. }
  assert (∀ j, j < n → gs s !! j = Some GExited) as Hex.
  { intros j Hj. rewrite <-Hlen in Hj.
    destruct (lookup_lt_is_Some_2 _ _ Hj) as [g Hg].
    rewrite Hg. f_equal. by eapply (proj1 (Forall_lookup _ _)) in Hall. }
  split; [done|]. apply NoDup_Permutation; [done|apply NoDup_seq|].
  intros j. rewrite Hsent, elem_of_seq. split.
  - intros Hj. destruct (gs s !! j) eqn:Hg; [|done].
    apply lookup_lt_Some in Hg. lia.
  - intros [_ Hj]. by rewrite Hex.
Qed.

Lemma counts_all_exited s :
  pool_counts n s → (∀ j, j < n → gs s !! j = Some GExited) → wg s = 0%Z.
Proof.
  intros [Hlen Hwg _ _] Hex. rewrite Hwg.
  assert (Forall (λ g, g = GExited) (gs s)) as Hall.
  { apply Forall_lookup. intros j g Hg. pose proof Hg as Hlt%lookup_lt_Some.
    rewrite Hex in Hg by lia. by simplify_eq. }
  assert (sum_list (live <$> gs s) = 0) as ->; [|done].
  clear -Hall. induction Hall as [|g l -> _ IH]; [done|].
  rewrite fmap_cons. cbn [sum_list sum_list_with id live]. by rewrite Nat.add_0_l.
Qed.
End counting.

(** ** The fan-out: every goroutine reaches its end *)

Section progress.
Context (E : Env) (n : nat).
Implicit Types (s : pool) (i j : nat).

Lemma exited_step s i j :
  gs s !! j = Some GExited → gs (step_goroutine E n s i) !! j = Some GExited.
Proof.
  intros Hj. destruct (decide (i = j)) as [->|Hne].
  - unfold step_goroutine. by rewrite Hj.
  - by rewrite step_other.
Qed.

Lemma iter_exits (p : prog (option Error)) s i :
  pool_counts n s → gs s !! i = Some (GRun p) →
  gs (Nat.iter (prog_steps E p (pfs s) + 2) (λ s', step_goroutine E n s' i) s) !! i
  = Some GExited.
Proof.
  revert s. induction p as [r|l k IH|q d k IH]; intros s Hc Hi.
  - pose proof (counts_room n s i _ Hc Hi eq_refl) as Hroom.
    pose proof Hi as Hlt%lookup_lt_Some. simpl.
    unfold step_goroutine at 2. rewrite Hi, decide_True by done.
    unfold step_goroutine. simpl.
    rewrite list_lookup_insert_eq by done. simpl.
    by rewrite list_lookup_insert_eq by (by rewrite length_insert).
  - cbn [prog_steps]. rewrite Nat.add_succ_l, Nat.iter_succ_r.
    pose proof Hi as Hlt%lookup_lt_Some.
    pose proof (counts_step E n s i Hc) as Hc'.
    unfold step_goroutine in Hc' |- *. rewrite Hi in Hc' |- *.
    apply (IH _ _ Hc'). simpl. by rewrite list_lookup_insert_eq.
  - cbn [prog_steps]. pose proof Hi as Hlt%lookup_lt_Some.
    pose proof (counts_step E n s i Hc) as Hc'.
    destruct (WriteFile E q d (pfs s)) as [t' ok] eqn:Hw.
    rewrite Nat.add_succ_l, Nat.iter_succ_r.
    unfold step_goroutine in Hc' |- *. rewrite Hi, Hw in Hc' |- *.
    apply (IH _ _ Hc'). simpl. by rewrite list_lookup_insert_eq.
Qed.

(** A goroutine left alone goes through [writeLicense] as [exec] does: after
    the operations of its task it stands at the send of the task's result, on
    the file system the task leaves. *)
Lemma iter_exec (p : prog (option Error)) s i :
  gs s !! i = Some (GRun p) →
  let s' := Nat.iter (prog_steps E p (pfs s)) (λ s', step_goroutine E n s' i) s in
  gs s' !! i = Some (GRun (Ret (exec E p (pfs s)).2))
  ∧ pfs s' = (exec E p (pfs s)).1 ∧ ch s' = ch s.
Proof.
  revert s. induction p as [r|l k IH|q d k IH]; intros s Hi; cbn zeta.
  - done.
  - cbn [prog_steps exec]. rewrite Nat.iter_succ_r.
    pose proof Hi as Hlt%lookup_lt_Some.
    set (s1 := step_goroutine E n s i).
    assert (gs s1 !! i = Some (GRun (k (fetchFullInfo E l)))
            ∧ pfs s1 = pfs s ∧ ch s1 = ch s) as (Hg1 & Hp1 & Hc1).
    { unfold s1, step_goroutine. rewrite Hi. simpl.
      by rewrite list_lookup_insert_eq. }
    destruct (IH _ s1 Hg1) as (H1 & H2 & H3). rewrite Hp1 in H1, H2, H3.
    by rewrite H1, H2, H3.
  - cbn [prog_steps exec]. pose proof Hi as Hlt%lookup_lt_Some.
    destruct (WriteFile E q d (pfs s)) as [t' ok] eqn:Hw.
    rewrite Nat.iter_succ_r.
    set (s1 := step_goroutine E n s i).
    assert (gs s1 !! i = Some (GRun (k ok)) ∧ pfs s1 = t' ∧ ch s1 = ch s)
      as (Hg1 & Hp1 & Hc1).
    { unfold s1, step_goroutine. rewrite Hi, Hw. simpl.
      by rewrite list_lookup_insert_eq. }
    destruct (IH _ s1 Hg1) as (H1 & H2 & H3). rewrite Hp1 in H1, H2, H3.
    by rewrite H1, H2, H3.
Qed.

Lemma finish_goroutine_exits s i :
  pool_counts n s → i < n → gs (finish_goroutine E n s i) !! i = Some GExited.
Proof.
  intros Hc Hi. pose proof (pc_length _ _ Hc) as Hlen. rewrite <-Hlen in Hi.
  destruct (lookup_lt_is_Some_2 _ _ Hi) as [g Hg].
  unfold finish_goroutine. rewrite Hg. destruct g as [p| |]; simpl.
  - by apply iter_exits.
  - unfold step_goroutine. rewrite Hg. simpl. by rewrite list_lookup_insert_eq.
  - done.
Qed.

Lemma finish_list_inv (I : pool → Prop) (l : list nat) s :
  (∀ s i, I s → I (step_goroutine E n s i)) → I s →
  I (fold_left (finish_goroutine E n) l s).
Proof.
  intros Hstep. revert s. induction l as [|i l IH]; intros s Hs; simpl; [done|].
  apply IH. by apply finish_goroutine_inv.
Qed.

Lemma finish_list_exits (l : list nat) s j :
  pool_counts n s → (∀ i, i ∈ l → i < n) → j ∈ l →
  gs (fold_left (finish_goroutine E n) l s) !! j = Some GExited.
Proof.
  revert s. induction l as [|i l IH]; intros s Hc Hl Hj; [by apply elem_of_nil in Hj|].
  simpl. assert (pool_counts n (finish_goroutine E n s i)) as Hc'.
  { apply finish_goroutine_inv; [|done]. intros; by apply counts_step. }
  destruct (decide (j ∈ l)) as [Hin|Hnin].
  - apply IH; [done| |done]. intros; apply Hl; by right.
  - apply elem_of_cons in Hj as [->|?]; [|done].
    apply (finish_list_inv (λ s', gs s' !! i = Some GExited)).
    + intros; by apply exited_step.
    + apply finish_goroutine_exits; [done|]. apply Hl; by left.
Qed.

(** However the schedule went, letting the goroutines run to their end
    leaves every one of them gone. *)
Lemma finish_all_exits s j :
  pool_counts n s → j < n → gs (finish_all E n s) !! j = Some GExited.
Proof.
  intros Hc Hj. unfold finish_all. rewrite (pc_length _ _ Hc).
  apply finish_list_exits; [done| |].
  - by intros i [_ ?]%elem_of_seq.
  - apply elem_of_seq; lia.
Qed.
End progress.

Lemma counts_launch E licenses rawPath templatesPath t :
  pool_counts (length licenses) (launch E licenses rawPath templatesPath t).
Proof.
  unfold launch.
  change ((λ me, GRun (writeLicense E me rawPath templatesPath)) <$> licenses)
    with ((GRun ∘ (λ me, writeLicense E me rawPath templatesPath)) <$> licenses).
  rewrite list_fmap_compose. apply counts_init. by rewrite length_fmap.
Qed.

Lemma fan_out_joins E sched licenses rawPath templatesPath t :
  ∃ t' received,
    fan_out E sched licenses rawPath templatesPath t = Some (t', received)
    ∧ received.*1 ≡ₚ seq 0 (length licenses).
Proof.
  unfold fan_out. set (n := length licenses).
  set (s0 := launch E licenses rawPath templatesPath t).
  assert (pool_counts n s0) as Hc0 by apply counts_launch.
  set (s1 := finish_all E n (run_schedule E n sched s0)).
  assert (pool_counts n s1) as Hc1.
  { apply finish_all_inv; [intros; by apply counts_step|].
    apply run_schedule_inv; [intros; by apply counts_step|done]. }
  assert (wg s1 = 0%Z) as H0.
  { apply (counts_all_exited n); [done|]. intros j Hj.
    apply finish_all_exits; [|done].
    apply run_schedule_inv; [intros; by apply counts_step|done]. }
  rewrite decide_True by done. eexists _, _; split; [done|].
  by apply (counts_zero n s1).
Qed.

(** ** The shape of the staging area *)

Section shape.
Implicit Types (R T : gmap string node) (index : option bytes).

Lemma data_dir_raw index R T : data_dir index R T !! "raw" = Some (Dir R).
Proof. unfold data_dir. by rewrite lookup_insert_eq. Qed.

Lemma data_dir_templates index R T :
  data_dir index R T !! "templates" = Some (Dir T).
Proof. unfold data_dir. by rewrite lookup_insert_ne, lookup_insert_eq. Qed.

Lemma data_dir_index index R T :
  data_dir index R T !! "index.json" = File <$> index.
Proof.
  unfold data_dir. rewrite !lookup_insert_ne by done.
  destruct index; simpl; [by rewrite lookup_singleton_eq|done].
Qed.

Lemma data_dir_set_raw index R R' T :
  <["raw" := Dir R']> (data_dir index R T) = data_dir index R' T.
Proof. unfold data_dir. by rewrite insert_insert_eq. Qed.

Lemma data_dir_set_templates index R T T' :
  <["templates" := Dir T']> (data_dir index R T) = data_dir index R T'.
Proof.
  unfold data_dir. rewrite insert_insert_ne by done. by rewrite insert_insert_eq.
Qed.

Lemma data_dir_set_index R T b :
  <["index.json" := File b]> (data_dir None R T) = data_dir (Some b) R T.
Proof.
  unfold data_dir. rewrite (insert_insert_ne _ "index.json" "raw") by done.
  by rewrite (insert_insert_ne _ "index.json" "templates") by done.
Qed.

Lemma partial_alter_subdir (m : gmap string node) c (g : FS → FS) S S' :
  m !! c = Some (Dir S) → g (Some (Dir S)) = Some (Dir S') →
  partial_alter g c m = <[c := Dir S']> m.
Proof.
  intros Hc Hg. apply map_eq; intros k.
  rewrite lookup_partial_alter, lookup_insert. case_decide; [|done].
  subst. by rewrite Hc.
Qed.

Lemma lookup_staging_raw index R T name :
  lookup_path ["data"; "raw"; name] (staging_tree index R T) = R !! name.
Proof. simpl. by rewrite lookup_singleton_eq, data_dir_raw. Qed.

Lemma lookup_staging_templates index R T name :
  lookup_path ["data"; "templates"; name] (staging_tree index R T) = T !! name.
Proof. simpl. by rewrite lookup_singleton_eq, data_dir_templates. Qed.

Lemma reachable_staging_raw index R T name :
  reachable ["data"; "raw"; name] (staging_tree index R T) = true.
Proof. simpl. by rewrite lookup_singleton_eq, data_dir_raw. Qed.

Lemma reachable_staging_templates index R T name :
  reachable ["data"; "templates"; name] (staging_tree index R T) = true.
Proof. simpl. by rewrite lookup_singleton_eq, data_dir_templates. Qed.

Lemma modify_staging_data index R T D' q f :
  modify q f (Some (Dir (data_dir index R T))) = Some (Dir D') →
  modify ("data" :: q) f (staging_tree index R T) = Some (Dir {["data" := Dir D']}).
Proof.
  intros H. unfold staging_tree. cbn [modify]. do 2 f_equal.
  apply map_eq; intros k. rewrite lookup_partial_alter.
  case_decide; subst.
  - by rewrite !lookup_singleton_eq, H.
  - by rewrite !lookup_singleton_ne.
Qed.

Lemma modify_staging_raw index R T name f :
  modify ["data"; "raw"; name] f (staging_tree index R T)
  = staging_tree index (partial_alter f name R) T.
Proof.
  apply modify_staging_data. cbn [modify]. do 2 f_equal.
  rewrite (partial_alter_subdir _ _ _ R (partial_alter f name R));
    [apply data_dir_set_raw|apply data_dir_raw|done].
Qed.

Lemma modify_staging_templates index R T name f :
  modify ["data"; "templates"; name] f (staging_tree index R T)
  = staging_tree index R (partial_alter f name T).
Proof.
  apply modify_staging_data. cbn [modify]. do 2 f_equal.
  rewrite (partial_alter_subdir _ _ _ T (partial_alter f name T));
    [apply data_dir_set_templates|apply data_dir_templates|done].
Qed.

Lemma modify_staging_index R T b :
  modify ["data"; "index.json"] (λ _, Some (File b)) (staging_tree None R T)
  = staging_tree (Some b) R T.
Proof.
  apply modify_staging_data. by rewrite <-data_dir_set_index.
Qed.
End shape.

(** ** The run up to the fan-out *)

Lemma plain_constants :
  (plain_name DataDirectory ∧ 2 < String.length DataDirectory)
  ∧ (plain_name RawDirectory ∧ 2 < String.length RawDirectory)
  ∧ (plain_name TemplatesDirectory ∧ 2 < String.length TemplatesDirectory)
  ∧ (plain_name IndexFile ∧ 2 < String.length IndexFile).
Proof. repeat split; try (by apply (bool_decide_unpack _)); simpl; lia. Qed.

(** The four paths of lines 90-93. *)
Lemma staging_paths temp :
  path_Join temp DataDirectory = temp ++ ["data"]
  ∧ path_Join (path_Join temp DataDirectory) RawDirectory = temp ++ ["data"; "raw"]
  ∧ path_Join (path_Join temp DataDirectory) TemplatesDirectory
    = temp ++ ["data"; "templates"]
  ∧ path_Join (path_Join temp DataDirectory) IndexFile = temp ++ ["data"; "index.json"].
Proof.
  destruct plain_constants as ([??] & [??] & [??] & [??]).
  rewrite !path_Join_plain by done. by rewrite <-!app_assoc.
Qed.

Lemma TempDir_Some E t0 t temp :
  TempDir E t0 = (t, Some temp) →
  t = with_staging temp (Some (Dir ∅)) t0
  ∧ reachable temp t0 = true ∧ lookup_path temp t0 = None
  ∧ TempDir_name E = Some temp.
Proof.
  unfold TempDir, Mkdir. destruct (TempDir_name E) as [p|]; [|done].
  destruct (lookup_path p t0) eqn:Hl; [done|].
  destruct (reachable p t0) eqn:Hr; [|done].
  destruct (mkdir_fault E p); [done|]. simpl. by intros [= <- <-].
Qed.

Section prefix.
Context (E : Env) (temp : path) (t0 : FS).
Hypothesis Hreach : reachable temp t0 = true.

Lemma MkdirAll_staging_snoc q c X :
  MkdirAll E (temp ++ q ++ [c]) (with_staging temp X t0)
  = match lookup_path (q ++ [c]) X with
    | Some (Dir _) => (with_staging temp X t0, true)
    | Some (File _) => (with_staging temp X t0, false)
    | None =>
        let '(t', ok) := MkdirAll E (temp ++ q) (with_staging temp X t0) in
        if ok then Mkdir E (temp ++ q ++ [c]) t' else (t', false)
    end.
Proof using Hreach.
  by rewrite app_assoc, MkdirAll_snoc, <-app_assoc, lookup_with_staging.
Qed.

(** The data directories made without an error stand as the empty layout. *)
Lemma make_paths_ok t1 :
  make_paths E [temp ++ ["data"; "raw"]; temp ++ ["data"; "templates"]]
    (with_staging temp (Some (Dir ∅)) t0) = (t1, None) →
  t1 = with_staging temp (staging_tree None ∅ ∅) t0.
Proof using Hreach.
  cbn [make_paths].
  (* raw *)
  rewrite (MkdirAll_staging_snoc ["data"] "raw").
  change (lookup_path (["data"] ++ ["raw"]) (Some (Dir ∅))) with (@None node).
  rewrite (MkdirAll_staging_snoc [] "data").
  change (lookup_path ([] ++ ["data"]) (Some (Dir ∅))) with (@None node).
  rewrite app_nil_r, MkdirAll_is_dir by (by rewrite lookup_staging_root).
  rewrite Mkdir_with_staging by done.
  change (lookup_path ([] ++ ["data"]) (Some (Dir ∅))) with (@None node).
  change (reachable ([] ++ ["data"]) (Some (Dir ∅))) with true.
  destruct (mkdir_fault E (temp ++ [] ++ ["data"])); [done|]. cbn [andb negb].
  rewrite Mkdir_with_staging by done.
  change (lookup_path (["data"] ++ ["raw"]) _) with (@None node).
  change (reachable (["data"] ++ ["raw"]) _) with true.
  destruct (mkdir_fault E (temp ++ ["data"] ++ ["raw"])); [done|]. cbn [andb negb].
  (* templates *)
  rewrite (MkdirAll_staging_snoc ["data"] "templates").
  change (lookup_path (["data"] ++ ["templates"]) _) with (@None node).
  rewrite MkdirAll_is_dir by (by rewrite lookup_with_staging).
  rewrite Mkdir_with_staging by done.
  change (lookup_path (["data"] ++ ["templates"]) _) with (@None node).
  change (reachable (["data"] ++ ["templates"]) _) with true.
  destruct (mkdir_fault E (temp ++ ["data"] ++ ["templates"])); [done|].
  cbn [andb negb]. by intros [= <-].
Qed.

Lemma make_paths_confined t1 r :
  make_paths E [temp ++ ["data"; "raw"]; temp ++ ["data"; "templates"]]
    (with_staging temp (Some (Dir ∅)) t0) = (t1, r) →
  ∃ X, t1 = with_staging temp X t0 ∧ is_dir X = true.
Proof using Hreach.
  cbn [make_paths].
  destruct (MkdirAll_confined E temp t0 Hreach ["data"; "raw"] (Some (Dir ∅)) eq_refl)
    as (X1 & ok1 & -> & HX1).
  destruct ok1; [|intros [= <- _]; by eauto].
  destruct (MkdirAll_confined E temp t0 Hreach ["data"; "templates"] X1 HX1)
    as (X2 & ok2 & -> & HX2).
  destruct ok2; intros [= <- _]; by eauto.
Qed.
End prefix.

(** ** The fan-out: nothing is written outside the staging area *)

Section confined.
Context (E : Env) (temp : path) (t0 : FS).
Hypothesis Hreach : reachable temp t0 = true.

Lemma writeLicense_writes_under l :
  plain_name (Key l) →
  writes_under temp
    (writeLicense E l (temp ++ ["data"; "raw"]) (temp ++ ["data"; "templates"])).
Proof.
  intros Hk. simpl. intros [content|]; [|done].
  destruct (jsonToLicense E content) as [full|]; [|done]. simpl.
  rewrite !path_Join_key, <-!app_assoc by
    (done || (by apply (bool_decide_unpack _)) || (simpl; lia)).
  split; [by eauto|]. intros [|]; simpl; [|done].
  split; [by eauto|]. by intros [|].
Qed.

Lemma confined_step cap s i :
  pool_confined temp t0 s → pool_confined temp t0 (step_goroutine E cap s i).
Proof using Hreach.
  intros [(X & HX & Hdir) Hprogs]. unfold step_goroutine.
  destruct (gs s !! i) as [[[r|l k|q d k]| |]|] eqn:Hi;
    try (by split; eauto).
  - case_decide; [|by split; eauto]. split; simpl; [by eauto|].
    intros j p Hj. destruct (decide (i = j)) as [<-|Hne].
    + rewrite list_lookup_insert_eq in Hj by (by eapply lookup_lt_Some). done.
    + rewrite list_lookup_insert_ne in Hj by done. eauto.
  - split; simpl; [by eauto|].
    intros j p Hj. destruct (decide (i = j)) as [<-|Hne].
    + rewrite list_lookup_insert_eq in Hj by (by eapply lookup_lt_Some).
      simplify_eq. by apply (Hprogs _ _ Hi).
    + rewrite list_lookup_insert_ne in Hj by done. eauto.
  - destruct (Hprogs _ _ Hi) as [[q' ->] Hk]. rewrite HX.
    destruct (WriteFile_confined E temp t0 Hreach q' d X Hdir)
      as (X' & ok & -> & Hdir').
    split; simpl; [by eauto|].
    intros j p Hj. destruct (decide (i = j)) as [<-|Hne].
    + rewrite list_lookup_insert_eq in Hj by (by eapply lookup_lt_Some).
      simplify_eq. apply Hk.
    + rewrite list_lookup_insert_ne in Hj by done. eauto.
  - split; simpl; [by eauto|].
    intros j p Hj. destruct (decide (i = j)) as [<-|Hne].
    + rewrite list_lookup_insert_eq in Hj by (by eapply lookup_lt_Some). done.
    + rewrite list_lookup_insert_ne in Hj by done. eauto.
Qed.

(** The fan-out over licenses with plain keys leaves a file system that
    differs from the one it started in below the staging root only. *)
Lemma fan_out_confined sched licenses X t' received :
  Forall (λ l, plain_name (Key l)) licenses → is_dir X = true →
  fan_out E sched licenses (temp ++ ["data"; "raw"]) (temp ++ ["data"; "templates"])
    (with_staging temp X t0) = Some (t', received) →
  ∃ X', t' = with_staging temp X' t0 ∧ is_dir X' = true.
Proof using Hreach.
  intros Hkeys HX. unfold fan_out. case_decide; [|done]. intros [= <- _].
  set (s0 := launch _ _ _ _ _).
  assert (pool_confined temp t0 s0) as H0.
  { split; [by eauto|]. unfold s0. simpl. intros i p Hi.
    rewrite list_lookup_fmap in Hi.
    destruct (licenses !! i) as [l|] eqn:Hl; simplify_eq/=.
    apply writeLicense_writes_under.
    by eapply (proj1 (Forall_lookup _ _)) in Hkeys. }
  apply (finish_all_inv E _ (pool_confined temp t0)); [intros; by apply confined_step|].
  apply run_schedule_inv; [intros; by apply confined_step|done].
Qed.
End confined.

Lemma setLogLevel_fs E args w : fs (setLogLevel E args w).1 = fs w.
Proof.
  unfold setLogLevel. destruct (flagSet_Parse E args) as [res|]; [|done].
  destruct (BadFlags res); [|done]. simpl.
  by destruct (Values res !! "quiet"), (Values res !! "verbose").
Qed.

Lemma first_error_Some received e :
  first_error received = Some e → ∃ i, (i, Some e) ∈ received.
Proof.
  induction received as [|[i [e'|]] rest IH]; simpl; [done| |].
  - intros [= ->]. exists i. by left.
  - intros [j Hj]%IH. exists j. by right.
Qed.

Lemma first_error_None received :
  first_error received = None ↔ ∀ x, x ∈ received → x.2 = None.
Proof.
  induction received as [|[i [e'|]] rest IH]; simpl.
  - split; [|done]. by intros _ x ?%elem_of_nil.
  - split; [done|]. intros H. by specialize (H (i, Some e') ltac:(by left)).
  - rewrite IH. split.
    + intros H x [->|?]%elem_of_cons; auto.
    + intros H x Hx. apply H. by right.
Qed.

(** What a run that got as far as [wg.Wait()] has been through. *)
Lemma Bootstrap_joined E sched args w tj received :
  joined (Bootstrap E sched args w) = Some (tj, received) →
  ∃ home temp serialized licenses wj,
    homedir_Dir E = Some home
    ∧ staging (Bootstrap E sched args w) = Some temp
    ∧ reachable temp (fs w) = true ∧ lookup_path temp (fs w) = None
    ∧ fetchIndex E = Some serialized ∧ jsonToList E serialized = Some licenses
    ∧ fan_out E sched licenses (temp ++ ["data"; "raw"]) (temp ++ ["data"; "templates"])
        (with_staging temp (staging_tree (Some serialized) ∅ ∅) (fs w))
      = Some (tj, received)
    ∧ fs wj = tj
    ∧ result (Bootstrap E sched args w)
      = Returned (match first_error received with
                  | Some e => Some e
                  | None => (commit E home temp wj).2
                  end)
    ∧ fs (final (Bootstrap E sched args w))
      = (RemoveAll E temp (match first_error received with
                           | Some _ => tj
                           | None => fs (commit E home temp wj).1
                           end)).1.
Proof.
  unfold Bootstrap. pose proof (setLogLevel_fs E args w) as Hfs.
  destruct (setLogLevel E args w) as [w1 [err|]]; [done|]. simpl in Hfs.
  destruct (homedir_Dir E) as [home|] eqn:Hhome; [|done].
  destruct (TempDir E (fs w1)) as [ta [temp|]] eqn:Htemp; [|done].
  apply TempDir_Some in Htemp as (-> & Hreach & Hfresh & _). rewrite Hfs in *.
  unfold Bootstrap_staged.
  destruct (staging_paths temp) as (_ & -> & -> & ->). cbn [fs with_fs].
  destruct (make_paths _ _ _) as [t1 err] eqn:Hmp.
  destruct err as [e|]; [done|].
  apply (make_paths_ok E temp _ Hreach) in Hmp as ->.
  destruct (fetchIndex E) as [serialized|] eqn:Hidx; [|done]. cbn [fs with_fs VerbosePrintln].
  rewrite WriteFile_with_staging by done.
  change (reachable ["data"; "index.json"] (staging_tree None ∅ ∅)) with true.
  change (is_dir (lookup_path ["data"; "index.json"] (staging_tree None ∅ ∅)))
    with false. cbn [andb negb].
  destruct (write_fault E (temp ++ ["data"; "index.json"])) as [[|n]|]; [done..|].
  rewrite modify_staging_index. cbn [negb fs with_fs VerbosePrintln].
  destruct (jsonToList E serialized) as [licenses|] eqn:Hlist; [|done].
  destruct (fan_out _ _ _ _ _ _) as [[t3 rec]|] eqn:Hfan; [|done].
  destruct (first_error rec) as [e|] eqn:Hfirst.
  - simpl. intros [= <- <-]. rewrite Hfirst.
    exists home, temp, serialized, licenses, (with_fs t3 w). by split_and!.
  - destruct (commit _ _ _ _) as [w' r] eqn:Hcommit. simpl.
    intros [= <- <-]. rewrite Hfirst.
    eexists home, temp, serialized, licenses, _. rewrite Hcommit. by split_and!.
Qed.

Lemma RemoveAll_modify E p t : ∃ g, (RemoveAll E p t).1 = modify p g t.
Proof. unfold RemoveAll. destruct (remove_fault E p); simpl; eauto. Qed.

Lemma RemoveAll_outside E p q t :
  unrelated p q → lookup_path q (RemoveAll E p t).1 = lookup_path q t.
Proof.
  intros H. destruct (RemoveAll_modify E p t) as [g ->].
  by apply lookup_modify_unrelated.
Qed.

(** ** The fan-out: what the staging area holds *)

Section shape_inv.
Context (E : Env) (temp : path) (t0 : FS) (index : bytes) (licenses : list License).
Hypothesis Hreach : reachable temp t0 = true.
Hypothesis Hnodup : NoDup (Key <$> licenses).
Hypothesis Hplain : Forall (λ l, plain_name (Key l)) licenses.
Abbreviation rawPath := (temp ++ ["data"; "raw"]).
Abbreviation templatesPath := (temp ++ ["data"; "templates"]).
Abbreviation shape := (pool_shape E temp t0 index licenses).
Abbreviation state := (task_state E rawPath templatesPath).

Lemma raw_file_path l :
  l ∈ licenses →
  path_Join rawPath (Key l +:+ ".json") = temp ++ ["data"; "raw"; raw_name l].
Proof using Hplain.
  intros Hl. rewrite path_Join_key, <-app_assoc; [done|..].
  - by apply (proj1 (Forall_forall _ _) Hplain).
  - by apply (bool_decide_unpack _).
  - simpl; lia.
Qed.

Lemma template_file_path l :
  l ∈ licenses →
  path_Join templatesPath (Key l +:+ ".tmpl")
  = temp ++ ["data"; "templates"; template_name l].
Proof using Hplain.
  intros Hl. rewrite path_Join_key, <-app_assoc; [done|..].
  - by apply (proj1 (Forall_forall _ _) Hplain).
  - by apply (bool_decide_unpack _).
  - simpl; lia.
Qed.

Lemma keys_differ i j l l' :
  licenses !! i = Some l → licenses !! j = Some l' → i ≠ j → Key l ≠ Key l'.
Proof using Hnodup.
  intros Hi Hj Hne Heq. apply Hne.
  apply (NoDup_lookup _ i j (Key l) Hnodup); rewrite list_lookup_fmap.
  - by rewrite Hi.
  - by rewrite Hj, Heq.
Qed.

Lemma state_mono i l R T R' T' chn chn' g :
  state i l R T chn g →
  R' !! raw_name l = R !! raw_name l →
  T' !! template_name l = T !! template_name l →
  (∀ x, x ∈ chn → x ∈ chn') →
  state i l R' T' chn' g.
Proof.
  intros Hs HR HT Hch. destruct Hs.
  - constructor.
  - constructor.
  - by econstructor.
  - econstructor; [done..|]. by rewrite HR.
  - econstructor; [done..| |]; by rewrite ?HR, ?HT.
  - econstructor; [done|by apply Hch|]. by rewrite HR, HT.
Qed.

Lemma only_files_insert name_of S l d :
  only_files name_of licenses S → l ∈ licenses →
  only_files name_of licenses (<[name_of l := File d]> S).
Proof.
  intros HS Hl name n. rewrite lookup_insert. case_decide as Hn.
  - intros [= <-]. subst. by eauto.
  - apply HS.
Qed.

Lemma only_files_not_dir name_of S name :
  only_files name_of licenses S → is_dir (S !! name) = false.
Proof.
  intros HS. destruct (S !! name) as [n|] eqn:Hn; [|done].
  by destruct (HS _ _ Hn) as [[d ->] _].
Qed.

(** One goroutine moved on; the others are where they were. *)
Lemma shape_update R T R' T' s i l g' chn' w' t' :
  shape R T s → licenses !! i = Some l →
  (∀ name, name ≠ raw_name l → R' !! name = R !! name) →
  (∀ name, name ≠ template_name l → T' !! name = T !! name) →
  only_files raw_name licenses R' → only_files template_name licenses T' →
  (∀ x, x ∈ ch s → x ∈ chn') →
  t' = with_staging temp (staging_tree (Some index) R' T') t0 →
  state i l R' T' chn' g' →
  shape R' T' {| gs := <[i := g']> (gs s); ch := chn'; wg := w'; pfs := t' |}.
Proof using Hnodup.
  intros [Hfs Hlen Hraw Htmpl Htasks] Hl HR HT Hraw' Htmpl' Hch -> Hg'.
  split; simpl; [done|by rewrite length_insert|done..|].
  intros j lj Hj. destruct (decide (i = j)) as [<-|Hne].
  - exists g'. rewrite list_lookup_insert_eq.
    + by simplify_eq.
    + rewrite Hlen. by eapply lookup_lt_Some.
  - destruct (Htasks j lj Hj) as (g & Hg & Hs). exists g.
    rewrite list_lookup_insert_ne by done. split; [done|].
    pose proof (keys_differ i j l lj Hl Hj Hne) as Hk.
    eapply state_mono; [done| | |done].
    + apply HR. unfold raw_name. by intros ?%append_suffix_inj.
    + apply HT. unfold template_name. by intros ?%append_suffix_inj.
Qed.

Lemma shape_step s i :
  (∃ R T, shape R T s) → ∃ R T, shape R T (step_goroutine E (length licenses) s i).
Proof using Hreach Hnodup Hplain.
  intros (R & T & Hshape). pose proof Hshape as [Hfs Hlen Hraw Htmpl Htasks].
  destruct (licenses !! i) as [l|] eqn:Hl; last first.
  { unfold step_goroutine. rewrite (lookup_ge_None_2 (gs s)); [by eauto|].
    rewrite Hlen. by apply lookup_ge_None_1. }
  pose proof (list_elem_of_lookup_2 _ _ _ Hl) as Hin.
  destruct (Htasks i l Hl) as (g & Hg & Hs).
  unfold step_goroutine. rewrite Hg.
  destruct Hs as [|e|content full Hf Hd|content full Hf Hd HR
                  |content full Hf Hd HR HT|g r Hsent Hr Hok].
  - (* the fetch and the decoding *)
    cbn [writeLicense]. exists R, T.
    eapply shape_update; try done.
    destruct (fetchFullInfo E l) as [content|] eqn:Hf; [|constructor].
    destruct (jsonToLicense E content) as [full|] eqn:Hd; [|constructor].
    by apply ts_raw.
  - (* the send of a failure *)
    case_decide; [|by eauto]. exists R, T.
    eapply shape_update; try done.
    + intros x Hx. apply elem_of_app. by left.
    + eapply ts_sent; [done|apply elem_of_app; right; by left|done].
  - (* the raw file *)
    unfold write_raw_step. rewrite raw_file_path, Hfs by done.
    rewrite WriteFile_with_staging, reachable_staging_raw, lookup_staging_raw by done.
    rewrite (only_files_not_dir raw_name) by done. cbn [andb negb].
    destruct (write_fault E _) as [[|n]|].
    + exists R, T. eapply shape_update; try done. constructor.
    + rewrite modify_staging_raw.
      exists (<[raw_name l := File (take n content)]> R), T.
      eapply shape_update; try done.
      * intros name Hne. by rewrite lookup_insert_ne.
      * by apply only_files_insert.
      * constructor.
    + rewrite modify_staging_raw.
      exists (<[raw_name l := File content]> R), T.
      eapply shape_update; try done.
      * intros name Hne. by rewrite lookup_insert_ne.
      * by apply only_files_insert.
      * cbn [negb]. eapply ts_template; [done..|]. by rewrite lookup_insert_eq.
  - (* the template file *)
    unfold write_template_step. rewrite template_file_path, Hfs by done.
    rewrite WriteFile_with_staging, reachable_staging_templates,
      lookup_staging_templates by done.
    rewrite (only_files_not_dir template_name) by done. cbn [andb negb].
    destruct (write_fault E _) as [[|n]|].
    + exists R, T. eapply shape_update; try done. constructor.
    + rewrite modify_staging_templates.
      eexists R, (<[template_name l := File (take n _)]> T).
      eapply shape_update; try done.
      * intros name Hne. by rewrite lookup_insert_ne.
      * by apply only_files_insert.
      * constructor.
    + rewrite modify_staging_templates.
      eexists R, (<[template_name l := File _]> T).
      eapply shape_update; try done.
      * intros name Hne. by rewrite lookup_insert_ne.
      * by apply only_files_insert.
      * cbn [negb]. eapply ts_written; [done..|]. by rewrite lookup_insert_eq.
  - (* the send of a success *)
    case_decide; [|by eauto]. exists R, T.
    eapply shape_update; try done.
    + intros x Hx. apply elem_of_app. by left.
    + eapply ts_sent; [done|apply elem_of_app; right; by left|].
      intros _. by exists content, full.
  - (* past the send *)
    destruct g as [p| |]; [done| |by eauto]. exists R, T.
    eapply shape_update; try done. by eapply ts_sent.
Qed.

(** When every value received is [nil], the two directories hold exactly the
    files of the licenses, whatever the schedule was. *)
Lemma fan_out_shape sched t' received :
  fan_out E sched licenses rawPath templatesPath
    (with_staging temp (staging_tree (Some index) ∅ ∅) t0) = Some (t', received) →
  first_error received = None →
  ∃ R T, t' = with_staging temp (staging_tree (Some index) R T) t0
         ∧ cache_files E licenses R T.
Proof using Hreach Hnodup Hplain.
  unfold fan_out. set (n := length licenses).
  set (s0 := launch _ _ _ _ _).
  set (s1 := finish_all E n (run_schedule E n sched s0)).
  case_decide; [|done]. intros [= <- <-] Hnone.
  assert (pool_counts n (run_schedule E n sched s0)) as Hc.
  { apply run_schedule_inv; [intros; by apply counts_step|]. apply counts_launch. }
  assert (∃ R T, shape R T s1) as (R & T & [Hfs Hlen Hraw Htmpl Htasks]).
  { apply (finish_all_inv E n (λ s, ∃ R T, shape R T s)); [intros; by apply shape_step|].
    apply (run_schedule_inv E n (λ s, ∃ R T, shape R T s));
      [intros; by apply shape_step|].
    exists ∅, ∅. split; simpl; [done|by rewrite length_fmap|done..|].
    intros i l Hl. eexists. rewrite list_lookup_fmap, Hl. split; [done|]. constructor. }
  assert (∀ l, l ∈ licenses → ∃ content full,
            fetchFullInfo E l = Some content ∧ jsonToLicense E content = Some full
            ∧ R !! raw_name l = Some (File content)
            ∧ T !! template_name l
              = Some (File (bytes_of_string (textTemplateString E full)))) as Hok.
  { intros l [i Hl]%list_elem_of_lookup_1.
    destruct (Htasks i l Hl) as (g & Hg & Hs).
    assert (gs s1 !! i = Some GExited) as Hex.
    { unfold s1. apply finish_all_exits; [done|]. unfold n. by eapply lookup_lt_Some. }
    rewrite Hex in Hg. injection Hg as <-. inversion Hs as [| | | | |g r _ Hr Hfiles]; subst.
    apply Hfiles. by apply (proj1 (first_error_None _) Hnone _ Hr). }
  exists R, T. split; [done|]. split_and!.
  - intros name node. split.
    + intros Hn. destruct (Hraw _ _ Hn) as [_ (l & Hl & ->)].
      destruct (Hok l Hl) as (content & full & Hf & Hd & HR & HT).
      exists l, content. rewrite HR in Hn. by simplify_eq.
    + intros (l & content & Hl & -> & Hf & ->).
      destruct (Hok l Hl) as (content' & full & Hf' & Hd & HR & HT).
      by simplify_eq.
  - intros name node. split.
    + intros Hn. destruct (Htmpl _ _ Hn) as [_ (l & Hl & ->)].
      destruct (Hok l Hl) as (content & full & Hf & Hd & HR & HT).
      exists l, content, full. rewrite HT in Hn. by simplify_eq.
    + intros (l & content & full & Hl & -> & Hf & Hd & ->).
      destruct (Hok l Hl) as (content' & full' & Hf' & Hd' & HR & HT).
      by simplify_eq.
  - intros l Hl. destruct (Hok l Hl) as (content & full & Hf & Hd & _).
    by eauto.
Qed.
End shape_inv.

(** ** The commit *)

Lemma Mkdir_ok_is_dir E p t t' :
  Mkdir E p t = (t', true) → is_dir (lookup_path p t') = true.
Proof.
  unfold Mkdir. destruct (lookup_path p t); [done|].
  destruct (reachable p t) eqn:Hr; [|done].
  destruct (mkdir_fault E p); [done|]. simpl. intros [= <-].
  by rewrite lookup_modify.
Qed.

Lemma MkdirAll_ok_is_dir E p t t' :
  MkdirAll E p t = (t', true) → is_dir (lookup_path p t') = true.
Proof.
  unfold MkdirAll. rewrite MkdirAll_rev_unfold, rev_involutive.
  destruct (lookup_path p t) as [[d|m]|] eqn:Hl.
  - done.
  - intros [= <-]. by rewrite Hl.
  - destruct (rev p) as [|c rp]; [done|].
    destruct (MkdirAll_rev E rp t) as [t'' [|]]; [|done].
    apply Mkdir_ok_is_dir.
Qed.

Lemma lookup_modify_gone p t : lookup_path p (modify p (λ _, None) t) = None.
Proof.
  destruct (reachable p t) eqn:Hr.
  - by rewrite lookup_modify.
  - rewrite modify_unreachable by done. clear -Hr. revert t Hr.
    induction p as [|c p IH]; intros t; simpl; [done|].
    destruct t as [[d|m]|]; auto.
Qed.

(** A successful [shutil.CopyTree] leaves at the destination what stood at
    the source, which was a directory. *)
Lemma CopyTree_ok E src dst t t' :
  CopyTree E src dst t = (t', true) →
  is_dir (lookup_path src t) = true ∧ lookup_path dst t' = lookup_path src t.
Proof.
  unfold CopyTree. destruct (lookup_path src t) as [[d|m]|]; [done| |done].
  destruct (lookup_path dst t); [done|].
  destruct (MkdirAll E dst t) as [t1 [|]] eqn:Hmk; [|done].
  destruct (copy_fault E src dst); [done|]. intros [= <-]. split; [done|].
  apply MkdirAll_ok_is_dir, is_dir_reachable in Hmk. by rewrite lookup_modify.
Qed.

(** A commit that reports no error has put the staged tree where the real
    cache is, whatever was there before. *)
Lemma commit_ok E home temp w w' :
  unrelated temp (path_Join home (LicenseDirectory E)) →
  commit E home temp w = (w', None) →
  lookup_path (path_Join home (LicenseDirectory E)) (fs w') = lookup_path temp (fs w).
Proof.
  intros Hun. unfold commit. cbn [fs VerbosePrintln].
  destruct (RemoveAll E _ (fs w)) as [t1 err] eqn:Hrm.
  assert (lookup_path temp t1 = lookup_path temp (fs w)) as Htemp.
  { replace t1 with (RemoveAll E (path_Join home (LicenseDirectory E)) (fs w)).1
      by by rewrite Hrm.
    by apply RemoveAll_outside, unrelated_sym. }
  destruct err as [[|]|]; [done|..];
    (destruct (CopyTree E temp _ t1) as [t2 [|]] eqn:Hcp; [|done]);
    intros [= <-]; simpl; apply CopyTree_ok in Hcp as [_ ->]; done.
Qed.

(** ** Runs that return [nil] *)

Lemma Bootstrap_success_joined E sched args w :
  result (Bootstrap E sched args w) = Returned None →
  ∃ tj received,
    joined (Bootstrap E sched args w) = Some (tj, received)
    ∧ first_error received = None.
Proof.
  unfold Bootstrap, deferred_cleanup.
  destruct (setLogLevel E args w) as [w1 [err|]]; [done|].
  destruct (homedir_Dir E) as [home|]; [|done].
  destruct (TempDir E (fs w1)) as [ta [temp|]]; [|done].
  unfold Bootstrap_staged.
  destruct (make_paths _ _ _) as [t1 [e|]]; [done|].
  destruct (fetchIndex E) as [serialized|]; [|done].
  destruct (WriteFile _ _ _ _) as [t2 [|]]; [|done]. cbn [negb].
  destruct (jsonToList E serialized) as [licenses|]; [|done].
  destruct (fan_out _ _ _ _ _ _) as [[t3 rec]|]; [|done].
  destruct (first_error rec) as [e|] eqn:Hfirst; [done|].
  destruct (commit _ _ _ _) as [w' r]. simpl. by eauto.
Qed.

Lemma cache_files_unique E E' licenses R T R' T' :
  (∀ l, fetchFullInfo E l = fetchFullInfo E' l) →
  (∀ b, jsonToLicense E b = jsonToLicense E' b) →
  (∀ l, textTemplateString E l = textTemplateString E' l) →
  cache_files E licenses R T → cache_files E' licenses R' T' →
  R = R' ∧ T = T'.
Proof.
  intros Hf Hd Ht (HR & HT & _) (HR' & HT' & _).
  split; apply map_eq; intros name; apply option_eq; intros n.
  - rewrite HR, HR'. by setoid_rewrite Hf.
  - rewrite HT, HT'. setoid_rewrite Hf. setoid_rewrite Hd. by setoid_rewrite Ht.
Qed.

Lemma cache_files_size E licenses R T :
  NoDup (Key <$> licenses) → cache_files E licenses R T →
  size R = length licenses ∧ size T = length licenses.
Proof.
  intros Hnd (HR & HT & Hall).
  assert (∀ ext, NoDup ((λ l, Key l +:+ ext) <$> licenses)) as Hnames.
  { intros ext.
    change (λ l, Key l +:+ ext) with ((λ k, k +:+ ext) ∘ Key).
    rewrite list_fmap_compose. apply NoDup_fmap_2; [|done].
    intros k1 k2. apply append_suffix_inj. }
  split.
  - rewrite <-size_dom, <-(length_fmap raw_name licenses).
    rewrite <-(size_list_to_set (C:=gset string)) by apply Hnames.
    f_equal. apply set_eq. intros name.
    rewrite elem_of_dom, elem_of_list_to_set, list_elem_of_fmap. split.
    + intros [n Hn]. apply HR in Hn as (l & _ & ? & ? & _). by eauto.
    + intros (l & -> & Hl). destruct (Hall l Hl) as (content & full & Hf & _).
      exists (File content). apply HR. by eauto 10.
  - rewrite <-size_dom, <-(length_fmap template_name licenses).
    rewrite <-(size_list_to_set (C:=gset string)) by apply Hnames.
    f_equal. apply set_eq. intros name.
    rewrite elem_of_dom, elem_of_list_to_set, list_elem_of_fmap. split.
    + intros [n Hn]. apply HT in Hn as (l & _ & _ & ? & ? & _). by eauto.
    + intros (l & -> & Hl). destruct (Hall l Hl) as (content & full & Hf & Hd).
      eexists. apply HT. by eauto 10.
Qed.

(** The real cache after a run that returned [nil]: the tree at the real
    cache path is the layout with the index as fetched and exactly the files
    of the decoded licenses. *)
Lemma Bootstrap_success_cache E sched args w home temp :
  result (Bootstrap E sched args w) = Returned None →
  index_keys_plain E → index_keys_distinct E →
  homedir_Dir E = Some home →
  staging (Bootstrap E sched args w) = Some temp →
  unrelated temp (path_Join home (LicenseDirectory E)) →
  ∃ serialized licenses R T,
    fetchIndex E = Some serialized ∧ jsonToList E serialized = Some licenses
    ∧ cache_files E licenses R T
    ∧ lookup_path (path_Join home (LicenseDirectory E))
        (fs (final (Bootstrap E sched args w)))
      = staging_tree (Some serialized) R T.
Proof.
  intros Hres Hplain Hdistinct Hhome Hst Hun.
  destruct (Bootstrap_success_joined _ _ _ _ Hres) as (tj & received & Hj & Hnone).
  destruct (Bootstrap_joined _ _ _ _ _ _ Hj)
    as (home' & temp' & serialized & licenses & wj & Hhome' & Hst' & Hreach & Hfresh
        & Hidx & Hlist & Hfan & Hwj & Hres' & Hfin).
  rewrite Hst in Hst'. injection Hst' as <-.
  rewrite Hhome in Hhome'. injection Hhome' as <-.
  rewrite Hnone in Hres', Hfin. rewrite Hres in Hres'. injection Hres' as Hc.
  apply (fan_out_shape E temp (fs w) serialized licenses Hreach) in Hfan
    as (R & T & -> & Hfiles); [|by eapply Hdistinct|by eapply Hplain|done].
  exists serialized, licenses, R, T. split_and!; [done..|].
  rewrite Hfin, RemoveAll_outside by done.
  destruct (commit E home temp wj) as [w' r] eqn:Hcommit. simpl in *. subst r.
  rewrite (commit_ok _ _ _ _ _ Hun Hcommit), Hwj. by rewrite lookup_staging_root.
Qed.

Lemma is_dir_lookup_modify p q f t :
  is_dir (lookup_path q t) = true → ¬ p `prefix_of` q →
  is_dir (lookup_path q (modify p f t)) = true.
Proof.
  revert p t. induction q as [|d q IH]; intros p t Hdir Hp.
  - destruct p as [|c p]; [destruct Hp; apply prefix_nil|].
    simpl in *. by destruct t as [[]|].
  - destruct p as [|c p]; [destruct Hp; apply prefix_nil|].
    simpl in *. destruct t as [[x|m]|]; try done. simpl.
    destruct (decide (c = d)) as [->|Hne].
    + rewrite lookup_partial_alter_eq. apply IH; [done|].
      intros H. apply Hp. by apply prefix_cons.
    + by rewrite lookup_partial_alter_ne.
Qed.

Lemma not_prefix_snoc (p : path) c : ¬ (p ++ [c]) `prefix_of` p.
Proof.
  intros H%prefix_length. rewrite length_app in H. simpl in H. lia.
Qed.

Lemma commit_succeeds E home temp w :
  unrelated temp (path_Join home (LicenseDirectory E)) →
  commit_unhindered E home temp (fs w) →
  is_dir (lookup_path temp (fs w)) = true →
  (commit E home temp w).2 = None.
Proof.
  intros Hun (Hhome & Hplain & Hlen & Hmk & Hrm & Hcp) Htemp.
  unfold commit, RemoveAll, CopyTree. cbn [fs VerbosePrintln].
  rewrite Hrm, Hcp. revert Hun Hmk.
  rewrite (path_Join_plain home (LicenseDirectory E)) by done.
  generalize (LicenseDirectory E). intros c Hun Hmk.
  assert (is_dir (lookup_path home (modify (home ++ [c]) (λ _, None) (fs w))) = true)
    as Hhome1.
  { apply is_dir_lookup_modify; [done|]. apply not_prefix_snoc. }
  rewrite (lookup_modify_unrelated (home ++ [c]) temp) by by apply unrelated_sym.
  destruct (lookup_path temp (fs w)) as [[d|m]|]; [done| |done].
  rewrite lookup_modify_gone, MkdirAll_snoc, lookup_modify_gone.
  rewrite MkdirAll_is_dir by done. unfold Mkdir.
  rewrite lookup_modify_gone, Hmk, reachable_app, (is_dir_reachable home) by done.
  revert Hhome1.
  by destruct (lookup_path home (modify (home ++ [c]) _ (fs w))) as [[x|mh]|].
Qed.

Lemma demo_keys_plain index detail wfault rfault :
  index_keys_plain (demo_env index detail wfault rfault).
Proof.
  intros serialized licenses _ [= <-].
  repeat constructor; by apply (bool_decide_unpack _).
Qed.

Lemma demo_keys_distinct index detail wfault rfault :
  index_keys_distinct (demo_env index detail wfault rfault).
Proof.
  intros serialized licenses _ [= <-]. by apply (bool_decide_unpack _).
Qed.

(** What a run that got as far as calling [fetchIndex] has been through, and
    how it ends when the fetch, or the write of the index, fails. *)
Lemma Bootstrap_at_fetch E sched args w t :
  at_fetch (Bootstrap E sched args w) = Some t →
  ∃ home temp,
    homedir_Dir E = Some home
    ∧ staging (Bootstrap E sched args w) = Some temp
    ∧ reachable temp (fs w) = true ∧ lookup_path temp (fs w) = None
    ∧ t = with_staging temp (staging_tree None ∅ ∅) (fs w)
    ∧ (fetchIndex E = None →
       result (Bootstrap E sched args w) = Returned (Some ErrFetchFailed)
       ∧ joined (Bootstrap E sched args w) = None
       ∧ fs (final (Bootstrap E sched args w)) = (RemoveAll E temp t).1)
    ∧ (∀ serialized,
       fetchIndex E = Some serialized →
       (WriteFile E (temp ++ ["data"; "index.json"]) serialized t).2 = false →
       result (Bootstrap E sched args w)
       = Returned (Some (ErrCreateDirFailed (temp ++ ["data"; "index.json"])))
       ∧ joined (Bootstrap E sched args w) = None
       ∧ fs (final (Bootstrap E sched args w))
         = (RemoveAll E temp
              (WriteFile E (temp ++ ["data"; "index.json"]) serialized t).1).1).
Proof.
  unfold Bootstrap. pose proof (setLogLevel_fs E args w) as Hfs.
  destruct (setLogLevel E args w) as [w1 [err|]]; [done|]. simpl in Hfs.
  destruct (homedir_Dir E) as [home|] eqn:Hhome; [|done].
  destruct (TempDir E (fs w1)) as [ta [temp|]] eqn:Htemp; [|done].
  apply TempDir_Some in Htemp as (-> & Hreach & Hfresh & _). rewrite Hfs in *.
  unfold Bootstrap_staged.
  destruct (staging_paths temp) as (_ & -> & -> & ->). cbn [fs with_fs].
  destruct (make_paths _ _ _) as [t1 err] eqn:Hmp.
  destruct err as [e|]; [done|].
  apply (make_paths_ok E temp _ Hreach) in Hmp as ->.
  intros Hat. exists home, temp.
  assert (t = with_staging temp (staging_tree None ∅ ∅) (fs w)) as ->.
  { destruct (fetchIndex E); [|by injection Hat].
    destruct (WriteFile _ _ _ _) as [t2 [|]]; [|by injection Hat].
    cbn [negb] in Hat. destruct (jsonToList E _); [|by injection Hat].
    destruct (fan_out _ _ _ _ _ _) as [[t3 rec]|]; [|by injection Hat].
    destruct (first_error rec); [by injection Hat|].
    destruct (commit _ _ _ _). by injection Hat. }
  split_and!; try done.
  - destruct (fetchIndex E) as [serialized|]; [|done].
    destruct (WriteFile _ _ _ _) as [t2 [|]]; [|done]. cbn [negb].
    destruct (jsonToList E _); [|done].
    destruct (fan_out _ _ _ _ _ _) as [[t3 rec]|]; [|done].
    destruct (first_error rec); [done|]. by destruct (commit _ _ _ _).
  - by intros ->.
  - intros serialized -> Hw. cbn [fs with_fs VerbosePrintln].
    destruct (WriteFile _ _ _ _) as [t2 ok]. simpl in Hw. by subst ok.
Qed.

Lemma WriteFile_ok E p data t :
  (WriteFile E p data t).2 = true →
  (WriteFile E p data t).1 = modify p (λ _, Some (File data)) t.
Proof.
  unfold WriteFile. destruct (_ && _); [|done].
  by destruct (write_fault E p) as [[|n]|].
Qed.

(** ** The commit, seen from [Bootstrap] *)

(** The result of the commit, in terms of the two calls it makes. *)
Lemma commit_result E home temp w :
  let real := path_Join home (LicenseDirectory E) in
  let removal := RemoveAll E real (fs w) in
  let copy := CopyTree E temp real removal.1 in
  (commit E home temp w).2
  = (if removal.2 is Some true then Some (ErrRemovePathFailed real)
     else if copy.2 then None else Some (ErrCopyTreeFailed temp real))
  ∧ fs (commit E home temp w).1
    = (if removal.2 is Some true then removal.1 else copy.1).
Proof.
  intros real removal copy. subst copy removal real. unfold commit.
  cbn [fs VerbosePrintln].
  destruct (RemoveAll E _ (fs w)) as [t1 [[|]|]]; cbn [fst snd]; try done;
    by destruct (CopyTree E temp _ t1) as [t2 [|]].
Qed.

(** A run in which every value received is [nil] ends as its commit ends,
    followed by the deferred cleanup. *)
Lemma Bootstrap_commit E sched args w tj received home temp :
  joined (Bootstrap E sched args w) = Some (tj, received) →
  (∀ x, x ∈ received → x.2 = None) →
  homedir_Dir E = Some home →
  staging (Bootstrap E sched args w) = Some temp →
  let real := path_Join home (LicenseDirectory E) in
  let removal := RemoveAll E real tj in
  let copy := CopyTree E temp real removal.1 in
  result (Bootstrap E sched args w)
  = Returned (if removal.2 is Some true then Some (ErrRemovePathFailed real)
              else if copy.2 then None else Some (ErrCopyTreeFailed temp real))
  ∧ fs (final (Bootstrap E sched args w))
    = (RemoveAll E temp (if removal.2 is Some true then removal.1 else copy.1)).1.
Proof.
  intros Hj Hnone%first_error_None Hhome Hst.
  destruct (Bootstrap_joined _ _ _ _ _ _ Hj)
    as (home' & temp' & serialized & licenses & wj & Hhome' & Hst' & _ & _
        & _ & _ & _ & Hwj & Hres & Hfin).
  rewrite Hst in Hst'. injection Hst' as <-.
  rewrite Hhome in Hhome'. injection Hhome' as <-.
  rewrite Hnone in Hres, Hfin.
  destruct (commit_result E home temp wj) as [Hc1 Hc2].
  rewrite Hwj in Hc1, Hc2. cbv zeta. by rewrite Hres, Hfin, Hc1, Hc2.
Qed.

(** ** The join *)


(** ** Listing *)

Section listing.
Implicit Types (l ls : list License) (x y : License).

Lemma Less_true_le x y : ByLicenseKey_Less x y = true → key_le x y.
Proof.
  unfold ByLicenseKey_Less, key_le, String.le, String.ltb, String.leb.
  by destruct (String.compare (Key x) (Key y)).
Qed.

Lemma Less_false_le x y : ByLicenseKey_Less x y = false → key_le y x.
Proof.
  unfold ByLicenseKey_Less, key_le, String.le, String.ltb, String.leb.
  rewrite (String.compare_antisym (Key x) (Key y)).
  by destruct (String.compare (Key y) (Key x)).
Qed.

Lemma key_le_trans x y z : key_le x y → key_le y z → key_le x z.
Proof. unfold key_le. apply transitivity. Qed.

Lemma sort_insert_perm x l : sort_insert x l ≡ₚ x :: l.
Proof.
  induction l as [|y l IH]; simpl; [done|].
  destruct (ByLicenseKey_Less x y); [done|]. by rewrite IH, Permutation_swap.
Qed.

Lemma sort_insert_sorted x l :
  StronglySorted key_le l → StronglySorted key_le (sort_insert x l).
Proof.
  induction 1 as [|y l Hl IH Hy]; simpl.
  - by repeat constructor.
  - destruct (ByLicenseKey_Less x y) eqn:Hxy.
    + constructor; [by constructor|]. apply Less_true_le in Hxy.
      constructor; [done|]. eapply Forall_impl; [done|].
      intros z Hz. by eapply key_le_trans.
    + constructor; [done|]. rewrite sort_insert_perm.
      constructor; [|done]. by apply Less_false_le.
Qed.

Lemma sort_fold_perm l acc :
  fold_left (λ acc x, sort_insert x acc) l acc ≡ₚ acc ++ l.
Proof.
  revert acc. induction l as [|x l IH]; intros acc; simpl.
  - by rewrite app_nil_r.
  - rewrite IH, sort_insert_perm. simpl. apply Permutation_middle.
Qed.

Lemma sort_fold_sorted l acc :
  StronglySorted key_le acc →
  StronglySorted key_le (fold_left (λ acc x, sort_insert x acc) l acc).
Proof.
  revert acc. induction l as [|x l IH]; intros acc Hacc; simpl; [done|].
  by apply IH, sort_insert_sorted.
Qed.

Lemma sort_Sort_perm l : sort_Sort l ≡ₚ l.
Proof. unfold sort_Sort. by rewrite sort_fold_perm. Qed.

Lemma sort_Sort_sorted l : StronglySorted key_le (sort_Sort l).
Proof. apply sort_fold_sorted. constructor. Qed.

Lemma sort_Sort_keys l :
  StronglySorted (λ k1 k2, (k1 ≤ k2)%string) (Key <$> sort_Sort l).
Proof.
  induction (sort_Sort_sorted l) as [|x l' Hl IH Hx]; simpl; constructor; [done|].
  by apply Forall_fmap.
Qed.

(** The keys come out in one order, whatever order the licenses came in. *)
Lemma sort_Sort_order l l' : l ≡ₚ l' → Key <$> sort_Sort l = Key <$> sort_Sort l'.
Proof.
  intros Hperm. apply (StronglySorted_unique (λ k1 k2, (k1 ≤ k2)%string)).
  - apply sort_Sort_keys.
  - apply sort_Sort_keys.
  - by rewrite !sort_Sort_perm, Hperm.
Qed.

Lemma read_slice_window (h : gmap nat (list License)) a pre ls post :
  read_slice {| base := a; off := length pre; len := length ls |}
    (<[a := pre ++ ls ++ post]> h) = ls.
Proof.
  unfold read_slice. simpl. rewrite lookup_insert_eq. simpl.
  by rewrite drop_app_length, take_app_length.
Qed.

Lemma write_slice_window (h : gmap nat (list License)) a pre ls new post :
  write_slice {| base := a; off := length pre; len := length ls |} new
    (<[a := pre ++ ls ++ post]> h) = <[a := pre ++ new ++ post]> h.
Proof.
  unfold write_slice. simpl. rewrite lookup_insert_eq, insert_insert_eq.
  rewrite take_app_length, (app_assoc pre ls post).
  by rewrite (drop_app_length' (pre ++ ls) post) by (by rewrite length_app).
Qed.

Lemma printList_window (h : gmap nat (list License)) out a pre ls post :
  printList {| base := a; off := length pre; len := length ls |}
    {| heap := <[a := pre ++ ls ++ post]> h; stdout := out |}
  = {| heap := <[a := pre ++ sort_Sort ls ++ post]> h;
       stdout := out ++ [OutHeader]
                 ++ ((λ x, OutRow (Key x) (Name x)) <$> sort_Sort ls) ++ [OutBlank] |}.
Proof.
  unfold printList. cbn [heap stdout].
  rewrite read_slice_window, write_slice_window.
  rewrite <-(Permutation_length (sort_Sort_perm ls)) at 1.
  by rewrite read_slice_window.
Qed.
End listing.

Lemma list_prints (decoded : list License) (st : Lister) :
  (let '(licenses, st') := new_slice decoded st in printList licenses st')
  = {| heap := <[fresh (dom (heap st)) := sort_Sort decoded]> (heap st);
       stdout := stdout st ++ [OutHeader]
                 ++ ((λ x, OutRow (Key x) (Name x)) <$> sort_Sort decoded)
                 ++ [OutBlank] |}.
Proof.
  unfold new_slice.
  pose proof (printList_window (heap st) (stdout st) (fresh (dom (heap st)))
                [] decoded []) as H.
  rewrite !app_nil_r in H. exact H.
Qed.

(** ** The flags *)

Lemma setLogLevel_logged E args w : logged (setLogLevel E args w).1 = logged w.
Proof.
  unfold setLogLevel. destruct (flagSet_Parse E args) as [res|]; [|done].
  destruct (BadFlags res); [|done]. simpl.
  by destruct (Values res !! "quiet"), (Values res !! "verbose").
Qed.

(** An error of [setLogLevel] comes from the parser or from the first bad
    flag, and nothing has been set by then. *)
Lemma setLogLevel_failed E args w e :
  (setLogLevel E args w).2 = Some e →
  (setLogLevel E args w).1 = w
  ∧ (flagSet_Parse E args = None ∧ e = ErrParsingArguments
     ∨ ∃ res bad rest, flagSet_Parse E args = Some res
         ∧ BadFlags res = bad :: rest ∧ e = ErrBadFlagSyntax bad).
Proof.
  unfold setLogLevel. destruct (flagSet_Parse E args) as [res|] eqn:Hp.
  - destruct (BadFlags res) as [|bad rest] eqn:Hb; [done|]. simpl.
    intros [= <-]. split; [done|]. right. by exists res, bad, rest.
  - simpl. intros [= <-]. split; [done|]. by left.
Qed.

(** ** Outside the path a call is given *)

Lemma reachable_modify_unrelated (p q : path) (f : FS → FS) (t : FS) :
  unrelated p q → reachable q (modify p f t) = reachable q t.
Proof.
  revert q t. induction p as [|c p IH]; intros q t [Hpq Hqp].
  { destruct Hpq. apply prefix_nil. }
  destruct q as [|d q]; [destruct Hqp; apply prefix_nil|].
  simpl. destruct t as [[x|m]|]; simpl; try done.
  destruct (decide (c = d)) as [->|Hne].
  - rewrite lookup_partial_alter_eq. apply IH.
    split; intros H; [apply Hpq|apply Hqp]; by apply prefix_cons.
  - by rewrite lookup_partial_alter_ne.
Qed.

Lemma lookup_below_empty (k : path) : k ≠ [] → lookup_path k (Some (Dir ∅)) = None.
Proof. destruct k as [|c k]; [done|]. intros _. simpl. apply lookup_path_None. Qed.

Lemma WriteFile_outside E p q data t :
  unrelated p q → lookup_path q (WriteFile E p data t).1 = lookup_path q t.
Proof.
  intros Hun. unfold WriteFile. destruct (_ && _); [|done].
  destruct (write_fault E p) as [[|n]|]; simpl; try done;
    by apply lookup_modify_unrelated.
Qed.

Lemma WriteFile_written E p data t :
  (WriteFile E p data t).2 = true →
  lookup_path p (WriteFile E p data t).1 = Some (File data).
Proof.
  unfold WriteFile. destruct (reachable p t) eqn:Hr; simpl; [|done].
  destruct (negb _); simpl; [|done].
  destruct (write_fault E p) as [[|n]|]; simpl; try done.
  intros _. by rewrite lookup_modify.
Qed.

Lemma Mkdir_frame E p q t :
  ¬ q `prefix_of` p → lookup_path q (Mkdir E p t).1 = lookup_path q t.
Proof.
  intros Hq. unfold Mkdir. destruct (lookup_path p t) eqn:Hl; [done|].
  destruct (reachable p t) eqn:Hr; [|done].
  destruct (mkdir_fault E p); [done|]. simpl.
  destruct (decide (p `prefix_of` q)) as [[k ->]|Hp].
  - assert (k ≠ []) as Hk.
    { intros ->. apply Hq. by rewrite app_nil_r. }
    rewrite lookup_under_modify, lookup_path_app, Hl, lookup_path_None by done.
    by apply lookup_below_empty.
  - by apply lookup_modify_unrelated.
Qed.

Lemma MkdirAll_frame E p q t :
  ¬ q `prefix_of` p → lookup_path q (MkdirAll E p t).1 = lookup_path q t.
Proof.
  revert t. induction p as [|c p IH] using rev_ind; intros t Hq.
  - unfold MkdirAll. simpl. by destruct t as [[d|m]|].
  - rewrite MkdirAll_snoc. destruct (lookup_path (p ++ [c]) t) as [[d|m]|]; [done..|].
    assert (¬ q `prefix_of` p) as Hq'.
    { intros H. apply Hq. by apply prefix_app_r. }
    specialize (IH t Hq').
    destruct (MkdirAll E p t) as [t' [|]]; simpl in *; [|done].
    by rewrite Mkdir_frame.
Qed.

Lemma MkdirAll_failed E p t :
  lookup_path p t = None → (MkdirAll E p t).2 = false →
  lookup_path p (MkdirAll E p t).1 = None.
Proof.
  destruct p as [|c p _] using rev_ind.
  - unfold MkdirAll. simpl. by intros ->.
  - intros Hnone. rewrite MkdirAll_snoc, Hnone.
    pose proof (MkdirAll_frame E p (p ++ [c]) t (not_prefix_snoc p c)) as Hframe.
    destruct (MkdirAll E p t) as [t' [|]]; simpl in *; [|by rewrite Hframe].
    unfold Mkdir. rewrite Hframe, Hnone.
    destruct (reachable _ _ && negb _); simpl; [done|]. by rewrite Hframe.
Qed.

Lemma CopyTree_outside E src dst q t :
  unrelated dst q → lookup_path q (CopyTree E src dst t).1 = lookup_path q t.
Proof.
  intros Hun. unfold CopyTree. destruct (lookup_path src t) as [[d|m]|]; [done| |done].
  destruct (lookup_path dst t); [done|].
  pose proof (MkdirAll_frame E dst q t (proj2 Hun)) as Hmk.
  destruct (MkdirAll E dst t) as [t1 [|]]; simpl in *; [|done].
  destruct (copy_fault E src dst); simpl; by rewrite lookup_modify_unrelated.
Qed.

Lemma CopyTree_failed E src dst t :
  lookup_path dst t = None → copy_fault E src dst = None →
  (CopyTree E src dst t).2 = false →
  lookup_path dst (CopyTree E src dst t).1 = None.
Proof.
  intros Hnone Hcopy. unfold CopyTree.
  destruct (lookup_path src t) as [[d|m]|]; [done| |done]. rewrite Hnone, Hcopy.
  pose proof (MkdirAll_failed E dst t Hnone) as Hmk.
  destruct (MkdirAll E dst t) as [t1 [|]]; simpl in *; [done|]. by intros _; apply Hmk.
Qed.

Lemma commit_outside E home temp w q :
  unrelated (path_Join home (LicenseDirectory E)) q →
  lookup_path q (fs (commit E home temp w).1) = lookup_path q (fs w).
Proof.
  intros Hun. destruct (commit_result E home temp w) as [_ ->].
  destruct (RemoveAll E _ (fs w)).2 as [[|]|];
    rewrite ?CopyTree_outside by done; by apply RemoveAll_outside.
Qed.

Lemma commit_errors E home temp w e :
  (commit E home temp w).2 = Some e → commit_error e = true.
Proof.
  destruct (commit_result E home temp w) as [-> _].
  destruct (RemoveAll E _ (fs w)).2 as [[|]|]; [by intros [= <-]|..];
    destruct (CopyTree _ _ _ _).2; by intros [= <-].
Qed.

Lemma commit_logged E home temp w :
  logged (commit E home temp w).1
  = logged w ++ ["created license templates..."]
    ++ (if (commit E home temp w).2 is None then ["bootstrap complete!"] else []).
Proof.
  unfold commit. cbn [fs VerbosePrintln].
  destruct (RemoveAll E _ (fs w)) as [t1 [[|]|]]; cbn [fst snd with_fs logged];
    try done;
    destruct (CopyTree E temp _ t1) as [t2 [|]]; cbn [negb fst snd with_fs logged VerbosePrintln];
    by rewrite <-?app_assoc.
Qed.

Lemma commit_fs_only E home temp w1 w2 :
  fs w1 = fs w2 → logged w1 = logged w2 →
  (commit E home temp w1).2 = (commit E home temp w2).2
  ∧ fs (commit E home temp w1).1 = fs (commit E home temp w2).1
  ∧ logged (commit E home temp w1).1 = logged (commit E home temp w2).1.
Proof.
  intros Hfs Hlog.
  destruct (commit_result E home temp w1) as [Hr1 Hf1].
  destruct (commit_result E home temp w2) as [Hr2 Hf2].
  rewrite !commit_logged, Hr1, Hr2, Hf1, Hf2, Hfs, Hlog. done.
Qed.

(** ** The values the goroutines send *)

Section explained.
Context (E : Env) (rawPath templatesPath : path) (licenses : list License).
Abbreviation explained := (pool_explained E rawPath templatesPath licenses).

Lemma writeLicense_explained l :
  returns_only E (task_explained E rawPath templatesPath l)
    (writeLicense E l rawPath templatesPath).
Proof.
  unfold task_explained. simpl.
  destruct (fetchFullInfo E l) as [content|]; [|done].
  destruct (jsonToLicense E content) as [full|]; [|done]. simpl.
  intros [|]; simpl; [|by eauto]. intros [|]; simpl; by eauto.
Qed.

Lemma explained_step cap s i : explained s → explained (step_goroutine E cap s i).
Proof.
  intros H. unfold step_goroutine.
  destruct (gs s !! i) as [[[r|l' k|q d k]| |]|] eqn:Hi; try done.
  - case_decide; [|done]. intros j l Hl. destruct (H j l Hl) as [Hp Hc].
    split; simpl.
    + intros p Hj. destruct (decide (i = j)) as [<-|Hne].
      * rewrite list_lookup_insert_eq in Hj by (by eapply lookup_lt_Some). done.
      * rewrite list_lookup_insert_ne in Hj by done. eauto.
    + intros r' [Hr'|Hr']%elem_of_app; [by eauto|].
      apply list_elem_of_singleton in Hr'. injection Hr' as <- <-.
      by apply (Hp _ Hi).
  - intros j l Hl. destruct (H j l Hl) as [Hp Hc]. split; simpl; [|done].
    intros p Hj. destruct (decide (i = j)) as [<-|Hne].
    + rewrite list_lookup_insert_eq in Hj by (by eapply lookup_lt_Some).
      simplify_eq. by apply (Hp _ Hi).
    + rewrite list_lookup_insert_ne in Hj by done. eauto.
  - destruct (WriteFile E q d (pfs s)) as [t' ok].
    intros j l Hl. destruct (H j l Hl) as [Hp Hc]. split; simpl; [|done].
    intros p Hj. destruct (decide (i = j)) as [<-|Hne].
    + rewrite list_lookup_insert_eq in Hj by (by eapply lookup_lt_Some).
      simplify_eq. by apply (Hp _ Hi).
    + rewrite list_lookup_insert_ne in Hj by done. eauto.
  - intros j l Hl. destruct (H j l Hl) as [Hp Hc]. split; simpl; [|done].
    intros p Hj. destruct (decide (i = j)) as [<-|Hne].
    + rewrite list_lookup_insert_eq in Hj by (by eapply lookup_lt_Some). done.
    + rewrite list_lookup_insert_ne in Hj by done. eauto.
Qed.

(** Whatever the schedule, each value received comes from the goroutine of
    one license and is explained by that license. *)
Lemma fan_out_explained sched t t' received :
  fan_out E sched licenses rawPath templatesPath t = Some (t', received) →
  ∀ i r, (i, r) ∈ received →
    ∃ l, licenses !! i = Some l ∧ task_explained E rawPath templatesPath l r.
Proof.
  intros Hfan i r Hr.
  destruct (fan_out_joins E sched licenses rawPath templatesPath t)
    as (t'' & rec & Hfan' & Hperm).
  rewrite Hfan in Hfan'. injection Hfan' as <- <-.
  assert (i < length licenses) as Hi.
  { apply (list_elem_of_fmap_2 fst) in Hr. rewrite Hperm in Hr.
    apply elem_of_seq in Hr. simpl in Hr. lia. }
  apply lookup_lt_is_Some_2 in Hi as [l Hl]. exists l. split; [done|].
  revert Hfan. unfold fan_out. case_decide; [|done]. intros [= _ Hch].
  assert (explained (finish_all E (length licenses)
            (run_schedule E (length licenses) sched
               (launch E licenses rawPath templatesPath t)))) as Hex.
  { apply finish_all_inv; [intros; by apply explained_step|].
    apply run_schedule_inv; [intros; by apply explained_step|].
    intros j lj Hj. split; simpl; [|by intros ? ?%elem_of_nil].
    intros p. rewrite list_lookup_fmap, Hj. intros [= <-].
    apply writeLicense_explained. }
  apply (Hex i l Hl). by rewrite Hch.
Qed.

Lemma explained_not_commit_error l e :
  task_explained E rawPath templatesPath l (Some e) → commit_error e = false.
Proof.
  unfold task_explained. destruct (fetchFullInfo E l) as [content|]; [|by intros [= ->]].
  destruct (jsonToLicense E content); [|by intros [= ->]].
  by intros [|[[= ->]|[= ->]]].
Qed.
End explained.


Lemma first_error_split received e :
  first_error received = Some e →
  ∃ pre i post, received = pre ++ (i, Some e) :: post ∧ Forall (λ x, x.2 = None) pre.
Proof.
  induction received as [|[i [e'|]] rest IH]; simpl; [done| |].
  - intros [= ->]. by exists [], i, rest.
  - intros (pre & j & post & -> & Hpre)%IH.
    exists ((i, None) :: pre), j, post. split; [done|]. by constructor.
Qed.

(** ** One goroutine run first *)

Section solo.
Context (E : Env) (cap : nat).

Lemma run_replicate k i s :
  run_schedule E cap (replicate k i) s
  = Nat.iter k (λ s', step_goroutine E cap s' i) s.
Proof.
  unfold run_schedule. revert s. induction k as [|k IH]; intros s; [done|].
  rewrite Nat.iter_succ_r. simpl. apply IH.
Qed.

Lemma solo_sends_first (p : prog (option Error)) s i :
  gs s !! i = Some (GRun p) → ch s = [] → 0 < cap →
  ch (run_schedule E cap (replicate (S (prog_steps E p (pfs s))) i) s)
  = [(i, (exec E p (pfs s)).2)].
Proof.
  intros Hi Hch Hcap. rewrite run_replicate, Nat.iter_succ.
  destruct (iter_exec E cap p s i Hi) as (Hg & _ & Hch').
  unfold step_goroutine at 1. rewrite Hg. rewrite Hch', Hch. simpl.
  case_decide; [done|lia].
Qed.

Lemma ch_head_step x s i :
  (∃ rest, ch s = x :: rest) → ∃ rest, ch (step_goroutine E cap s i) = x :: rest.
Proof.
  intros [rest Hch]. unfold step_goroutine.
  destruct (gs s !! i) as [[[r|l k|q d k]| |]|]; simpl; try by eauto.
  - case_decide; simpl; [|by eauto]. rewrite Hch. by eauto.
  - destruct (WriteFile E q d (pfs s)). simpl. by eauto.
Qed.
End solo.

Lemma fan_out_solo_first E licenses rawPath templatesPath t i l :
  licenses !! i = Some l →
  ∃ t' rest,
    fan_out E (replicate (S (prog_steps E (writeLicense E l rawPath templatesPath) t)) i)
      licenses rawPath templatesPath t
    = Some (t', (i, (exec E (writeLicense E l rawPath templatesPath) t).2) :: rest).
Proof.
  intros Hl.
  set (sched := replicate (S (prog_steps E (writeLicense E l rawPath templatesPath) t)) i).
  set (x := (i, (exec E (writeLicense E l rawPath templatesPath) t).2)).
  set (s0 := launch E licenses rawPath templatesPath t).
  assert (∃ rest, ch (finish_all E (length licenses)
                        (run_schedule E (length licenses) sched s0)) = x :: rest)
    as [rest Hrest].
  { apply (finish_all_inv E _ (λ s, ∃ rest, ch s = x :: rest));
      [intros; by apply ch_head_step|].
    exists []. apply (solo_sends_first E (length licenses) _ s0 i).
    - unfold s0, launch. simpl. by rewrite list_lookup_fmap, Hl.
    - done.
    - apply lookup_lt_Some in Hl. lia. }
  destruct (fan_out_joins E sched licenses rawPath templatesPath t)
    as (t' & rec & Hfan & _).
  exists t', rest. rewrite Hfan. unfold fan_out in Hfan. cbv zeta in Hfan.
  fold s0 in Hfan. case_decide; [|done]. congruence.
Qed.

Lemma sum_live_le (l : list goroutine) : (sum_list (live <$> l) ≤ length l)%nat.
Proof.
  induction l as [|g l IH]; [done|].
  rewrite fmap_cons. cbn [sum_list_with length]. destruct g; cbn [live id]; lia.
Qed.

(** ** Tasks do not disturb one another *)

Section settled.
Context (E : Env) (temp : path) (t0 : FS) (index : bytes) (licenses : list License).
Hypothesis Hreach : reachable temp t0 = true.
Hypothesis Hnodup : NoDup (Key <$> licenses).
Hypothesis Hplain : Forall (λ l, plain_name (Key l)) licenses.
Abbreviation rawPath := (temp ++ ["data"; "raw"]).
Abbreviation templatesPath := (temp ++ ["data"; "templates"]).
Abbreviation shape := (pool_shape E temp t0 index licenses).
Abbreviation settled := (pool_settled E rawPath templatesPath licenses).

(** In the staging area a write of a task fails only when the environment
    faults it: the directory is there and no directory is in the way. *)
Lemma settled_write R T s i l q d k :
  shape R T s → licenses !! i = Some l →
  gs s !! i = Some (GRun (WriteOp q d k)) →
  (WriteFile E q d (pfs s)).2 = bool_decide (write_fault E q = None).
Proof using Hreach Hplain.
  intros [Hfs Hlen Hraw Htmpl Htasks] Hl Hi.
  pose proof (list_elem_of_lookup_2 _ _ _ Hl) as Hin.
  destruct (Htasks i l Hl) as (g & Hg & Hs). rewrite Hi in Hg. injection Hg as <-.
  inversion Hs; try done.
  - rewrite (raw_file_path temp licenses Hplain l Hin), Hfs.
    rewrite WriteFile_with_staging, reachable_staging_raw, lookup_staging_raw by done.
    rewrite (only_files_not_dir licenses raw_name) by done. cbn [andb negb].
    by destruct (write_fault E _) as [[|n]|].
  - rewrite (template_file_path temp licenses Hplain l Hin), Hfs.
    rewrite WriteFile_with_staging, reachable_staging_templates,
      lookup_staging_templates by done.
    rewrite (only_files_not_dir licenses template_name) by done. cbn [andb negb].
    by destruct (write_fault E _) as [[|n]|].
Qed.

Lemma settled_step s i :
  (∃ R T, shape R T s) → settled s → settled (step_goroutine E (length licenses) s i).
Proof using Hreach Hplain.
  intros (R & T & Hshape) H. unfold step_goroutine.
  destruct (gs s !! i) as [[[r|l' k|q d k]| |]|] eqn:Hi; try done.
  - case_decide; [|done]. intros j l Hl. destruct (H j l Hl) as [Hp Hc].
    split; cbn [gs ch].
    + intros p Hj. destruct (decide (i = j)) as [<-|Hne].
      * rewrite list_lookup_insert_eq in Hj by (by eapply lookup_lt_Some). done.
      * rewrite list_lookup_insert_ne in Hj by done. eauto.
    + intros r' [Hr'|Hr']%elem_of_app; [by eauto|].
      apply list_elem_of_singleton in Hr'. injection Hr' as <- <-.
      by apply (Hp _ Hi).
  - intros j l Hl. destruct (H j l Hl) as [Hp Hc]. split; cbn [gs ch]; [|done].
    intros p Hj. destruct (decide (i = j)) as [<-|Hne].
    + rewrite list_lookup_insert_eq in Hj by (by eapply lookup_lt_Some).
      simplify_eq. by apply (Hp _ Hi).
    + rewrite list_lookup_insert_ne in Hj by done. eauto.
  - destruct (WriteFile E q d (pfs s)) as [t' ok] eqn:Hw.
    intros j l Hl. destruct (H j l Hl) as [Hp Hc]. split; cbn [gs ch]; [|done].
    intros p Hj. destruct (decide (i = j)) as [<-|Hne].
    + rewrite list_lookup_insert_eq in Hj by (by eapply lookup_lt_Some).
      simplify_eq. rewrite <-(Hp _ Hi). cbn [prog_outcome].
      pose proof (settled_write R T s i l q d k Hshape Hl Hi) as Hok.
      rewrite Hw in Hok. simpl in Hok. by rewrite Hok.
    + rewrite list_lookup_insert_ne in Hj by done. eauto.
  - intros j l Hl. destruct (H j l Hl) as [Hp Hc]. split; cbn [gs ch]; [|done].
    intros p Hj. destruct (decide (i = j)) as [<-|Hne].
    + rewrite list_lookup_insert_eq in Hj by (by eapply lookup_lt_Some). done.
    + rewrite list_lookup_insert_ne in Hj by done. eauto.
Qed.

(** Whatever the schedule, the values received are the values the tasks were
    heading for from the start. *)
Lemma fan_out_settled sched t' received :
  fan_out E sched licenses rawPath templatesPath
    (with_staging temp (staging_tree (Some index) ∅ ∅) t0) = Some (t', received) →
  ∀ i r l, (i, r) ∈ received → licenses !! i = Some l →
    r = prog_outcome E (writeLicense E l rawPath templatesPath).
Proof using Hreach Hnodup Hplain.
  unfold fan_out. set (n := length licenses).
  set (s0 := launch _ _ _ _ _).
  case_decide; [|done]. intros [= _ Hch] i r l Hr Hl.
  assert ((∃ R T, shape R T (finish_all E n (run_schedule E n sched s0)))
          ∧ settled (finish_all E n (run_schedule E n sched s0))) as [_ Hs].
  { apply (finish_all_inv E n (λ s, (∃ R T, shape R T s) ∧ settled s)).
    { intros s j [Hsh Hse]. split; [by apply shape_step|by apply settled_step]. }
    apply (run_schedule_inv E n (λ s, (∃ R T, shape R T s) ∧ settled s)).
    { intros s j [Hsh Hse]. split; [by apply shape_step|by apply settled_step]. }
    split.
    - exists ∅, ∅. split; simpl; [done|by rewrite length_fmap|done..|].
      intros j lj Hj. eexists. rewrite list_lookup_fmap, Hj. split; [done|]. constructor.
    - intros j lj Hj. split; simpl; [|by intros ? ?%elem_of_nil].
      intros p. rewrite list_lookup_fmap, Hj. by intros [= <-]. }
  apply (Hs i l Hl). by rewrite Hch.
Qed.

(** That value is the one [writeLicense] returns when it is run alone in the
    fresh staging area. *)
Lemma solo_outcome i l :
  licenses !! i = Some l →
  (exec E (writeLicense E l rawPath templatesPath)
     (with_staging temp (staging_tree (Some index) ∅ ∅) t0)).2
  = prog_outcome E (writeLicense E l rawPath templatesPath).
Proof using Hreach Hnodup Hplain.
  intros Hl.
  destruct (fan_out_solo_first E licenses rawPath templatesPath
              (with_staging temp (staging_tree (Some index) ∅ ∅) t0) i l Hl)
    as (t' & rest & Hfan).
  eapply fan_out_settled; [done| |done]. by left.
Qed.
End settled.

(** ** Every exit of [Bootstrap] *)

Lemma make_paths_error E ps t t' e :
  make_paths E ps t = (t', Some e) → ∃ p, p ∈ ps ∧ e = ErrCreateDirFailed p.
Proof.
  revert t. induction ps as [|p ps IH]; intros t; simpl; [done|].
  destruct (MkdirAll E p t) as [t1 [|]].
  - intros (p' & Hp' & ->)%IH. exists p'. split; [by right|done].
  - intros [= _ <-]. exists p. split; [by left|done].
Qed.

Lemma Bootstrap_staged_staging E sched home temp w :
  staging (Bootstrap_staged E sched home temp w) = Some temp.
Proof.
  unfold Bootstrap_staged.
  destruct (make_paths _ _ _) as [t1 [e|]]; [done|].
  destruct (fetchIndex E) as [serialized|]; [|done].
  destruct (WriteFile _ _ _ _) as [t2 [|]]; [|done]. cbn [negb].
  destruct (jsonToList E serialized) as [licenses|]; [|done].
  destruct (fan_out _ _ _ _ _ _) as [[t3 rec]|]; [|done].
  destruct (first_error rec); [done|]. by destruct (commit _ _ _ _).
Qed.

Lemma Bootstrap_staged_returns E sched home temp w :
  result (Bootstrap_staged E sched home temp w) ≠ Blocked.
Proof.
  unfold Bootstrap_staged.
  destruct (make_paths _ _ _) as [t1 [e|]]; [done|].
  destruct (fetchIndex E) as [serialized|]; [|done].
  destruct (WriteFile _ _ _ _) as [t2 [|]]; [|done]. cbn [negb].
  destruct (jsonToList E serialized) as [licenses|]; [|done].
  match goal with
  | |- context [fan_out ?E ?s ?l ?r ?tp ?t] =>
      destruct (fan_out_joins E s l r tp t) as (t' & rec & -> & _)
  end.
  destruct (first_error rec); [done|]. by destruct (commit _ _ _ _).
Qed.

Lemma deferred_cleanup_obs E temp r :
  result (deferred_cleanup E temp r) = result r
  ∧ staging (deferred_cleanup E temp r) = staging r
  ∧ at_fetch (deferred_cleanup E temp r) = at_fetch r
  ∧ joined (deferred_cleanup E temp r) = joined r
  ∧ logged (final (deferred_cleanup E temp r)) = logged (final r).
Proof. unfold deferred_cleanup. destruct (result r) eqn:Hr; by split_and!. Qed.

Lemma deferred_cleanup_fs E temp r :
  fs (final (deferred_cleanup E temp r))
  = match result r with
    | Returned _ => (RemoveAll E temp (fs (final r))).1
    | Blocked => fs (final r)
    end.
Proof. unfold deferred_cleanup. by destruct (result r). Qed.

(** A run is over before the staging root is made, or it is what
    [Bootstrap_staged] does from the new staging root on, followed by the
    deferred call. *)
Lemma Bootstrap_split E sched args w :
  (staging (Bootstrap E sched args w) = None
   ∧ at_fetch (Bootstrap E sched args w) = None
   ∧ joined (Bootstrap E sched args w) = None
   ∧ fs (final (Bootstrap E sched args w)) = fs w
   ∧ logged (final (Bootstrap E sched args w)) = logged w
   ∧ ((∃ e, (setLogLevel E args w).2 = Some e
            ∧ result (Bootstrap E sched args w) = Returned (Some e)
            ∧ final (Bootstrap E sched args w) = w)
      ∨ ((setLogLevel E args w).2 = None ∧ homedir_Dir E = None
         ∧ result (Bootstrap E sched args w) = Returned (Some ErrCannotLocateHomeDir))
      ∨ ((setLogLevel E args w).2 = None ∧ is_Some (homedir_Dir E)
         ∧ (TempDir E (fs w)).2 = None
         ∧ result (Bootstrap E sched args w)
           = Returned (Some (ErrCreateTempDirFailed [])))))
  ∨ ∃ home temp w0,
      (setLogLevel E args w).2 = None
      ∧ homedir_Dir E = Some home
      ∧ reachable temp (fs w) = true ∧ lookup_path temp (fs w) = None
      ∧ TempDir_name E = Some temp
      ∧ fs w0 = with_staging temp (Some (Dir ∅)) (fs w)
      ∧ logged w0 = logged w
      ∧ Bootstrap E sched args w
        = deferred_cleanup E temp (Bootstrap_staged E sched home temp w0).
Proof.
  unfold Bootstrap. pose proof (setLogLevel_fs E args w) as Hfs.
  pose proof (setLogLevel_logged E args w) as Hlog.
  pose proof (setLogLevel_failed E args w) as Herr.
  destruct (setLogLevel E args w) as [w1 [err|]]; simpl in *.
  { left. destruct (Herr err eq_refl) as [-> _]. split_and!; try done.
    left. by exists err. }
  destruct (homedir_Dir E) as [home|] eqn:Hhome; last first.
  { left. split_and!; try done. right. left. done. }
  rewrite Hfs.
  destruct (TempDir E (fs w)) as [ta [temp|]] eqn:Htemp; last first.
  { left. split_and!; try done. right. right. split_and!; by eauto. }
  right. apply TempDir_Some in Htemp as (-> & Hreach & Hfresh & Hname).
  exists home, temp, (with_fs (with_staging temp (Some (Dir ∅)) (fs w)) w1).
  by split_and!.
Qed.

Lemma Bootstrap_staged_cases E sched home temp w0 t0 :
  reachable temp t0 = true → fs w0 = with_staging temp (Some (Dir ∅)) t0 →
  index_keys_plain E →
  ∃ X, is_dir X = true ∧
    ((∃ e, result (Bootstrap_staged E sched home temp w0) = Returned (Some e)
           ∧ commit_error e = false
           ∧ fs (final (Bootstrap_staged E sched home temp w0)) = with_staging temp X t0)
     ∨ (∃ wj, fs wj = with_staging temp X t0
           ∧ result (Bootstrap_staged E sched home temp w0)
             = Returned (commit E home temp wj).2
           ∧ final (Bootstrap_staged E sched home temp w0) = (commit E home temp wj).1)).
Proof.
  intros Hreach Hfs Hplain. unfold Bootstrap_staged.
  destruct (staging_paths temp) as (_ & -> & -> & ->). rewrite Hfs.
  destruct (make_paths _ _ _) as [t1 err] eqn:Hmp. destruct err as [e|].
  { pose proof Hmp as (p & _ & ->)%make_paths_error.
    apply (make_paths_confined E temp _ Hreach) in Hmp as (X & -> & HX).
    exists X. split; [done|]. left. by eexists. }
  apply (make_paths_ok E temp _ Hreach) in Hmp as ->.
  destruct (fetchIndex E) as [serialized|] eqn:Hidx; last first.
  { exists (staging_tree None ∅ ∅). split; [done|]. left. by eexists. }
  cbn [fs with_fs VerbosePrintln].
  destruct (WriteFile_confined E temp t0 Hreach ["data"; "index.json"]
              serialized (staging_tree None ∅ ∅) eq_refl) as (X' & ok & Hw & HX').
  rewrite Hw. destruct ok; cbn [negb fs with_fs]; last first.
  { exists X'. split; [done|]. left. by eexists. }
  destruct (jsonToList E serialized) as [licenses|] eqn:Hlist; last first.
  { exists X'. split; [done|]. left. by eexists. }
  destruct (fan_out_joins E sched licenses (temp ++ ["data"; "raw"])
              (temp ++ ["data"; "templates"]) (with_staging temp X' t0))
    as (t' & rec & Hfan & Hperm).
  rewrite Hfan.
  pose proof (fan_out_explained _ _ _ _ _ _ _ _ Hfan) as Hex.
  apply (fan_out_confined E temp t0 Hreach) in Hfan as (X'' & -> & HX'');
    [|by eapply Hplain|done].
  exists X''. split; [done|].
  destruct (first_error rec) as [e|] eqn:Hfirst.
  - left. exists e. split_and!; [done| |done].
    apply first_error_Some in Hfirst as [i Hi].
    destruct (Hex _ _ Hi) as (l & _ & Hl). by eapply explained_not_commit_error.
  - right.
    match goal with |- context [commit E home temp ?wj] => exists wj end.
    split; [done|]. by destruct (commit _ _ _ _).
Qed.

(** Every run, in terms of what it leaves on disk. *)
Lemma Bootstrap_cases E sched args w :
  index_keys_plain E →
  (staging (Bootstrap E sched args w) = None
   ∧ fs (final (Bootstrap E sched args w)) = fs w
   ∧ ∃ e, result (Bootstrap E sched args w) = Returned (Some e))
  ∨ ∃ home temp X,
      homedir_Dir E = Some home
      ∧ staging (Bootstrap E sched args w) = Some temp
      ∧ reachable temp (fs w) = true ∧ lookup_path temp (fs w) = None
      ∧ is_dir X = true
      ∧ ((∃ e, result (Bootstrap E sched args w) = Returned (Some e)
               ∧ commit_error e = false
               ∧ fs (final (Bootstrap E sched args w))
                 = (RemoveAll E temp (with_staging temp X (fs w))).1)
         ∨ (∃ wj, fs wj = with_staging temp X (fs w)
               ∧ result (Bootstrap E sched args w) = Returned (commit E home temp wj).2
               ∧ fs (final (Bootstrap E sched args w))
                 = (RemoveAll E temp (fs (commit E home temp wj).1)).1)).
Proof.
  intros Hplain.
  destruct (Bootstrap_split E sched args w)
    as [(Hst & _ & _ & Hfs & _ & Hres)
       |(home & temp & w0 & _ & Hhome & Hreach & Hfresh & _ & Hfs & _ & ->)].
  { left. split_and!; [done..|].
    destruct Hres as [(e & _ & ? & _)|[(_ & _ & ?)|(_ & _ & _ & ?)]]; by eauto. }
  right. exists home, temp.
  destruct (Bootstrap_staged_cases E sched home temp w0 (fs w) Hreach Hfs Hplain)
    as (X & HX & Hcases).
  exists X. unfold deferred_cleanup.
  pose proof (Bootstrap_staged_staging E sched home temp w0) as Hst.
  destruct Hcases as [(e & Hres & He & Hfin)|(wj & Hwj & Hres & Hfin)];
    rewrite Hres; cbn [result final staging fs with_fs]; split_and!; try done.
  - left. exists e. by rewrite Hfin.
  - right. exists wj. by rewrite Hfin.
Qed.

Lemma Bootstrap_staged_commit_error E sched home temp w0 e :
  result (Bootstrap_staged E sched home temp w0) = Returned (Some e) →
  commit_error e = true →
  ∃ tj received,
    joined (Bootstrap_staged E sched home temp w0) = Some (tj, received)
    ∧ first_error received = None.
Proof.
  unfold Bootstrap_staged.
  destruct (make_paths _ _ _) as [t1 [e'|]] eqn:Hmp.
  { apply make_paths_error in Hmp as (p & _ & ->). by intros [= <-]. }
  destruct (fetchIndex E) as [serialized|]; [|by intros [= <-]].
  destruct (WriteFile _ _ _ _) as [t2 [|]]; cbn [negb]; [|by intros [= <-]].
  destruct (jsonToList E serialized) as [licenses|]; [|by intros [= <-]].
  destruct (fan_out _ _ _ _ _ _) as [[t3 rec]|] eqn:Hfan; [|done].
  destruct (first_error rec) as [e'|] eqn:Hfirst.
  - simpl. intros [= ->] He.
    apply first_error_Some in Hfirst as [i Hi].
    destruct (fan_out_explained _ _ _ _ _ _ _ _ Hfan _ _ Hi) as (l & _ & Hl).
    apply explained_not_commit_error in Hl. congruence.
  - destruct (commit _ _ _ _). simpl. by eauto.
Qed.

Lemma Bootstrap_commit_error E sched args w e :
  result (Bootstrap E sched args w) = Returned (Some e) →
  commit_error e = true →
  ∃ tj received,
    joined (Bootstrap E sched args w) = Some (tj, received)
    ∧ first_error received = None.
Proof.
  intros Hres He.
  destruct (Bootstrap_split E sched args w)
    as [(_ & _ & _ & _ & _ & Hcases)
       |(home & temp & w0 & _ & _ & _ & _ & _ & _ & _ & Hrun)].
  - destruct Hcases as [(e' & Hset & Hres' & _)|[(_ & _ & Hres')|(_ & _ & _ & Hres')]];
      rewrite Hres in Hres'; injection Hres' as ->; [|done..].
    destruct (setLogLevel_failed E args w e' Hset)
      as [_ [[_ ->]|(? & ? & ? & _ & _ & ->)]]; done.
  - rewrite Hrun in Hres |- *.
    destruct (deferred_cleanup_obs E temp (Bootstrap_staged E sched home temp w0))
      as (Hr & _ & _ & -> & _).
    rewrite Hr in Hres. by eapply Bootstrap_staged_commit_error.
Qed.


Lemma Bootstrap_staged_joined_any E s1 s2 home temp w0 x :
  joined (Bootstrap_staged E s1 home temp w0) = Some x →
  is_Some (joined (Bootstrap_staged E s2 home temp w0)).
Proof.
  unfold Bootstrap_staged.
  destruct (make_paths _ _ _) as [t1 [e|]]; [done|].
  destruct (fetchIndex E) as [serialized|]; [|done].
  destruct (WriteFile _ _ _ _) as [t2 [|]]; [|done]. cbn [negb].
  destruct (jsonToList E serialized) as [licenses|]; [|done]. intros _.
  match goal with
  | |- context [fan_out ?E s2 ?l ?r ?tp ?t] =>
      destruct (fan_out_joins E s2 l r tp t) as (t' & rec & -> & _)
  end.
  destruct (first_error rec); [by eauto|]. destruct (commit _ _ _ _). by eauto.
Qed.

Lemma Bootstrap_joined_any E s1 s2 args w x :
  joined (Bootstrap E s1 args w) = Some x →
  is_Some (joined (Bootstrap E s2 args w))
  ∧ staging (Bootstrap E s2 args w) = staging (Bootstrap E s1 args w).
Proof.
  unfold Bootstrap.
  destruct (setLogLevel E args w) as [w1 [err|]]; [done|].
  destruct (homedir_Dir E) as [home|]; [|done].
  destruct (TempDir E (fs w1)) as [ta [temp|]]; [|done].
  destruct (deferred_cleanup_obs E temp (Bootstrap_staged E s1 home temp (with_fs ta w1)))
    as (_ & -> & _ & -> & _).
  destruct (deferred_cleanup_obs E temp (Bootstrap_staged E s2 home temp (with_fs ta w1)))
    as (_ & -> & _ & -> & _).
  rewrite !Bootstrap_staged_staging. intros Hj. split; [|done].
  by eapply Bootstrap_staged_joined_any.
Qed.

(** ** The progress messages *)

Local Ltac log_iff :=
  split; intros H;
  first [ lia | done | discriminate | by eauto
        | by destruct H as [[? [=]] _]
        | by destruct H as [_ [? [=]]]
        | by destruct H as (? & ? & [=] & _)
        | destruct H as (? & ? & [= <- <-] & ?); congruence ].

Local Ltac log_branch k :=
  exists k; cbn; rewrite <-?app_assoc, ?app_nil_r;
  split_and!; [lia|done|log_iff..].

Lemma Bootstrap_staged_log E sched home temp w0 :
  ∃ k : nat, (k ≤ 4)%nat
    ∧ logged (final (Bootstrap_staged E sched home temp w0))
      = logged w0 ++ take k progress_messages
    ∧ (result (Bootstrap_staged E sched home temp w0) = Returned None ↔ k = 4)
    ∧ ((1 ≤ k)%nat ↔ is_Some (at_fetch (Bootstrap_staged E sched home temp w0))
               ∧ is_Some (fetchIndex E))
    ∧ ((3 ≤ k)%nat ↔ ∃ tj received,
                 joined (Bootstrap_staged E sched home temp w0) = Some (tj, received)
                 ∧ first_error received = None).
Proof.
  unfold Bootstrap_staged.
  destruct (make_paths _ _ _) as [t1 [e|]]; [log_branch 0|].
  destruct (fetchIndex E) as [serialized|] eqn:Hidx; [|log_branch 0].
  destruct (WriteFile _ _ _ _) as [t2 [|]]; cbn [negb]; [|log_branch 1].
  destruct (jsonToList E serialized) as [licenses|]; [|log_branch 2].
  destruct (fan_out _ _ _ _ _ _) as [[t3 rec]|]; [|log_branch 2].
  destruct (first_error rec) as [e|] eqn:Hfirst; [log_branch 2|].
  match goal with
  | |- context [commit E home temp ?wj] =>
      pose proof (commit_logged E home temp wj) as Hlog;
      destruct (commit E home temp wj) as [w' r]
  end.
  cbn [fst snd result final at_fetch joined] in *. rewrite Hlog.
  destruct r as [e|]; [log_branch 3|log_branch 4].
Qed.

Lemma Bootstrap_staged_fs_only E sched home temp w1 w2 :
  fs w1 = fs w2 → logged w1 = logged w2 →
  result (Bootstrap_staged E sched home temp w1)
  = result (Bootstrap_staged E sched home temp w2)
  ∧ fs (final (Bootstrap_staged E sched home temp w1))
    = fs (final (Bootstrap_staged E sched home temp w2))
  ∧ logged (final (Bootstrap_staged E sched home temp w1))
    = logged (final (Bootstrap_staged E sched home temp w2))
  ∧ at_fetch (Bootstrap_staged E sched home temp w1)
    = at_fetch (Bootstrap_staged E sched home temp w2)
  ∧ joined (Bootstrap_staged E sched home temp w1)
    = joined (Bootstrap_staged E sched home temp w2).
Proof.
  intros Hfs Hlog. unfold Bootstrap_staged. rewrite Hfs.
  destruct (make_paths _ _ _) as [t1 [e|]]; [by cbn; rewrite Hlog|].
  destruct (fetchIndex E) as [serialized|]; [|by cbn; rewrite Hlog].
  cbn [fs with_fs VerbosePrintln].
  destruct (WriteFile _ _ _ _) as [t2 [|]]; cbn [negb]; [|by cbn; rewrite Hlog].
  destruct (jsonToList E serialized) as [licenses|]; [|by cbn; rewrite Hlog].
  destruct (fan_out _ _ _ _ _ _) as [[t3 rec]|]; [|by cbn; rewrite Hlog].
  destruct (first_error rec) as [e|]; [by cbn; rewrite Hlog|].
  match goal with
  | |- context [(let '(_, _) := commit E home temp ?wa in _)] =>
      match goal with
      | |- context [_ = result (let '(_, _) := commit E home temp ?wb in _)] =>
          destruct (commit_fs_only E home temp wa wb) as (Hr & Hf & Hl);
            [done|by cbn; rewrite Hlog|];
          destruct (commit E home temp wa) as [wa' ra];
          destruct (commit E home temp wb) as [wb' rb]
      end
  end.
  simpl in *. by subst.
Qed.

(** ** Sorted lists with distinct keys *)

Lemma sort_Sort_unique ls ls' :
  ls ≡ₚ ls' → NoDup (Key <$> ls) → sort_Sort ls = sort_Sort ls'.
Proof.
  intros Hperm Hnd. apply (StronglySorted_unique_strong key_le).
  - intros x1 x2 Hx1 Hx2 H12 H21.
    rewrite sort_Sort_perm in Hx1. rewrite sort_Sort_perm, <-Hperm in Hx2.
    assert (Key x1 = Key x2) as Hk by by apply (anti_symm String.le).
    apply list_elem_of_lookup_1 in Hx1 as [i Hi], Hx2 as [j Hj].
    assert (i = j) as ->.
    { apply (NoDup_lookup _ i j (Key x1) Hnd); rewrite list_lookup_fmap.
      - by rewrite Hi.
      - by rewrite Hj, Hk. }
    congruence.
  - apply sort_Sort_sorted.
  - apply sort_Sort_sorted.
  - by rewrite !sort_Sort_perm.
Qed.

(** * The claims *)




(** C2, a run against the claim as stated: all three materializations
    succeed, yet [Bootstrap] returns [RemovePathFailed], because the old
    cache cannot be removed (permission denied); the real cache still holds
    what it held. *)
Lemma C2_counterexample :
  ¬ C2_as_stated
      (demo_env demo_index demo_detail no_write_fault
         (remove_denied ["home"; "u"; ".license"]))
      [] [] demo_world.
Proof.
  intros H.
  set (E := demo_env demo_index demo_detail no_write_fault
              (remove_denied ["home"; "u"; ".license"])) in *.
  destruct (H (default (None, []) (joined (Bootstrap E [] [] demo_world))).1
              [(0, None); (1, None); (2, None)] ["home"; "u"]) as [Hres _].
  - vm_compute. reflexivity.
  - intros x Hx. repeat (apply elem_of_cons in Hx as [->|Hx]; [reflexivity|]).
    by apply elem_of_nil in Hx.
  - reflexivity.
  - assert (result (Bootstrap E [] [] demo_world)
            = Returned (Some (ErrRemovePathFailed ["home"; "u"; ".license"])))
      as Hdenied by (vm_compute; reflexivity).
    rewrite Hdenied in Hres. discriminate Hres.
Qed.

(** C2 (as amended). A run of [Bootstrap] over an index of N licenses, with
    pairwise distinct keys that are plain names, in which all N
    materializations succeed and nothing stands in the way of the commit:
    it returns [nil], N values were received, and the real cache is exactly
    [data] with the index file as fetched, a [raw] directory of N files and
    a [templates] directory of N files, one [<key>.json] and one
    [<key>.tmpl] per license, whatever the real cache held before. *)
Theorem C2_all_success_commit E sched args w tj received home temp :
  joined (Bootstrap E sched args w) = Some (tj, received) →
  (∀ x, x ∈ received → x.2 = None) →
  index_keys_plain E → index_keys_distinct E →
  homedir_Dir E = Some home →
  staging (Bootstrap E sched args w) = Some temp →
  unrelated temp (path_Join home (LicenseDirectory E)) →
  commit_unhindered E home temp (fs w) →
  result (Bootstrap E sched args w) = Returned None
  ∧ ∃ serialized licenses R T,
      fetchIndex E = Some serialized ∧ jsonToList E serialized = Some licenses
      ∧ length received = length licenses
      ∧ lookup_path (path_Join home (LicenseDirectory E))
          (fs (final (Bootstrap E sched args w)))
        = Some (Dir {["data" :=
            Dir (<["raw" := Dir R]> (<["templates" := Dir T]>
                   {["index.json" := File serialized]}))]})
      ∧ size R = length licenses ∧ size T = length licenses
      ∧ cache_files E licenses R T.
Proof.
  intros Hj Hnone%first_error_None Hplain Hdistinct Hhome Hst Hun Hcommit.
  destruct (Bootstrap_joined _ _ _ _ _ _ Hj)
    as (home' & temp' & serialized & licenses & wj & Hhome' & Hst' & Hreach & Hfresh
        & Hidx & Hlist & Hfan & Hwj & Hres & Hfin).
  rewrite Hst in Hst'. injection Hst' as <-.
  rewrite Hhome in Hhome'. injection Hhome' as <-.
  assert (length received = length licenses) as Hlen.
  { destruct (fan_out_joins E sched licenses (temp ++ ["data"; "raw"])
                (temp ++ ["data"; "templates"])
                (with_staging temp (staging_tree (Some serialized) ∅ ∅) (fs w)))
      as (t' & rec & Hfan' & Hperm).
    rewrite Hfan in Hfan'. injection Hfan' as <- <-.
    by rewrite <-(length_fmap fst), Hperm, length_seq. }
  assert (result (Bootstrap E sched args w) = Returned None) as Hok.
  { rewrite Hres, Hnone. f_equal.
    apply (fan_out_shape E temp (fs w) serialized licenses Hreach) in Hfan
      as (R & T & -> & _); [|by eapply Hdistinct|by eapply Hplain|done].
    apply commit_succeeds; [done| |].
    - destruct Hcommit as (Hdir & ? & ? & ? & ? & ?). rewrite Hwj.
      split_and!; try done.
      apply is_dir_lookup_modify; [done|]. intros [k ->].
      by rewrite lookup_path_app, Hfresh, lookup_path_None in Hdir.
    - by rewrite Hwj, lookup_staging_root. }
  split; [done|].
  destruct (Bootstrap_success_cache _ _ _ _ _ _ Hok Hplain Hdistinct Hhome Hst Hun)
    as (serialized' & licenses' & R & T & Hidx' & Hlist' & Hfiles & Hreal).
  rewrite Hidx in Hidx'. injection Hidx' as <-.
  rewrite Hlist in Hlist'. injection Hlist' as <-.
  exists serialized, licenses, R, T. split_and!; try done.
  - by apply (cache_files_size E licenses R T); [eapply Hdistinct|].
  - by apply (cache_files_size E licenses R T); [eapply Hdistinct|].
Qed.

(** The run in which everything goes well. *)
Lemma C2_witness :
  let E := demo_env demo_index demo_detail no_write_fault no_remove_fault in
  let run := Bootstrap E [] [] demo_world in
  result run = Returned None
  ∧ ∃ serialized licenses R T,
      fetchIndex E = Some serialized ∧ jsonToList E serialized = Some licenses
      ∧ length [(0, @None Error); (1, None); (2, None)] = length licenses
      ∧ lookup_path (path_Join ["home"; "u"] (LicenseDirectory E)) (fs (final run))
        = Some (Dir {["data" :=
            Dir (<["raw" := Dir R]> (<["templates" := Dir T]>
                   {["index.json" := File serialized]}))]})
      ∧ size R = length licenses ∧ size T = length licenses
      ∧ cache_files E licenses R T.
Proof.
  intros E run.
  eapply (C2_all_success_commit E [] [] demo_world _
            [(0, None); (1, None); (2, None)] ["home"; "u"] ["tmp"; "license-042"]).
  - vm_compute. reflexivity.
  - intros x Hx. repeat (apply elem_of_cons in Hx as [->|Hx]; [reflexivity|]).
    by apply elem_of_nil in Hx.
  - apply demo_keys_plain.
  - apply demo_keys_distinct.
  - reflexivity.
  - vm_compute. reflexivity.
  - split; by apply (bool_decide_unpack _).
  - repeat split; try (by apply (bool_decide_unpack _)); simpl; lia.
Defined.

(** C3, a run against the claim as stated: the index cannot be fetched, and
    at the moment of the fetch the staging root stands on disk, with its
    [data/raw] and [data/templates] directories. *)
Lemma C3_counterexample : ¬ C3_as_stated demo_env_no_index [] [] demo_world.
Proof.
  intros H. destruct (H eq_refl) as [_ Hnone].
  specialize (Hnone ["tmp"; "license-042"]
                (with_staging ["tmp"; "license-042"] (staging_tree None ∅ ∅) demo_fs)).
  assert (lookup_path ["tmp"; "license-042"]
            (with_staging ["tmp"; "license-042"] (staging_tree None ∅ ∅) demo_fs)
          = staging_tree None ∅ ∅) as Hthere by (vm_compute; reflexivity).
  rewrite Hnone in Hthere; [done|vm_compute; reflexivity..].
Qed.

(** C3 (as amended). If the run gets as far as fetching the index and the
    fetch fails, [Bootstrap] fails with [FetchFailed] and starts no
    materialization. The staging area has been created by then: its root,
    which was not there before the run, holds the empty [data/raw] and
    [data/templates] directories. The deferred cleanup removes it: every
    path outside the staging area leads to what it led to before the run,
    and when the removal does not itself fail, the staging root is gone and
    the file system is as it was before the run. *)
Theorem C3_fetch_index_failed E sched args w t :
  at_fetch (Bootstrap E sched args w) = Some t →
  fetchIndex E = None →
  result (Bootstrap E sched args w) = Returned (Some ErrFetchFailed)
  ∧ joined (Bootstrap E sched args w) = None
  ∧ ∃ temp,
      staging (Bootstrap E sched args w) = Some temp
      ∧ lookup_path temp (fs w) = None
      ∧ lookup_path temp t
        = Some (Dir {["data" := Dir (<["raw" := Dir ∅]> {["templates" := Dir ∅]})]})
      ∧ (∀ q, unrelated temp q →
              lookup_path q (fs (final (Bootstrap E sched args w)))
              = lookup_path q (fs w))
      ∧ (remove_fault E temp = None →
         lookup_path temp (fs (final (Bootstrap E sched args w))) = None
         ∧ fs (final (Bootstrap E sched args w)) = fs w).
Proof.
  intros Hat Hidx.
  destruct (Bootstrap_at_fetch _ _ _ _ _ Hat)
    as (home & temp & Hhome & Hst & Hreach & Hfresh & -> & Hfail & _).
  destruct (Hfail Hidx) as (Hres & Hj & Hfin).
  split_and!; [done..|]. exists temp. split_and!; [done..| | |].
  - by rewrite lookup_staging_root.
  - intros q Hq. rewrite Hfin, RemoveAll_outside by done.
    by apply lookup_outside_staging.
  - intros Hrm. rewrite Hfin, RemoveAll_staging by done. simpl.
    by rewrite with_staging_gone.
Qed.

(** The run in which the index cannot be fetched. *)
Lemma C3_witness :
  let run := Bootstrap demo_env_no_index [] [] demo_world in
  let temp := ["tmp"; "license-042"] in
  result run = Returned (Some ErrFetchFailed)
  ∧ joined run = None
  ∧ staging run = Some temp
  ∧ lookup_path temp (fs (final run)) = None
  ∧ fs (final run) = fs demo_world.
Proof.
  intros run temp.
  destruct (C3_fetch_index_failed demo_env_no_index [] [] demo_world
              (with_staging temp (staging_tree None ∅ ∅) demo_fs))
    as (Hres & Hj & temp' & Hst & _ & _ & _ & Hgone).
  - vm_compute. reflexivity.
  - reflexivity.
  - vm_compute in Hst. injection Hst as Ht. subst temp'.
    destruct (Hgone eq_refl) as [Hnone Hsame]. by split_and!.
Defined.

(** C4. [writeLicense] run on its own, on any file system. In the order of
    the source: a provider error on the detail gives [FetchFailed] and
    nothing is decoded or written; a decoding failure gives
    [DeserializeFailed] with the bytes fetched, and nothing is written; a
    failed write of those bytes to [rawPath/<key>.json] gives
    [WriteFileFailed] with that path, and the template is not written; a
    failed write of the rendered template to [templatesPath/<key>.tmpl] gives
    [WriteFileFailed] with that path; otherwise the result is [nil] and the
    file system differs from the one before by exactly these two files. *)
Theorem C4_writeLicense_steps E l rawPath templatesPath t :
  let rawFilePath := path_Join rawPath (Key l +:+ ".json") in
  let templateFilePath := path_Join templatesPath (Key l +:+ ".tmpl") in
  let run := exec E (writeLicense E l rawPath templatesPath) t in
  (fetchFullInfo E l = None → run = (t, Some ErrFetchFailed))
  ∧ (∀ content,
       fetchFullInfo E l = Some content → jsonToLicense E content = None →
       run = (t, Some (ErrDeserializeFailed content)))
  ∧ (∀ content fullLicense,
       fetchFullInfo E l = Some content →
       jsonToLicense E content = Some fullLicense →
       let raw := WriteFile E rawFilePath content t in
       let templateData := bytes_of_string (textTemplateString E fullLicense) in
       let template := WriteFile E templateFilePath templateData raw.1 in
       (raw.2 = false → run = (raw.1, Some (ErrWriteFileFailed rawFilePath)))
       ∧ (raw.2 = true → template.2 = false →
          run = (template.1, Some (ErrWriteFileFailed templateFilePath)))
       ∧ (raw.2 = true → template.2 = true →
          run = (modify templateFilePath (λ _, Some (File templateData))
                   (modify rawFilePath (λ _, Some (File content)) t),
                 None))).
Proof.
  intros rawFilePath templateFilePath run. subst run. cbn [writeLicense exec].
  split_and!.
  - by intros ->.
  - by intros content -> ->.
  - intros content full -> ->. cbn [exec].
    fold rawFilePath. fold templateFilePath.
    pose proof (WriteFile_ok E rawFilePath content t) as Hraw.
    destruct (WriteFile E rawFilePath content t) as [t1 [|]];
      cbn [fst snd negb exec] in *; [|by split_and!].
    pose proof (WriteFile_ok E templateFilePath
                  (bytes_of_string (textTemplateString E full)) t1) as Htmpl.
    destruct (WriteFile E templateFilePath _ t1) as [t2 [|]];
      cbn [fst snd negb exec] in *; split_and!; try done.
    intros _ _. by rewrite Htmpl, Hraw.
Qed.





(** C7. [printList] sorts the backing array of the slice it is given, in
    place, by key in ascending byte-wise order, and prints the header, one
    row per license in that order, and the closing empty line: the rows are
    a sorted permutation of the licenses, and afterwards the caller's slice
    shows them in the sorted order, not in the order they had. The order of
    the keys printed does not depend on the order of the input. [ListLocal]
    and [ListRemote] print the decoded licenses in this way. For the keys
    [mit], [apache-2.0], [gpl-3.0] the rows are [apache-2.0], [gpl-3.0],
    [mit]. *)
Theorem C7_listing_sorted :
  (∀ (h : gmap nat (list License)) (out : list Output) (a : nat)
      (pre ls post : list License),
     let licenses := {| base := a; off := length pre; len := length ls |} in
     let st' := printList licenses
                  {| heap := <[a := pre ++ ls ++ post]> h; stdout := out |} in
     StronglySorted key_le (sort_Sort ls) ∧ sort_Sort ls ≡ₚ ls
     ∧ stdout st' = out ++ [OutHeader]
                    ++ ((λ x, OutRow (Key x) (Name x)) <$> sort_Sort ls) ++ [OutBlank]
     ∧ heap st' = <[a := pre ++ sort_Sort ls ++ post]> h
     ∧ read_slice licenses (heap st') = sort_Sort ls)
  ∧ (∀ ls ls' : list License, ls ≡ₚ ls' → Key <$> sort_Sort ls = Key <$> sort_Sort ls')
  ∧ (∀ E st decoded,
       getLocalList E = Some decoded →
       (ListLocal E st).2 = None
       ∧ stdout (ListLocal E st).1
         = stdout st ++ [OutHeader]
           ++ ((λ x, OutRow (Key x) (Name x)) <$> sort_Sort decoded) ++ [OutBlank])
  ∧ (∀ E st decoded,
       getRemoteList E = Some decoded →
       (ListRemote E st).2 = None
       ∧ stdout (ListRemote E st).1
         = stdout st ++ [OutHeader]
           ++ ((λ x, OutRow (Key x) (Name x)) <$> sort_Sort decoded) ++ [OutBlank])
  ∧ (Key <$> demo_licenses = ["mit"; "apache-2.0"; "gpl-3.0"]
     ∧ Key <$> sort_Sort demo_licenses = ["apache-2.0"; "gpl-3.0"; "mit"]).
Proof.
  split_and!.
  - intros h out a pre ls post licenses st'. subst st' licenses.
    rewrite printList_window. cbn [heap stdout].
    split_and!; [apply sort_Sort_sorted|apply sort_Sort_perm|done..|].
    rewrite <-(Permutation_length (sort_Sort_perm ls)). apply read_slice_window.
  - apply sort_Sort_order.
  - intros E st decoded Hd. unfold ListLocal. rewrite Hd.
    pose proof (list_prints decoded st) as H.
    destruct (new_slice decoded st) as [licenses st']. cbn [fst snd].
    by rewrite H.
  - intros E st decoded Hd. unfold ListRemote. rewrite Hd.
    pose proof (list_prints decoded st) as H.
    destruct (new_slice decoded st) as [licenses st']. cbn [fst snd].
    by rewrite H.
  - done.
  - vm_compute. reflexivity.
Qed.

(** C8. The commit step of a run in which every value received is [nil].
    The real cache directory is removed, and a directory that is not there
    is no error; a permission error of the removal makes [Bootstrap] return
    [RemovePathFailed] with the path of the real cache. Otherwise the
    staging root is copied to the real cache path: if the copy fails,
    [Bootstrap] returns [CopyTreeFailed] with both paths; if it succeeds,
    [Bootstrap] returns [nil] and the real cache is what the staging root
    held. In each case the deferred call then removes the staging root: when
    that removal does not itself fail, the staging root is gone. *)
Theorem C8_commit_step E sched args w tj received home temp :
  joined (Bootstrap E sched args w) = Some (tj, received) →
  (∀ x, x ∈ received → x.2 = None) →
  homedir_Dir E = Some home →
  staging (Bootstrap E sched args w) = Some temp →
  let real := path_Join home (LicenseDirectory E) in
  let removal := RemoveAll E real tj in
  let copy := CopyTree E temp real removal.1 in
  (lookup_path real tj = None → remove_fault E real = None → removal = (tj, None))
  ∧ (∀ flt, remove_fault E real = Some flt → rf_permission flt = true →
       result (Bootstrap E sched args w) = Returned (Some (ErrRemovePathFailed real)))
  ∧ (removal.2 ≠ Some true → copy.2 = false →
       result (Bootstrap E sched args w)
       = Returned (Some (ErrCopyTreeFailed temp real)))
  ∧ (removal.2 ≠ Some true → copy.2 = true →
       result (Bootstrap E sched args w) = Returned None
       ∧ (unrelated temp real →
          lookup_path real (fs (final (Bootstrap E sched args w)))
          = lookup_path temp tj))
  ∧ fs (final (Bootstrap E sched args w))
    = (RemoveAll E temp (if removal.2 is Some true then removal.1 else copy.1)).1
  ∧ (remove_fault E temp = None →
     lookup_path temp (fs (final (Bootstrap E sched args w))) = None).
Proof.
  intros Hj Hnone Hhome Hst real removal copy.
  destruct (Bootstrap_commit _ _ _ _ _ _ _ _ Hj Hnone Hhome Hst) as [Hres Hfin].
  fold real in Hres, Hfin. fold removal in Hres, Hfin. fold copy in Hres, Hfin.
  split_and!.
  - intros Hnone' Hrm. subst removal. unfold RemoveAll. rewrite Hrm. f_equal.
    apply modify_id. by rewrite Hnone'.
  - intros flt Hflt Hperm. rewrite Hres. subst removal. unfold RemoveAll.
    rewrite Hflt. simpl. by rewrite Hperm.
  - intros Hrm Hcp. rewrite Hres, Hcp. by destruct (removal.2) as [[|]|].
  - intros Hrm Hcp. split.
    + rewrite Hres, Hcp. by destruct (removal.2) as [[|]|].
    + intros Hun. rewrite Hfin, RemoveAll_outside by done.
      assert ((if removal.2 is Some true then removal.1 else copy.1) = copy.1) as ->
        by by destruct (removal.2) as [[|]|].
      subst copy.
      destruct (CopyTree E temp real removal.1) as [t2 ok] eqn:Hcopy.
      simpl in *. subst ok. apply CopyTree_ok in Hcopy as [_ ->]. subst removal.
      by apply RemoveAll_outside, unrelated_sym.
  - done.
  - intros Hrm. rewrite Hfin. unfold RemoveAll at 1. rewrite Hrm. simpl.
    apply lookup_modify_gone.
Qed.

(** The commit of the run in which everything goes well. *)
Lemma C8_witness :
  let E := demo_env demo_index demo_detail no_write_fault no_remove_fault in
  let run := Bootstrap E [] [] demo_world in
  let tj := (default (None, []) (joined run)).1 in
  joined run = Some (tj, [(0, None); (1, None); (2, None)])
  ∧ result run = Returned None
  ∧ lookup_path ["home"; "u"; ".license"] (fs (final run))
    = lookup_path ["tmp"; "license-042"] tj
  ∧ lookup_path ["tmp"; "license-042"] (fs (final run)) = None.
Proof.
  intros E run tj.
  destruct (C8_commit_step E [] [] demo_world tj [(0, None); (1, None); (2, None)]
              ["home"; "u"] ["tmp"; "license-042"])
    as (_ & _ & _ & Hok & _ & Hgone).
  - vm_compute. reflexivity.
  - intros x Hx. repeat (apply elem_of_cons in Hx as [->|Hx]; [reflexivity|]).
    by apply elem_of_nil in Hx.
  - reflexivity.
  - vm_compute. reflexivity.
  - destruct Hok as [Hres Hreal]; [vm_compute; discriminate|vm_compute; reflexivity|].
    split_and!; [vm_compute; reflexivity|exact Hres| |exact (Hgone eq_refl)].
    apply Hreal. split; by apply (bool_decide_unpack _).
Defined.

(** C9. If the run gets as far as writing the fetched index bytes to the
    staging area's index file and that write fails, [Bootstrap] returns
    [CreateDirFailed] with the path of the index file (it is not a
    [WriteFileFailed]), no materialization is started, and the deferred
    cleanup runs on what the failed write left: nothing outside the staging
    area has changed. *)
Theorem C9_index_write_failed E sched args w t temp serialized :
  let indexFilePath := path_Join (path_Join temp DataDirectory) IndexFile in
  staging (Bootstrap E sched args w) = Some temp →
  at_fetch (Bootstrap E sched args w) = Some t →
  fetchIndex E = Some serialized →
  (WriteFile E indexFilePath serialized t).2 = false →
  result (Bootstrap E sched args w) = Returned (Some (ErrCreateDirFailed indexFilePath))
  ∧ result (Bootstrap E sched args w) ≠ Returned (Some (ErrWriteFileFailed indexFilePath))
  ∧ joined (Bootstrap E sched args w) = None
  ∧ fs (final (Bootstrap E sched args w))
    = (RemoveAll E temp (WriteFile E indexFilePath serialized t).1).1
  ∧ ∀ q, unrelated temp q →
         lookup_path q (fs (final (Bootstrap E sched args w))) = lookup_path q (fs w).
Proof.
  intros indexFilePath Hst Hat Hidx. subst indexFilePath.
  destruct (staging_paths temp) as (_ & _ & _ & ->). intros Hw.
  destruct (Bootstrap_at_fetch _ _ _ _ _ Hat)
    as (home & temp' & Hhome & Hst' & Hreach & Hfresh & -> & _ & Hfail).
  rewrite Hst in Hst'. injection Hst' as <-.
  destruct (Hfail _ Hidx Hw) as (Hres & Hj & Hfin).
  split_and!; try done.
  - by rewrite Hres.
  - intros q Hq. rewrite Hfin, RemoveAll_outside by done.
    destruct (WriteFile_confined E temp (fs w) Hreach ["data"; "index.json"]
                serialized (staging_tree None ∅ ∅) eq_refl) as (X' & ok & -> & _).
    by apply lookup_outside_staging.
Qed.

(** The run in which the index file cannot be opened for writing. *)
Lemma C9_witness :
  let E := demo_env demo_index demo_detail index_write_fails no_remove_fault in
  let run := Bootstrap E [] [] demo_world in
  let indexFilePath := ["tmp"; "license-042"; "data"; "index.json"] in
  result run = Returned (Some (ErrCreateDirFailed indexFilePath))
  ∧ joined run = None
  ∧ fs (final run) = fs demo_world.
Proof.
  intros E run indexFilePath.
  destruct (C9_index_write_failed E [] [] demo_world
              (with_staging ["tmp"; "license-042"] (staging_tree None ∅ ∅) demo_fs)
              ["tmp"; "license-042"] (bytes_of_string "[remote index]"))
    as (Hres & _ & Hj & Hfin & _).
  - vm_compute. reflexivity.
  - vm_compute. reflexivity.
  - reflexivity.
  - vm_compute. reflexivity.
  - split_and!; [exact Hres|exact Hj|]. unfold run. rewrite Hfin.
    vm_compute. reflexivity.
Defined.

(** C10. In the commit of a run in which every value received is [nil]: a
    removal error that is not a permission error is dropped, and
    [shutil.CopyTree] is called on what the failed removal left, its outcome
    being the outcome of [Bootstrap]; and [Bootstrap] returns
    [RemovePathFailed] only for the real cache path and only when the
    removal failed with a permission error. *)
Theorem C10_removal_errors E sched args w tj received home temp :
  joined (Bootstrap E sched args w) = Some (tj, received) →
  (∀ x, x ∈ received → x.2 = None) →
  homedir_Dir E = Some home →
  staging (Bootstrap E sched args w) = Some temp →
  let real := path_Join home (LicenseDirectory E) in
  (∀ flt, remove_fault E real = Some flt → rf_permission flt = false →
     let copy := CopyTree E temp real (modify real (rf_residue flt) tj) in
     result (Bootstrap E sched args w)
     = Returned (if copy.2 then None else Some (ErrCopyTreeFailed temp real))
     ∧ fs (final (Bootstrap E sched args w)) = (RemoveAll E temp copy.1).1)
  ∧ (∀ p, result (Bootstrap E sched args w) = Returned (Some (ErrRemovePathFailed p)) →
       p = real ∧ ∃ flt, remove_fault E real = Some flt ∧ rf_permission flt = true).
Proof.
  intros Hj Hnone Hhome Hst real.
  destruct (Bootstrap_commit _ _ _ _ _ _ _ _ Hj Hnone Hhome Hst) as [Hres Hfin].
  fold real in Hres, Hfin.
  assert (RemoveAll E real tj
          = match remove_fault E real with
            | None => (modify real (λ _, None) tj, None)
            | Some flt => (modify real (rf_residue flt) tj, Some (rf_permission flt))
            end) as Hrm by done.
  rewrite Hrm in Hres, Hfin. clear Hrm. split.
  - intros flt Hflt Hperm copy. subst copy.
    rewrite Hflt in Hres, Hfin. simpl in Hres, Hfin. rewrite Hperm in Hres, Hfin.
    by rewrite Hres, Hfin.
  - intros p Hp. rewrite Hp in Hres.
    destruct (remove_fault E real) as [[perm residue]|] eqn:Hflt; simpl in Hres.
    + destruct perm.
      * injection Hres as ->. by eauto.
      * by destruct (CopyTree _ _ _ _).2.
    + by destruct (CopyTree _ _ _ _).2.
Qed.

(** The run in which the removal of the old cache fails, not for want of
    permission, and removes nothing: the copy is attempted and refuses the
    destination that is still there. *)
Lemma C10_witness :
  let E := demo_env demo_index demo_detail no_write_fault
             (remove_busy ["home"; "u"; ".license"]) in
  let run := Bootstrap E [] [] demo_world in
  result run
  = Returned (Some (ErrCopyTreeFailed ["tmp"; "license-042"] ["home"; "u"; ".license"]))
  ∧ ∀ p, result run ≠ Returned (Some (ErrRemovePathFailed p)).
Proof.
  intros E run.
  destruct (C10_removal_errors E [] [] demo_world (default (None, []) (joined run)).1
              [(0, None); (1, None); (2, None)]
              ["home"; "u"] ["tmp"; "license-042"]) as [Hignored Honly].
  - vm_compute. reflexivity.
  - intros x Hx. repeat (apply elem_of_cons in Hx as [->|Hx]; [reflexivity|]).
    by apply elem_of_nil in Hx.
  - reflexivity.
  - vm_compute. reflexivity.
  - split.
    + edestruct Hignored as [Hres _]; [vm_compute; reflexivity|reflexivity|].
      unfold run. rewrite Hres. vm_compute. reflexivity.
    + intros p Hp. destruct (Honly p Hp) as (_ & flt & Hflt & Hperm).
      vm_compute in Hflt. injection Hflt as <-. discriminate Hperm.
Defined.

(** * Further properties of the code *)

(** X1. When [setLogLevel] returns an error it has changed nothing: neither
    switch of the logger is set, even if the arguments also held a valid
    [quiet] or [verbose]. The error is [ParsingArguments] when the parser
    failed, and otherwise [BadFlagSyntax] with the first of the bad flags. *)
Theorem X1_setLogLevel_error_no_effect E args w e :
  (setLogLevel E args w).2 = Some e →
  (setLogLevel E args w).1 = w
  ∧ (flagSet_Parse E args = None ∧ e = ErrParsingArguments
     ∨ ∃ res bad rest, flagSet_Parse E args = Some res
         ∧ BadFlags res = bad :: rest ∧ e = ErrBadFlagSyntax bad).
Proof.
  unfold setLogLevel. destruct (flagSet_Parse E args) as [res|] eqn:Hp.
  - destruct (BadFlags res) as [|bad rest] eqn:Hb; [done|]. simpl.
    intros [= <-]. split; [done|]. right. by exists res, bad, rest.
  - simpl. intros [= <-]. split; [done|]. by left.
Qed.

(** Arguments with a valid flag and two bad ones. *)
Lemma X1_witness :
  let E := with_flagSet_Parse demo_env_ok demo_parse in
  let args := ["-q"; "--frobnicate"; "--shout"] in
  (setLogLevel E args demo_world).1 = demo_world
  ∧ (flagSet_Parse E args = None ∧ ErrBadFlagSyntax "--frobnicate" = ErrParsingArguments
     ∨ ∃ res bad rest, flagSet_Parse E args = Some res
         ∧ BadFlags res = bad :: rest
         ∧ ErrBadFlagSyntax "--frobnicate" = ErrBadFlagSyntax bad).
Proof.
  intros E args.
  apply (X1_setLogLevel_error_no_effect E args demo_world (ErrBadFlagSyntax "--frobnicate")).
  vm_compute. reflexivity.
Defined.

(** X2. [setLogLevel] never touches the file system or the log and never
    lowers a switch that was set. When the arguments parse without bad flags
    it sets [quiet] (and likewise [verbose]) exactly when the parsed values
    hold the key, whatever the value, and leaves it as it was otherwise.
    Calling it again with the same arguments changes nothing more. *)
Theorem X2_setLogLevel_only_raises E args w :
  let w' := (setLogLevel E args w).1 in
  fs w' = fs w ∧ logged w' = logged w
  ∧ (logger_quiet w = true → logger_quiet w' = true)
  ∧ (logger_verbose w = true → logger_verbose w' = true)
  ∧ (∀ res, flagSet_Parse E args = Some res → BadFlags res = [] →
       (is_Some (Values res !! "quiet") → logger_quiet w' = true)
       ∧ (is_Some (Values res !! "verbose") → logger_verbose w' = true)
       ∧ (Values res !! "quiet" = None → logger_quiet w' = logger_quiet w)
       ∧ (Values res !! "verbose" = None → logger_verbose w' = logger_verbose w))
  ∧ setLogLevel E args w' = (w', (setLogLevel E args w).2).
Proof.
  intros w'. subst w'. split_and!.
  - apply setLogLevel_fs.
  - apply setLogLevel_logged.
  - unfold setLogLevel. destruct (flagSet_Parse E args) as [res|]; [|done].
    destruct (BadFlags res); [|done]. simpl.
    by destruct (Values res !! "quiet"), (Values res !! "verbose").
  - unfold setLogLevel. destruct (flagSet_Parse E args) as [res|]; [|done].
    destruct (BadFlags res); [|done]. simpl.
    by destruct (Values res !! "quiet"), (Values res !! "verbose").
  - intros res Hp Hb. unfold setLogLevel. rewrite Hp, Hb. simpl.
    destruct (Values res !! "quiet"), (Values res !! "verbose"); simpl;
      split_and!; try done; by intros [? [=]].
  - unfold setLogLevel. destruct (flagSet_Parse E args) as [res|]; [|done].
    destruct (BadFlags res); [|done]. simpl.
    by destruct (Values res !! "quiet"), (Values res !! "verbose").
Qed.

(** X3. Whatever [writeLicense] returns, it leaves every path that lies
    neither on, above nor below [rawPath/<key>.json] and
    [templatesPath/<key>.tmpl] as it found it. *)
Theorem X3_writeLicense_touches_two_files E l rawPath templatesPath t q :
  let rawFilePath := path_Join rawPath (Key l +:+ ".json") in
  let templateFilePath := path_Join templatesPath (Key l +:+ ".tmpl") in
  unrelated rawFilePath q → unrelated templateFilePath q →
  lookup_path q (exec E (writeLicense E l rawPath templatesPath) t).1 = lookup_path q t.
Proof.
  intros rawFilePath templateFilePath Hraw Htmpl. cbn [writeLicense exec].
  destruct (fetchFullInfo E l) as [content|]; [|done].
  destruct (jsonToLicense E content) as [full|]; [|done]. cbn [exec].
  fold rawFilePath. fold templateFilePath.
  pose proof (WriteFile_outside E rawFilePath q content t Hraw) as H1.
  destruct (WriteFile E rawFilePath content t) as [t1 [|]]; cbn [negb exec fst] in *;
    [|done].
  pose proof (WriteFile_outside E templateFilePath q
                (bytes_of_string (textTemplateString E full)) t1 Htmpl) as H2.
  destruct (WriteFile E templateFilePath _ t1) as [t2 [|]]; cbn [negb exec fst] in *;
    by rewrite H2.
Qed.

(** The old cache is not touched by the materialization of [mit]. *)
Lemma X3_witness :
  let rawPath := ["tmp"; "license-042"; "data"; "raw"] in
  let templatesPath := ["tmp"; "license-042"; "data"; "templates"] in
  let t := with_staging ["tmp"; "license-042"] (staging_tree None ∅ ∅) demo_fs in
  let q := ["home"; "u"; ".license"] in
  lookup_path q
    (exec demo_env_ok
       (writeLicense demo_env_ok (demo_license "mit" "MIT License") rawPath templatesPath)
       t).1
  = lookup_path q t.
Proof.
  intros rawPath templatesPath t q.
  apply (X3_writeLicense_touches_two_files demo_env_ok (demo_license "mit" "MIT License")
           rawPath templatesPath t q).
  - split; by apply (bool_decide_unpack _).
  - split; by apply (bool_decide_unpack _).
Defined.

(** X4. [writeLicense] does not undo its first write: when the raw file has
    been written and the write of the template fails, it returns
    [WriteFileFailed] with the path of the template, and the raw file stays
    in [rawPath], holding the bytes fetched. *)
Theorem X4_writeLicense_leaves_raw_file E l rawPath templatesPath t content fullLicense :
  let rawFilePath := path_Join rawPath (Key l +:+ ".json") in
  let templateFilePath := path_Join templatesPath (Key l +:+ ".tmpl") in
  let raw := WriteFile E rawFilePath content t in
  let template :=
    WriteFile E templateFilePath
      (bytes_of_string (textTemplateString E fullLicense)) raw.1 in
  fetchFullInfo E l = Some content → jsonToLicense E content = Some fullLicense →
  raw.2 = true → template.2 = false →
  unrelated templateFilePath rawFilePath →
  (exec E (writeLicense E l rawPath templatesPath) t).2
  = Some (ErrWriteFileFailed templateFilePath)
  ∧ lookup_path rawFilePath (exec E (writeLicense E l rawPath templatesPath) t).1
    = Some (File content).
Proof.
  intros rawFilePath templateFilePath raw template Hf Hd Hraw Htmpl Hun.
  cbn [writeLicense exec]. rewrite Hf, Hd. cbn [exec].
  fold rawFilePath. fold templateFilePath.
  pose proof (WriteFile_written E rawFilePath content t Hraw) as Hwritten.
  pose proof (WriteFile_outside E templateFilePath rawFilePath
                (bytes_of_string (textTemplateString E fullLicense)) raw.1 Hun) as Hout.
  subst template raw.
  destruct (WriteFile E rawFilePath content t) as [t1 ok1]. simpl in *. subst ok1.
  cbn [negb exec].
  destruct (WriteFile E templateFilePath _ t1) as [t2 ok2]. simpl in *. subst ok2.
  simpl. by rewrite Hout.
Qed.

(** The template of [mit] cannot be opened for writing. *)
Lemma X4_witness :
  let temp := ["tmp"; "license-042"] in
  let rawPath := temp ++ ["data"; "raw"] in
  let templatesPath := temp ++ ["data"; "templates"] in
  let E := demo_env demo_index demo_detail
             (write_denied (templatesPath ++ ["mit.tmpl"])) no_remove_fault in
  let t := with_staging temp (staging_tree None ∅ ∅) demo_fs in
  let l := demo_license "mit" "MIT License" in
  (exec E (writeLicense E l rawPath templatesPath) t).2
  = Some (ErrWriteFileFailed (templatesPath ++ ["mit.tmpl"]))
  ∧ lookup_path (rawPath ++ ["mit.json"])
      (exec E (writeLicense E l rawPath templatesPath) t).1
    = Some (File (bytes_of_string "detail of mit")).
Proof.
  intros temp rawPath templatesPath E t l.
  apply (X4_writeLicense_leaves_raw_file E l rawPath templatesPath t
           (bytes_of_string "detail of mit")
           {| Key := ""; Name := ""; URL := ""; Body := "detail of mit" |}).
  - reflexivity.
  - vm_compute. reflexivity.
  - vm_compute. reflexivity.
  - vm_compute. reflexivity.
  - split; by apply (bool_decide_unpack _).
Defined.

(** X5. A flag error ends [Bootstrap] before it does anything else: it
    returns the error of [setLogLevel] and the world (file system, logger
    switches, log) is as it was; no staging root is made and the provider is
    not contacted. *)
Theorem X5_Bootstrap_flag_error E sched args w e :
  (setLogLevel E args w).2 = Some e →
  result (Bootstrap E sched args w) = Returned (Some e)
  ∧ final (Bootstrap E sched args w) = w
  ∧ staging (Bootstrap E sched args w) = None
  ∧ at_fetch (Bootstrap E sched args w) = None
  ∧ joined (Bootstrap E sched args w) = None.
Proof.
  intros He. destruct (setLogLevel_failed E args w e He) as [Hw _].
  unfold Bootstrap. destruct (setLogLevel E args w) as [w1 r]. simpl in *.
  by subst.
Qed.

(** A run with an unknown flag. *)
Lemma X5_witness :
  let E := with_flagSet_Parse demo_env_ok demo_parse in
  let run := Bootstrap E [] ["--frobnicate"] demo_world in
  result run = Returned (Some (ErrBadFlagSyntax "--frobnicate"))
  ∧ final run = demo_world
  ∧ staging run = None ∧ at_fetch run = None ∧ joined run = None.
Proof.
  intros E run.
  apply (X5_Bootstrap_flag_error E [] ["--frobnicate"] demo_world).
  vm_compute. reflexivity.
Defined.

(** X6. When the flags are fine but the home directory cannot be located,
    or the temporary directory cannot be made, [Bootstrap] returns
    [CannotLocateHomeDir], respectively [CreateTempDirFailed] carrying the
    empty name [ioutil.TempDir] came back with; the home directory is looked
    up first. The logger is as the flags set it, the file system is
    untouched, there is no staging root and nothing is fetched. *)
Theorem X6_Bootstrap_no_home_or_temp E sched args w :
  (setLogLevel E args w).2 = None →
  homedir_Dir E = None ∨ (TempDir E (fs w)).2 = None →
  result (Bootstrap E sched args w)
  = Returned (Some (if homedir_Dir E is None then ErrCannotLocateHomeDir
                    else ErrCreateTempDirFailed []))
  ∧ final (Bootstrap E sched args w) = (setLogLevel E args w).1
  ∧ fs (final (Bootstrap E sched args w)) = fs w
  ∧ staging (Bootstrap E sched args w) = None
  ∧ at_fetch (Bootstrap E sched args w) = None
  ∧ joined (Bootstrap E sched args w) = None.
Proof.
  intros Hok Hfail. unfold Bootstrap. pose proof (setLogLevel_fs E args w) as Hfs.
  destruct (setLogLevel E args w) as [w1 r]. simpl in *. subst r.
  destruct (homedir_Dir E) as [home|]; [|done].
  destruct Hfail as [|Hfail]; [done|]. rewrite Hfs.
  destruct (TempDir E (fs w)) as [ta [temp|]]; [done|]. done.
Qed.

(** A run on a file system in which the temporary name is taken. *)
Lemma X6_witness :
  let w := with_fs demo_fs_temp_taken demo_world in
  let run := Bootstrap demo_env_ok [] [] w in
  result run = Returned (Some (ErrCreateTempDirFailed []))
  ∧ final run = (setLogLevel demo_env_ok [] w).1
  ∧ fs (final run) = fs w
  ∧ staging run = None ∧ at_fetch run = None ∧ joined run = None.
Proof.
  intros w run.
  apply (X6_Bootstrap_no_home_or_temp demo_env_ok [] [] w).
  - reflexivity.
  - right. vm_compute. reflexivity.
Defined.

(** X7. A run that has made its staging root but never calls [fetchIndex]
    has failed to make one of the two data directories: it returns
    [CreateDirFailed] with [rawPath] or with [templatesPath], starts no
    goroutine and logs nothing. *)
Theorem X7_Bootstrap_data_dirs_failed E sched args w temp :
  let rawPath := path_Join (path_Join temp DataDirectory) RawDirectory in
  let templatesPath := path_Join (path_Join temp DataDirectory) TemplatesDirectory in
  staging (Bootstrap E sched args w) = Some temp →
  at_fetch (Bootstrap E sched args w) = None →
  (∃ p, p ∈ [rawPath; templatesPath]
        ∧ result (Bootstrap E sched args w) = Returned (Some (ErrCreateDirFailed p)))
  ∧ joined (Bootstrap E sched args w) = None
  ∧ logged (final (Bootstrap E sched args w)) = logged w.
Proof.
  intros rawPath templatesPath Hst Hat.
  destruct (Bootstrap_split E sched args w)
    as [(Hst' & _)|(home & temp' & w0 & _ & _ & _ & _ & _ & _ & Hlog & Hrun)].
  { by rewrite Hst in Hst'. }
  rewrite Hrun in Hst, Hat |- *.
  pose proof (Bootstrap_staged_returns E sched home temp' w0) as Hret.
  pose proof (Bootstrap_staged_staging E sched home temp' w0) as Hst'.
  unfold deferred_cleanup in *.
  destruct (result (Bootstrap_staged E sched home temp' w0)) as [r|] eqn:Hres; [|done].
  cbn [staging at_fetch result joined final logged with_fs] in *.
  rewrite Hst' in Hst. injection Hst as ->.
  revert Hres Hat. unfold Bootstrap_staged. fold rawPath. fold templatesPath.
  destruct (make_paths _ _ _) as [t1 [e|]] eqn:Hmp.
  - apply make_paths_error in Hmp as (p & Hp & ->). simpl.
    intros [= <-] _. split_and!; [by eauto|done..].
  - destruct (fetchIndex E) as [serialized|]; [|done].
    destruct (WriteFile _ _ _ _) as [t2 [|]]; [|done]. cbn [negb].
    destruct (jsonToList E serialized) as [licenses|]; [|done].
    destruct (fan_out _ _ _ _ _ _) as [[t3 rec]|]; [|done].
    destruct (first_error rec); [done|]. by destruct (commit _ _ _ _).
Qed.

(** The templates directory cannot be made. *)
Lemma X7_witness :
  let temp := ["tmp"; "license-042"] in
  let E := with_mkdir_fault demo_env_ok
             (λ p, bool_decide (p = temp ++ ["data"; "templates"])) in
  let run := Bootstrap E [] [] demo_world in
  (∃ p, p ∈ [path_Join (path_Join temp DataDirectory) RawDirectory;
             path_Join (path_Join temp DataDirectory) TemplatesDirectory]
        ∧ result run = Returned (Some (ErrCreateDirFailed p)))
  ∧ joined run = None
  ∧ logged (final run) = logged demo_world.
Proof.
  intros temp E run.
  apply (X7_Bootstrap_data_dirs_failed E [] [] demo_world temp).
  - vm_compute. reflexivity.
  - vm_compute. reflexivity.
Defined.

(** X8. When the index has been fetched and written but cannot be decoded,
    [Bootstrap] returns [DeserializeFailed] with the index bytes and starts
    no goroutine. The two messages up to there have been logged, and the
    index file was written into the staging area before the decoding was
    tried: the deferred cleanup runs on the tree that holds it. *)
Theorem X8_Bootstrap_index_undecodable E sched args w t temp serialized :
  let indexFilePath := path_Join (path_Join temp DataDirectory) IndexFile in
  staging (Bootstrap E sched args w) = Some temp →
  at_fetch (Bootstrap E sched args w) = Some t →
  fetchIndex E = Some serialized →
  (WriteFile E indexFilePath serialized t).2 = true →
  jsonToList E serialized = None →
  result (Bootstrap E sched args w) = Returned (Some (ErrDeserializeFailed serialized))
  ∧ joined (Bootstrap E sched args w) = None
  ∧ logged (final (Bootstrap E sched args w)) = logged w ++ take 2 progress_messages
  ∧ fs (final (Bootstrap E sched args w))
    = (RemoveAll E temp (modify indexFilePath (λ _, Some (File serialized)) t)).1.
Proof.
  intros indexFilePath Hst Hat Hidx Hw Hlist.
  pose proof (WriteFile_ok E indexFilePath serialized t Hw) as Hwritten.
  destruct (Bootstrap_split E sched args w)
    as [(Hst' & _)|(home & temp' & w0 & _ & _ & _ & _ & _ & _ & Hlog & Hrun)].
  { by rewrite Hst in Hst'. }
  rewrite Hrun in Hst, Hat |- *.
  pose proof (Bootstrap_staged_staging E sched home temp' w0) as Hst'.
  destruct (deferred_cleanup_obs E temp' (Bootstrap_staged E sched home temp' w0))
    as (_ & Hst'' & Hat' & _).
  rewrite Hst'', Hst' in Hst. injection Hst as ->. rewrite Hat' in Hat.
  clear Hrun. unfold Bootstrap_staged in Hat |- *. fold indexFilePath in Hat |- *.
  destruct (make_paths _ _ _) as [t1 [e|]] eqn:Hmp; [done|].
  rewrite Hidx in Hat |- *. cbn [fs with_fs VerbosePrintln] in Hat |- *.
  destruct (WriteFile E indexFilePath serialized t1) as [t2 ok] eqn:Hw1.
  assert (t1 = t) as ->.
  { destruct ok; cbn [negb] in Hat; [rewrite Hlist in Hat|]; by injection Hat. }
  rewrite Hw1 in Hw, Hwritten. simpl in Hw, Hwritten. subst ok.
  cbn [negb]. rewrite Hlist. unfold deferred_cleanup.
  cbn [result final fs with_fs joined logged VerbosePrintln].
  rewrite Hlog, <-app_assoc, Hwritten. done.
Qed.

(** The index cannot be decoded. *)
Lemma X8_witness :
  let temp := ["tmp"; "license-042"] in
  let E := with_jsonToList demo_env_ok (λ _, None) in
  let run := Bootstrap E [] [] demo_world in
  let serialized := bytes_of_string "[remote index]" in
  result run = Returned (Some (ErrDeserializeFailed serialized))
  ∧ joined run = None
  ∧ logged (final run)
    = ["fetched data from api.github.com..."; "created local index file..."]
  ∧ fs (final run) = demo_fs.
Proof.
  intros temp E run serialized.
  destruct (X8_Bootstrap_index_undecodable E [] [] demo_world
              (with_staging temp (staging_tree None ∅ ∅) demo_fs) temp serialized)
    as (Hres & Hj & Hlog & Hfin).
  - vm_compute. reflexivity.
  - vm_compute. reflexivity.
  - reflexivity.
  - vm_compute. reflexivity.
  - reflexivity.
  - split_and!; [exact Hres|exact Hj|exact Hlog|].
    unfold run. rewrite Hfin. vm_compute. reflexivity.
Defined.

(** X9. In every state the goroutines of the fan-out can reach, the
    WaitGroup counter lies between 0 and [len(licenses)] (no [wg.Done()]
    drives it below zero), it is the number of goroutines that are not gone
    yet, and the channel holds no more values than its [len(licenses)]
    places. *)
Theorem X9_fan_out_counter_bounds E steps licenses rawPath templatesPath t :
  let n := length licenses in
  let s := run_schedule E n steps (launch E licenses rawPath templatesPath t) in
  (0 ≤ wg s ≤ Z.of_nat n)%Z ∧ (length (ch s) ≤ n)%nat
  ∧ wg s = Z.of_nat (sum_list (live <$> gs s)).
Proof.
  intros n s.
  assert (pool_counts n s) as [Hlen Hwg Hnd Hsent].
  { apply run_schedule_inv; [intros; by apply counts_step|]. apply counts_launch. }
  split_and!.
  - rewrite Hwg. lia.
  - rewrite Hwg. pose proof (sum_live_le (gs s)). lia.
  - assert ((ch s).*1 ⊆+ seq 0 n) as Hsub.
    { apply NoDup_submseteq; [done|].
      intros x Hx. apply elem_of_seq. split; [lia|]. simpl.
      rewrite <-Hlen. apply Hsent in Hx. destruct (gs s !! x) eqn:Hgx; [|done].
      by eapply lookup_lt_Some. }
    apply submseteq_length in Hsub. by rewrite length_seq, length_fmap in Hsub.
  - done.
Qed.

(** X10. Whatever the schedule, the values received at the join are one per
    license of the index, and each is explained by the license of the
    goroutine that sent it: [FetchFailed] only if the detail of that license
    cannot be fetched, [DeserializeFailed] only with the bytes fetched for
    it, which do not decode, [WriteFileFailed] only with the path of one of
    its two files, and [nil] only if its detail can be fetched and decoded. *)
Theorem X10_Bootstrap_received_explained E sched args w tj received :
  joined (Bootstrap E sched args w) = Some (tj, received) →
  ∃ temp serialized licenses,
    staging (Bootstrap E sched args w) = Some temp
    ∧ fetchIndex E = Some serialized ∧ jsonToList E serialized = Some licenses
    ∧ length received = length licenses
    ∧ ∀ i r, (i, r) ∈ received →
        ∃ l, licenses !! i = Some l
             ∧ task_explained E
                 (path_Join (path_Join temp DataDirectory) RawDirectory)
                 (path_Join (path_Join temp DataDirectory) TemplatesDirectory) l r.
Proof.
  intros Hj.
  destruct (Bootstrap_joined _ _ _ _ _ _ Hj)
    as (home & temp & serialized & licenses & wj & _ & Hst & _ & _
        & Hidx & Hlist & Hfan & _).
  exists temp, serialized, licenses.
  destruct (staging_paths temp) as (_ & -> & -> & _).
  split_and!; try done.
  - destruct (fan_out_joins E sched licenses (temp ++ ["data"; "raw"])
                (temp ++ ["data"; "templates"])
                (with_staging temp (staging_tree (Some serialized) ∅ ∅) (fs w)))
      as (t' & rec & Hfan' & Hperm).
    rewrite Hfan in Hfan'. injection Hfan' as <- <-.
    by rewrite <-(length_fmap fst), Hperm, length_seq.
  - by eapply fan_out_explained.
Qed.

(** The run in which the detail of [gpl-3.0] cannot be fetched. *)
Lemma X10_witness :
  let E := demo_env_gpl_fails in
  ∃ temp serialized licenses,
    staging (Bootstrap E [] [] demo_world) = Some temp
    ∧ fetchIndex E = Some serialized ∧ jsonToList E serialized = Some licenses
    ∧ length [(0, @None Error); (1, None); (2, Some ErrFetchFailed)] = length licenses
    ∧ ∀ i r, (i, r) ∈ [(0, None); (1, None); (2, Some ErrFetchFailed)] →
        ∃ l, licenses !! i = Some l
             ∧ task_explained E
                 (path_Join (path_Join temp DataDirectory) RawDirectory)
                 (path_Join (path_Join temp DataDirectory) TemplatesDirectory) l r.
Proof.
  intros E.
  apply (X10_Bootstrap_received_explained E [] [] demo_world
           (default (None, []) (joined (Bootstrap E [] [] demo_world))).1).
  vm_compute. reflexivity.
Defined.

(** X11. If the detail of some license of the index cannot be fetched, or
    cannot be decoded, [Bootstrap] does not return [nil], under any
    schedule. *)
Theorem X11_Bootstrap_fails_with_license E sched args w serialized licenses l :
  fetchIndex E = Some serialized → jsonToList E serialized = Some licenses →
  l ∈ licenses →
  (fetchFullInfo E l = None
   ∨ ∃ content, fetchFullInfo E l = Some content ∧ jsonToLicense E content = None) →
  result (Bootstrap E sched args w) ≠ Returned None.
Proof.
  intros Hidx Hlist [i Hl]%list_elem_of_lookup_1 Hbad Hres.
  destruct (Bootstrap_success_joined _ _ _ _ Hres) as (tj & received & Hj & Hnone).
  destruct (Bootstrap_joined _ _ _ _ _ _ Hj)
    as (home & temp & serialized' & licenses' & wj & _ & _ & _ & _
        & Hidx' & Hlist' & Hfan & _).
  rewrite Hidx in Hidx'. injection Hidx' as <-.
  rewrite Hlist in Hlist'. injection Hlist' as <-.
  destruct (fan_out_joins E sched licenses (temp ++ ["data"; "raw"])
              (temp ++ ["data"; "templates"])
              (with_staging temp (staging_tree (Some serialized) ∅ ∅) (fs w)))
    as (t' & rec & Hfan' & Hperm).
  rewrite Hfan in Hfan'. injection Hfan' as <- <-.
  assert (i ∈ received.*1) as Hi.
  { rewrite Hperm. apply elem_of_seq. apply lookup_lt_Some in Hl. lia. }
  apply list_elem_of_fmap in Hi as ([i' r] & -> & Hr). simpl in *.
  pose proof (proj1 (first_error_None _) Hnone _ Hr) as Hr'. simpl in Hr'. subst r.
  destruct (fan_out_explained _ _ _ _ _ _ _ _ Hfan _ _ Hr) as (l' & Hl' & Hex).
  rewrite Hl in Hl'. injection Hl' as <-. unfold task_explained in Hex.
  destruct Hbad as [Hf|(content & Hf & Hd)]; rewrite Hf in Hex; [done|].
  by rewrite Hd in Hex.
Qed.

(** The detail of [gpl-3.0] cannot be fetched. *)
Lemma X11_witness :
  result (Bootstrap demo_env_gpl_fails [0; 1; 2; 2; 1; 0] [] demo_world) ≠ Returned None.
Proof.
  apply (X11_Bootstrap_fails_with_license demo_env_gpl_fails [0; 1; 2; 2; 1; 0] []
           demo_world (bytes_of_string "[remote index]") demo_licenses
           (demo_license "gpl-3.0" "GNU General Public License v3.0")).
  - reflexivity.
  - reflexivity.
  - do 2 right. left.
  - left. reflexivity.
Defined.

(** X12. For an index whose keys are pairwise distinct plain names, running
    concurrently changes no task's result: under every schedule, each value
    received is the value [writeLicense] returns for the license of its
    goroutine when it is run alone in the fresh staging area. *)
Theorem X12_Bootstrap_tasks_as_if_alone E sched args w tj received temp serialized licenses :
  let rawPath := path_Join (path_Join temp DataDirectory) RawDirectory in
  let templatesPath := path_Join (path_Join temp DataDirectory) TemplatesDirectory in
  let t := with_staging temp (staging_tree (Some serialized) ∅ ∅) (fs w) in
  joined (Bootstrap E sched args w) = Some (tj, received) →
  index_keys_plain E → index_keys_distinct E →
  staging (Bootstrap E sched args w) = Some temp →
  fetchIndex E = Some serialized → jsonToList E serialized = Some licenses →
  ∀ i r, (i, r) ∈ received →
    ∃ l, licenses !! i = Some l
         ∧ r = (exec E (writeLicense E l rawPath templatesPath) t).2.
Proof.
  intros rawPath templatesPath t Hj Hplain Hdistinct Hst Hidx Hlist i r Hr.
  destruct (Bootstrap_joined _ _ _ _ _ _ Hj)
    as (home & temp' & serialized' & licenses' & wj & _ & Hst' & Hreach & _
        & Hidx' & Hlist' & Hfan & _).
  rewrite Hst in Hst'. injection Hst' as <-.
  rewrite Hidx in Hidx'. injection Hidx' as <-.
  rewrite Hlist in Hlist'. injection Hlist' as <-.
  subst t rawPath templatesPath.
  destruct (staging_paths temp) as (_ & -> & -> & _).
  destruct (fan_out_explained _ _ _ _ _ _ _ _ Hfan _ _ Hr) as (l & Hl & _).
  exists l. split; [done|].
  rewrite (solo_outcome E temp (fs w) serialized licenses Hreach) with (i := i);
    [|by eapply Hdistinct|by eapply Hplain|done].
  eapply (fan_out_settled E temp (fs w) serialized licenses Hreach); try done.
  - by eapply Hdistinct.
  - by eapply Hplain.
Qed.

(** The value sent by the goroutine of [gpl-3.0], under a schedule that
    runs the goroutine of [apache-2.0] first. *)
Lemma X12_witness :
  let E := demo_env_gpl_fails in
  let temp := ["tmp"; "license-042"] in
  let rawPath := path_Join (path_Join temp DataDirectory) RawDirectory in
  let templatesPath := path_Join (path_Join temp DataDirectory) TemplatesDirectory in
  let t := with_staging temp
             (staging_tree (Some (bytes_of_string "[remote index]")) ∅ ∅) demo_fs in
  ∃ l, demo_licenses !! 2 = Some l
       ∧ Some ErrFetchFailed = (exec E (writeLicense E l rawPath templatesPath) t).2.
Proof.
  intros E temp rawPath templatesPath t.
  apply (X12_Bootstrap_tasks_as_if_alone E [1; 1; 1; 1; 2; 2] [] demo_world
           (default (None, []) (joined (Bootstrap E [1; 1; 1; 1; 2; 2] [] demo_world))).1
           [(1, None); (2, Some ErrFetchFailed); (0, None)]
           temp (bytes_of_string "[remote index]") demo_licenses).
  - vm_compute. reflexivity.
  - apply demo_keys_plain.
  - apply demo_keys_distinct.
  - vm_compute. reflexivity.
  - reflexivity.
  - reflexivity.
  - right. left.
Defined.

(** X13. When a failure is among the values received, [Bootstrap] returns
    the failure that was sent first: every value before it in the channel is
    [nil]. *)
Theorem X13_Bootstrap_returns_first_failure E sched args w tj received :
  joined (Bootstrap E sched args w) = Some (tj, received) →
  (∃ i e, (i, Some e) ∈ received) →
  ∃ pre i e post,
    received = pre ++ (i, Some e) :: post
    ∧ Forall (λ x, x.2 = None) pre
    ∧ result (Bootstrap E sched args w) = Returned (Some e).
Proof.
  intros Hj (i & e & Hfail).
  destruct (Bootstrap_joined _ _ _ _ _ _ Hj)
    as (home & temp & serialized & licenses & wj & _ & _ & _ & _ & _ & _ & _ & _
        & Hres & _).
  destruct (first_error received) as [e0|] eqn:Hfirst; last first.
  { pose proof (proj1 (first_error_None _) Hfirst _ Hfail). done. }
  destruct (first_error_split _ _ Hfirst) as (pre & j & post & -> & Hpre).
  by exists pre, j, e0, post.
Qed.

(** No detail can be fetched, and the goroutine of [gpl-3.0] is run first. *)
Lemma X13_witness :
  let E := demo_env demo_index (λ _, None) no_write_fault no_remove_fault in
  let received := [(2, Some ErrFetchFailed); (0, Some ErrFetchFailed);
                   (1, Some ErrFetchFailed)] in
  ∃ pre i e post,
    received = pre ++ (i, Some e) :: post
    ∧ Forall (λ x, x.2 = None) pre
    ∧ result (Bootstrap E [2; 2] [] demo_world) = Returned (Some e).
Proof.
  intros E received.
  apply (X13_Bootstrap_returns_first_failure E [2; 2] [] demo_world
           (default (None, []) (joined (Bootstrap E [2; 2] [] demo_world))).1).
  - vm_compute. reflexivity.
  - exists 2, ErrFetchFailed. by left.
Defined.

(** X14. Which failure [Bootstrap] returns is decided by the schedule: if
    the goroutine of a license is run first, up to its send, and
    [writeLicense] fails for that license in the fresh staging area, that
    failure is the one [Bootstrap] returns. *)
Theorem X14_Bootstrap_first_failure_by_schedule E args w temp serialized licenses i l e :
  let rawPath := path_Join (path_Join temp DataDirectory) RawDirectory in
  let templatesPath := path_Join (path_Join temp DataDirectory) TemplatesDirectory in
  let t := with_staging temp (staging_tree (Some serialized) ∅ ∅) (fs w) in
  let alone := writeLicense E l rawPath templatesPath in
  let sched := replicate (S (prog_steps E alone t)) i in
  is_Some (joined (Bootstrap E sched args w)) →
  staging (Bootstrap E sched args w) = Some temp →
  fetchIndex E = Some serialized → jsonToList E serialized = Some licenses →
  licenses !! i = Some l →
  (exec E alone t).2 = Some e →
  result (Bootstrap E sched args w) = Returned (Some e).
Proof.
  intros rawPath templatesPath t alone sched [[tj received] Hj] Hst Hidx Hlist Hl He.
  destruct (Bootstrap_joined _ _ _ _ _ _ Hj)
    as (home & temp' & serialized' & licenses' & wj & _ & Hst' & _ & _
        & Hidx' & Hlist' & Hfan & _ & Hres & _).
  rewrite Hst in Hst'. injection Hst' as <-.
  rewrite Hidx in Hidx'. injection Hidx' as <-.
  rewrite Hlist in Hlist'. injection Hlist' as <-.
  subst sched alone t rawPath templatesPath.
  destruct (staging_paths temp) as (_ & Hraw & Htmpl & _).
  rewrite Hraw, Htmpl in *.
  destruct (fan_out_solo_first E licenses (temp ++ ["data"; "raw"])
              (temp ++ ["data"; "templates"])
              (with_staging temp (staging_tree (Some serialized) ∅ ∅) (fs w)) i l Hl)
    as (t' & rest & Hfan').
  rewrite Hfan in Hfan'.
  assert (received
          = (i, (exec E (writeLicense E l (temp ++ ["data"; "raw"])
                           (temp ++ ["data"; "templates"]))
                   (with_staging temp (staging_tree (Some serialized) ∅ ∅) (fs w))).2)
            :: rest) as -> by congruence.
  rewrite Hres. cbn [first_error]. by rewrite He.
Qed.

(** Two licenses fail, each in its own way; each of the two errors is
    returned under some schedule. *)
Lemma X14_witness :
  let temp := ["tmp"; "license-042"] in
  let mit_json := temp ++ ["data"; "raw"; "mit.json"] in
  let E := demo_env demo_index demo_detail_gpl_fails (write_denied mit_json)
             no_remove_fault in
  result (Bootstrap E [2; 2] [] demo_world) = Returned (Some ErrFetchFailed)
  ∧ result (Bootstrap E [0; 0; 0] [] demo_world)
    = Returned (Some (ErrWriteFileFailed mit_json)).
Proof.
  intros temp mit_json E. split.
  - apply (X14_Bootstrap_first_failure_by_schedule E [] demo_world temp
             (bytes_of_string "[remote index]") demo_licenses 2
             (demo_license "gpl-3.0" "GNU General Public License v3.0")).
    + vm_compute. by eexists.
    + vm_compute. reflexivity.
    + reflexivity.
    + reflexivity.
    + reflexivity.
    + vm_compute. reflexivity.
  - apply (X14_Bootstrap_first_failure_by_schedule E [] demo_world temp
             (bytes_of_string "[remote index]") demo_licenses 0
             (demo_license "mit" "MIT License")).
    + vm_compute. by eexists.
    + vm_compute. reflexivity.
    + reflexivity.
    + reflexivity.
    + reflexivity.
    + vm_compute. reflexivity.
Defined.

(** X15. For an index whose keys are pairwise distinct plain names, whether
    [Bootstrap] succeeds does not depend on the schedule, nor does what it
    leaves on disk: if it returns [nil] under one schedule, it returns [nil]
    under every other, and the file system is the same. *)
Theorem X15_Bootstrap_success_any_schedule E sched1 sched2 args w :
  index_keys_plain E → index_keys_distinct E →
  result (Bootstrap E sched1 args w) = Returned None →
  result (Bootstrap E sched2 args w) = Returned None
  ∧ fs (final (Bootstrap E sched2 args w)) = fs (final (Bootstrap E sched1 args w)).
Proof.
  intros Hplain Hdistinct Hres.
  destruct (Bootstrap_success_joined _ _ _ _ Hres) as (tj1 & rec1 & Hj1 & Hnone1).
  destruct (Bootstrap_joined_any E sched1 sched2 args w _ Hj1) as [[[tj2 rec2] Hj2] Hst].
  destruct (Bootstrap_joined _ _ _ _ _ _ Hj1)
    as (home & temp & serialized & licenses & wj1 & Hhome & Hst1 & Hreach & _
        & Hidx & Hlist & Hfan1 & Hwj1 & Hres1 & Hfin1).
  destruct (Bootstrap_joined _ _ _ _ _ _ Hj2)
    as (home' & temp' & serialized' & licenses' & wj2 & Hhome' & Hst2 & _ & _
        & Hidx' & Hlist' & Hfan2 & Hwj2 & Hres2 & Hfin2).
  rewrite Hst, Hst1 in Hst2. injection Hst2 as <-.
  rewrite Hhome in Hhome'. injection Hhome' as <-.
  rewrite Hidx in Hidx'. injection Hidx' as <-.
  rewrite Hlist in Hlist'. injection Hlist' as <-.
  pose proof (Hplain _ _ Hidx Hlist) as Hp. pose proof (Hdistinct _ _ Hidx Hlist) as Hd.
  assert (first_error rec2 = None) as Hnone2.
  { apply first_error_None. intros [i r] Hr. simpl.
    destruct (fan_out_explained _ _ _ _ _ _ _ _ Hfan2 _ _ Hr) as (l & Hl & _).
    rewrite (fan_out_settled E temp (fs w) serialized licenses Hreach Hd Hp
               _ _ _ Hfan2 i r l Hr Hl).
    destruct (fan_out_joins E sched1 licenses (temp ++ ["data"; "raw"])
                (temp ++ ["data"; "templates"])
                (with_staging temp (staging_tree (Some serialized) ∅ ∅) (fs w)))
      as (t' & rec & Hfan' & Hperm).
    rewrite Hfan1 in Hfan'. injection Hfan' as <- <-.
    assert (i ∈ rec1.*1) as Hi.
    { rewrite Hperm. apply elem_of_seq. apply lookup_lt_Some in Hl. lia. }
    apply list_elem_of_fmap in Hi as ([i' r1] & Heq & Hr1). simpl in Heq. subst i'.
    pose proof (proj1 (first_error_None _) Hnone1 _ Hr1) as Hr1'. simpl in Hr1'.
    subst r1. symmetry.
    by apply (fan_out_settled E temp (fs w) serialized licenses Hreach Hd Hp
                _ _ _ Hfan1 i None l). }
  destruct (fan_out_shape E temp (fs w) serialized licenses Hreach Hd Hp _ _ _
              Hfan1 Hnone1) as (R1 & T1 & Htj1 & Hfiles1).
  destruct (fan_out_shape E temp (fs w) serialized licenses Hreach Hd Hp _ _ _
              Hfan2 Hnone2) as (R2 & T2 & Htj2 & Hfiles2).
  destruct (cache_files_unique E E licenses R1 T1 R2 T2) as [<- <-]; try done.
  rewrite Hnone1 in Hres1, Hfin1. rewrite Hnone2 in Hres2, Hfin2.
  destruct (commit_result E home temp wj1) as [Hc1 Hf1].
  destruct (commit_result E home temp wj2) as [Hc2 Hf2].
  rewrite Hwj1, Htj1 in Hc1, Hf1. rewrite Hwj2, Htj2 in Hc2, Hf2.
  rewrite Hres2, Hfin2, Hfin1, Hc2, Hf2, <-Hc1, <-Hf1. split; [|done].
  rewrite Hres in Hres1. by injection Hres1 as <-.
Qed.

(** Two schedules of the run in which everything goes well. *)
Lemma X15_witness :
  result (Bootstrap demo_env_ok [2; 0; 2; 1; 1; 0; 0] [] demo_world) = Returned None
  ∧ fs (final (Bootstrap demo_env_ok [2; 0; 2; 1; 1; 0; 0] [] demo_world))
    = fs (final (Bootstrap demo_env_ok [] [] demo_world)).
Proof.
  apply (X15_Bootstrap_success_any_schedule demo_env_ok [] [2; 0; 2; 1; 1; 0; 0] []
           demo_world).
  - apply demo_keys_plain.
  - apply demo_keys_distinct.
  - vm_compute. reflexivity.
Defined.

(** X16. The commit is not atomic. When the old cache has been removed and
    [shutil.CopyTree] then fails although nothing interrupted the copying
    itself, [Bootstrap] returns [CopyTreeFailed] with the staging root and
    the real cache path, and nothing is left at the real cache path: the old
    cache is gone and no new one stands in its place. *)
Theorem X16_Bootstrap_failed_copy_leaves_no_cache E sched args w home temp src dst :
  let real := path_Join home (LicenseDirectory E) in
  result (Bootstrap E sched args w) = Returned (Some (ErrCopyTreeFailed src dst)) →
  homedir_Dir E = Some home →
  staging (Bootstrap E sched args w) = Some temp →
  unrelated temp real →
  remove_fault E real = None → copy_fault E temp real = None →
  src = temp ∧ dst = real
  ∧ lookup_path real (fs (final (Bootstrap E sched args w))) = None.
Proof.
  intros real Hres Hhome Hst Hun Hrm Hcopy.
  destruct (Bootstrap_commit_error _ _ _ _ _ Hres eq_refl)
    as (tj & received & Hj & Hnone).
  destruct (Bootstrap_commit _ _ _ _ _ _ _ _ Hj (proj1 (first_error_None _) Hnone)
              Hhome Hst) as [Hres' Hfin].
  fold real in Hres', Hfin. rewrite Hres in Hres'.
  assert (RemoveAll E real tj = (modify real (λ _, None) tj, None)) as Hremoved.
  { unfold RemoveAll. by rewrite Hrm. }
  rewrite Hremoved in Hres', Hfin. cbn [fst snd] in Hres', Hfin.
  pose proof (CopyTree_failed E temp real (modify real (λ _, None) tj)
                (lookup_modify_gone real tj) Hcopy) as Hlost.
  destruct (CopyTree E temp real (modify real (λ _, None) tj)).2; [done|].
  injection Hres' as -> ->. split_and!; [done..|].
  rewrite Hfin, RemoveAll_outside by done. by apply Hlost.
Qed.

(** The directory of the real cache cannot be made again once the old
    cache is removed. *)
Lemma X16_witness :
  let real := ["home"; "u"; ".license"] in
  let E := with_mkdir_fault demo_env_ok (λ p, bool_decide (p = real)) in
  let run := Bootstrap E [] [] demo_world in
  is_Some (lookup_path real (fs demo_world))
  ∧ result run = Returned (Some (ErrCopyTreeFailed ["tmp"; "license-042"] real))
  ∧ lookup_path real (fs (final run)) = None.
Proof.
  intros real E run.
  destruct (X16_Bootstrap_failed_copy_leaves_no_cache E [] [] demo_world ["home"; "u"]
              ["tmp"; "license-042"] ["tmp"; "license-042"] real)
    as (_ & _ & Hlost).
  - vm_compute. reflexivity.
  - reflexivity.
  - vm_compute. reflexivity.
  - split; by apply (bool_decide_unpack _).
  - reflexivity.
  - reflexivity.
  - split_and!; [vm_compute; by eexists|vm_compute; reflexivity|exact Hlost].
Defined.

(** X17. When the removal of the old cache is denied, [Bootstrap] returns
    [RemovePathFailed] and copies nothing (the index's keys being plain
    names): the real cache path holds what the failed removal left of the
    old cache, and nothing of the new one. *)
Theorem X17_Bootstrap_denied_removal_keeps_cache E sched args w home temp p :
  let real := path_Join home (LicenseDirectory E) in
  result (Bootstrap E sched args w) = Returned (Some (ErrRemovePathFailed p)) →
  index_keys_plain E →
  homedir_Dir E = Some home →
  staging (Bootstrap E sched args w) = Some temp →
  unrelated temp real → reachable real (fs w) = true →
  ∃ flt, remove_fault E real = Some flt ∧ rf_permission flt = true
         ∧ lookup_path real (fs (final (Bootstrap E sched args w)))
           = rf_residue flt (lookup_path real (fs w)).
Proof.
  intros real Hres Hplain Hhome Hst Hun Hreal.
  destruct (Bootstrap_commit_error _ _ _ _ _ Hres eq_refl)
    as (tj & received & Hj & Hnone).
  destruct (Bootstrap_commit _ _ _ _ _ _ _ _ Hj (proj1 (first_error_None _) Hnone)
              Hhome Hst) as [Hres' Hfin].
  fold real in Hres', Hfin. rewrite Hres in Hres'.
  destruct (Bootstrap_joined _ _ _ _ _ _ Hj)
    as (home' & temp' & serialized & licenses & wj & _ & Hst' & Hreach & _
        & Hidx & Hlist & Hfan & _).
  rewrite Hst in Hst'. injection Hst' as <-.
  apply (fan_out_confined E temp (fs w) Hreach) in Hfan as (X' & -> & HX');
    [|by eapply Hplain|done].
  assert (RemoveAll E real (with_staging temp X' (fs w))
          = match remove_fault E real with
            | None => (modify real (λ _, None) (with_staging temp X' (fs w)), None)
            | Some flt => (modify real (rf_residue flt) (with_staging temp X' (fs w)),
                           Some (rf_permission flt))
            end) as Hrm by done.
  rewrite Hrm in Hres', Hfin. clear Hrm.
  destruct (remove_fault E real) as [[perm residue]|]; cbn [fst snd] in *; last first.
  { by destruct (CopyTree _ _ _ _).2. }
  destruct perm; [|by destruct (CopyTree _ _ _ _).2].
  eexists. split_and!; [done..|]. cbn [rf_residue].
  rewrite Hfin, RemoveAll_outside by done. cbn [rf_permission rf_residue].
  rewrite lookup_modify.
  - f_equal. by apply lookup_outside_staging.
  - unfold with_staging. by rewrite reachable_modify_unrelated.
Qed.

(** The removal is denied and takes nothing away: the old cache is as it
    was. *)
Lemma X17_witness :
  let real := ["home"; "u"; ".license"] in
  let E := demo_env demo_index demo_detail no_write_fault (remove_denied real) in
  let run := Bootstrap E [] [] demo_world in
  result run = Returned (Some (ErrRemovePathFailed real))
  ∧ lookup_path real (fs (final run)) = lookup_path real (fs demo_world).
Proof.
  intros real E run.
  destruct (X17_Bootstrap_denied_removal_keeps_cache E [] [] demo_world ["home"; "u"]
              ["tmp"; "license-042"] real) as (flt & Hflt & _ & Hkept).
  - vm_compute. reflexivity.
  - apply demo_keys_plain.
  - reflexivity.
  - vm_compute. reflexivity.
  - split; by apply (bool_decide_unpack _).
  - vm_compute. reflexivity.
  - split; [vm_compute; reflexivity|].
    vm_compute in Hflt. injection Hflt as <-. exact Hkept.
Defined.

(** X18. Every run that made its staging root has removed it by the time it
    returns, however the run ended, provided the deferred [os.RemoveAll]
    does not itself fail; and the staging root is a path that was not there
    before the run. *)
Theorem X18_Bootstrap_cleanup_always E sched args w temp :
  staging (Bootstrap E sched args w) = Some temp →
  remove_fault E temp = None →
  lookup_path temp (fs w) = None
  ∧ lookup_path temp (fs (final (Bootstrap E sched args w))) = None.
Proof.
  intros Hst Hrm.
  destruct (Bootstrap_split E sched args w)
    as [(Hst' & _)|(home & temp' & w0 & _ & _ & _ & Hfresh & _ & _ & _ & Hrun)].
  { by rewrite Hst in Hst'. }
  rewrite Hrun in Hst |- *.
  pose proof (Bootstrap_staged_returns E sched home temp' w0) as Hret.
  pose proof (Bootstrap_staged_staging E sched home temp' w0) as Hst'.
  unfold deferred_cleanup in *.
  destruct (result (Bootstrap_staged E sched home temp' w0)) as [r|]; [|done].
  cbn [staging final fs with_fs] in *. rewrite Hst' in Hst. injection Hst as ->.
  split; [done|]. unfold RemoveAll. rewrite Hrm. simpl. apply lookup_modify_gone.
Qed.

(** A failing run, under some schedule. *)
Lemma X18_witness :
  let temp := ["tmp"; "license-042"] in
  lookup_path temp (fs demo_world) = None
  ∧ lookup_path temp (fs (final (Bootstrap demo_env_gpl_fails [1; 2; 0] [] demo_world)))
    = None.
Proof.
  intros temp.
  apply (X18_Bootstrap_cleanup_always demo_env_gpl_fails [1; 2; 0] [] demo_world temp).
  - vm_compute. reflexivity.
  - reflexivity.
Defined.

(** X19. For an index whose keys are plain names, whatever happens,
    [Bootstrap] changes nothing outside the staging root and the real cache
    path: a path that lies neither on, above nor below either of them leads
    to what it led to before the run. *)
Theorem X19_Bootstrap_frame E sched args w q :
  index_keys_plain E →
  (∀ temp, staging (Bootstrap E sched args w) = Some temp → unrelated temp q) →
  (∀ home, homedir_Dir E = Some home →
           unrelated (path_Join home (LicenseDirectory E)) q) →
  lookup_path q (fs (final (Bootstrap E sched args w))) = lookup_path q (fs w).
Proof.
  intros Hplain Htemp Hreal.
  destruct (Bootstrap_cases E sched args w Hplain)
    as [(_ & -> & _)|(home & temp & X & Hhome & Hst & Hreach & _ & _ & Hcases)];
    [done|].
  specialize (Htemp _ Hst). specialize (Hreal _ Hhome).
  destruct Hcases as [(e & _ & _ & ->)|(wj & Hwj & _ & ->)];
    rewrite RemoveAll_outside by done.
  - by apply lookup_outside_staging.
  - rewrite commit_outside, Hwj by done. by apply lookup_outside_staging.
Qed.

(** A neighbour of the real cache, through a run that succeeds. *)
Lemma X19_witness :
  let q := ["home"; "u"; ".license-old"] in
  lookup_path q (fs (final (Bootstrap demo_env_ok [] [] demo_world)))
  = lookup_path q (fs demo_world).
Proof.
  intros q. apply (X19_Bootstrap_frame demo_env_ok [] [] demo_world q).
  - apply demo_keys_plain.
  - intros temp Hst. vm_compute in Hst. injection Hst as <-.
    split; by apply (bool_decide_unpack _).
  - intros home Hhome. injection Hhome as <-.
    split; by apply (bool_decide_unpack _).
Defined.

(** X20. For an index whose keys are plain names, a run that ends with any
    error other than the two of the commit ([RemovePathFailed] and
    [CopyTreeFailed]) leaves the whole file system exactly as it found it,
    provided the deferred removal of the staging root does not fail. *)
Theorem X20_Bootstrap_rollback E sched args w e :
  result (Bootstrap E sched args w) = Returned (Some e) →
  commit_error e = false →
  index_keys_plain E →
  (∀ temp, staging (Bootstrap E sched args w) = Some temp → remove_fault E temp = None) →
  fs (final (Bootstrap E sched args w)) = fs w.
Proof.
  intros Hres He Hplain Hrm.
  destruct (Bootstrap_cases E sched args w Hplain)
    as [(_ & -> & _)|(home & temp & X & Hhome & Hst & Hreach & Hfresh & _ & Hcases)];
    [done|].
  specialize (Hrm _ Hst).
  destruct Hcases as [(e' & _ & _ & ->)|(wj & Hwj & Hres' & _)].
  - rewrite RemoveAll_staging by done. simpl. by apply with_staging_gone.
  - rewrite Hres in Hres'. injection Hres' as Hc. symmetry in Hc.
    apply commit_errors in Hc. congruence.
Qed.

(** The run in which the detail of [gpl-3.0] cannot be fetched. *)
Lemma X20_witness :
  fs (final (Bootstrap demo_env_gpl_fails [] [] demo_world)) = fs demo_world.
Proof.
  apply (X20_Bootstrap_rollback demo_env_gpl_fails [] [] demo_world ErrFetchFailed).
  - vm_compute. reflexivity.
  - reflexivity.
  - apply demo_keys_plain.
  - intros temp _. reflexivity.
Defined.


(** X22. The messages a run hands to [logger.VerbosePrintln] are the first
    [k] of the four progress messages, in their order, added to the log. All
    four are there exactly when [Bootstrap] returns [nil]; the first is
    there exactly when the index has been fetched, and the third exactly
    when the join found every value received to be [nil]. *)
Theorem X22_Bootstrap_progress_log E sched args w :
  ∃ k : nat, (k ≤ 4)%nat
    ∧ logged (final (Bootstrap E sched args w)) = logged w ++ take k progress_messages
    ∧ (result (Bootstrap E sched args w) = Returned None ↔ k = 4)
    ∧ ((1 ≤ k)%nat ↔ is_Some (at_fetch (Bootstrap E sched args w)) ∧ is_Some (fetchIndex E))
    ∧ ((3 ≤ k)%nat ↔ ∃ tj received,
                 joined (Bootstrap E sched args w) = Some (tj, received)
                 ∧ first_error received = None).
Proof.
  destruct (Bootstrap_split E sched args w)
    as [(_ & Hat & Hj & _ & Hlog & Hres)
       |(home & temp & w0 & _ & _ & _ & _ & _ & _ & Hlog & ->)].
  - rewrite Hlog, Hat, Hj.
    destruct Hres as [(e & _ & -> & _)|[(_ & _ & ->)|(_ & _ & _ & ->)]];
      log_branch 0.
  - destruct (deferred_cleanup_obs E temp (Bootstrap_staged E sched home temp w0))
      as (-> & _ & -> & -> & ->).
    rewrite <-Hlog. apply Bootstrap_staged_log.
Qed.

(** X23. The flags only set the logger: two runs whose arguments both pass
    [setLogLevel] end with the same result, the same file system, the same
    messages, the same staging root and the same values received. *)
Theorem X23_Bootstrap_flags_irrelevant E sched args1 args2 w :
  (setLogLevel E args1 w).2 = None → (setLogLevel E args2 w).2 = None →
  result (Bootstrap E sched args1 w) = result (Bootstrap E sched args2 w)
  ∧ fs (final (Bootstrap E sched args1 w)) = fs (final (Bootstrap E sched args2 w))
  ∧ logged (final (Bootstrap E sched args1 w))
    = logged (final (Bootstrap E sched args2 w))
  ∧ staging (Bootstrap E sched args1 w) = staging (Bootstrap E sched args2 w)
  ∧ joined (Bootstrap E sched args1 w) = joined (Bootstrap E sched args2 w).
Proof.
  intros H1 H2. unfold Bootstrap.
  pose proof (setLogLevel_fs E args1 w) as Hfs1.
  pose proof (setLogLevel_fs E args2 w) as Hfs2.
  pose proof (setLogLevel_logged E args1 w) as Hlog1.
  pose proof (setLogLevel_logged E args2 w) as Hlog2.
  destruct (setLogLevel E args1 w) as [w1 r1], (setLogLevel E args2 w) as [w2 r2].
  simpl in *. subst r1 r2.
  destruct (homedir_Dir E) as [home|]; [|by cbn; rewrite Hfs1, Hfs2, Hlog1, Hlog2].
  rewrite Hfs1, Hfs2.
  destruct (TempDir E (fs w)) as [ta [temp|]];
    [|by cbn; rewrite Hfs1, Hfs2, Hlog1, Hlog2].
  destruct (Bootstrap_staged_fs_only E sched home temp (with_fs ta w1) (with_fs ta w2))
    as (Hr & Hf & Hl & Ha & Hj); [done|by cbn; rewrite Hlog1, Hlog2|].
  destruct (deferred_cleanup_obs E temp (Bootstrap_staged E sched home temp (with_fs ta w1)))
    as (-> & -> & _ & -> & ->).
  destruct (deferred_cleanup_obs E temp (Bootstrap_staged E sched home temp (with_fs ta w2)))
    as (-> & -> & _ & -> & ->).
  rewrite !deferred_cleanup_fs, !Bootstrap_staged_staging, Hr, Hf. by split_and!.
Qed.

(** A run without flags and a run with [-v --quiet]. *)
Lemma X23_witness :
  let E := with_flagSet_Parse demo_env_ok demo_parse in
  let run1 := Bootstrap E [] [] demo_world in
  let run2 := Bootstrap E [] ["-v"; "--quiet"] demo_world in
  result run1 = result run2
  ∧ fs (final run1) = fs (final run2)
  ∧ logged (final run1) = logged (final run2)
  ∧ staging run1 = staging run2
  ∧ joined run1 = joined run2.
Proof.
  intros E run1 run2.
  apply (X23_Bootstrap_flags_irrelevant E [] [] ["-v"; "--quiet"] demo_world).
  - vm_compute. reflexivity.
  - vm_compute. reflexivity.
Defined.

(** X24. [ListLocal] fails exactly when the local index cannot be read or
    cannot be decoded, in both cases with [ReadFailed]; [ListRemote] fails
    exactly when the index cannot be fetched or cannot be decoded, in both
    cases with [FetchFailed]. A listing that fails prints nothing and leaves
    the arrays alone. *)
Theorem X24_listing_failure_modes E st :
  ((readIndex E = None ∨ ∃ content, readIndex E = Some content ∧ jsonToList E content = None)
   ↔ (ListLocal E st).2 ≠ None)
  ∧ ((ListLocal E st).2 ≠ None → ListLocal E st = (st, Some ErrReadFailed))
  ∧ ((fetchIndex E = None ∨ ∃ body, fetchIndex E = Some body ∧ jsonToList E body = None)
     ↔ (ListRemote E st).2 ≠ None)
  ∧ ((ListRemote E st).2 ≠ None → ListRemote E st = (st, Some ErrFetchFailed)).
Proof.
  unfold ListLocal, ListRemote, getLocalList, getRemoteList. split_and!.
  - destruct (readIndex E) as [content|]; [|by split; eauto].
    destruct (jsonToList E content) as [decoded|] eqn:Hd.
    + destruct (new_slice decoded st). simpl. split; [|done].
      intros [|(? & [= <-] & ?)]; congruence.
    + split; [done|]. by eauto.
  - destruct (readIndex E) as [content|]; [|done].
    destruct (jsonToList E content) as [decoded|]; [|done].
    by destruct (new_slice decoded st).
  - destruct (fetchIndex E) as [content|]; [|by split; eauto].
    destruct (jsonToList E content) as [decoded|] eqn:Hd.
    + destruct (new_slice decoded st). simpl. split; [|done].
      intros [|(? & [= <-] & ?)]; congruence.
    + split; [done|]. by eauto.
  - destruct (fetchIndex E) as [content|]; [|done].
    destruct (jsonToList E content) as [decoded|]; [|done].
    by destruct (new_slice decoded st).
Qed.

(** X25. For licenses with pairwise distinct keys, [printList] prints the
    same rows and leaves the same array, whatever order the licenses came
    in. *)
Theorem X25_printList_independent_of_order (h : gmap nat (list License)) out a
    (pre ls ls' post : list License) :
  ls ≡ₚ ls' → NoDup (Key <$> ls) →
  printList {| base := a; off := length pre; len := length ls |}
    {| heap := <[a := pre ++ ls ++ post]> h; stdout := out |}
  = printList {| base := a; off := length pre; len := length ls' |}
      {| heap := <[a := pre ++ ls' ++ post]> h; stdout := out |}.
Proof.
  intros Hperm Hnd. rewrite !printList_window.
  by rewrite (sort_Sort_unique ls ls').
Qed.

(** The three licenses in two orders. *)
Lemma X25_witness :
  let mit := demo_license "mit" "MIT License" in
  let apache := demo_license "apache-2.0" "Apache License 2.0" in
  let gpl := demo_license "gpl-3.0" "GNU General Public License v3.0" in
  printList {| base := 7; off := 0; len := 3 |}
    {| heap := <[7 := [mit; apache; gpl]]> ∅; stdout := [] |}
  = printList {| base := 7; off := 0; len := 3 |}
      {| heap := <[7 := [gpl; mit; apache]]> ∅; stdout := [] |}.
Proof.
  intros mit apache gpl.
  apply (X25_printList_independent_of_order ∅ [] 7 [] [mit; apache; gpl] [gpl; mit; apache] []).
  - symmetry. apply (Permutation_cons_append [mit; apache] gpl).
  - by apply (bool_decide_unpack _).
Defined.

(** X26. For an index whose keys are pairwise distinct plain names: after a
    [Bootstrap] that returned [nil], [ListRemote] against the same provider
    succeeds, its rows are the licenses of the index, one row each, and for
    each of them the real cache holds the raw file and the template file. *)
Theorem X26_Bootstrap_caches_what_ListRemote_lists E sched args w home temp st :
  result (Bootstrap E sched args w) = Returned None →
  index_keys_plain E → index_keys_distinct E →
  homedir_Dir E = Some home →
  staging (Bootstrap E sched args w) = Some temp →
  unrelated temp (path_Join home (LicenseDirectory E)) →
  ∃ licenses rows,
    getRemoteList E = Some licenses
    ∧ ListRemote E st
      = ({| heap := <[fresh (dom (heap st)) := sort_Sort licenses]> (heap st);
            stdout := stdout st ++ [OutHeader] ++ rows ++ [OutBlank] |}, None)
    ∧ rows ≡ₚ (λ l, OutRow (Key l) (Name l)) <$> licenses
    ∧ ∀ l, l ∈ licenses →
        let real := path_Join home (LicenseDirectory E) in
        let after := fs (final (Bootstrap E sched args w)) in
        (∃ content,
           lookup_path (real ++ ["data"; "raw"; Key l +:+ ".json"]) after
           = Some (File content))
        ∧ (∃ template,
             lookup_path (real ++ ["data"; "templates"; Key l +:+ ".tmpl"]) after
             = Some (File template)).
Proof.
  intros Hres Hplain Hdistinct Hhome Hst Hun.
  destruct (Bootstrap_success_cache _ _ _ _ _ _ Hres Hplain Hdistinct Hhome Hst Hun)
    as (serialized & licenses & R & T & Hidx & Hlist & (HR & HT & Hall) & Hreal).
  exists licenses, ((λ l, OutRow (Key l) (Name l)) <$> sort_Sort licenses).
  assert (getRemoteList E = Some licenses) as Hget.
  { unfold getRemoteList. by rewrite Hidx. }
  split_and!; [done| | |].
  - unfold ListRemote. rewrite Hget.
    pose proof (list_prints licenses st) as H.
    destruct (new_slice licenses st) as [sl st']. by rewrite H.
  - by rewrite sort_Sort_perm.
  - intros l Hl real after. subst real after.
    destruct (Hall l Hl) as (content & full & Hf & Hd).
    rewrite !lookup_path_app, Hreal, lookup_staging_raw, lookup_staging_templates.
    split.
    + exists content. apply HR. by exists l, content.
    + eexists. apply HT. by exists l, content, full.
Qed.

(** The run in which everything goes well, and the listing. *)
Lemma X26_witness :
  let E := demo_env_ok in
  let st := {| heap := ∅; stdout := [] |} in
  ∃ licenses rows,
    getRemoteList E = Some licenses
    ∧ ListRemote E st
      = ({| heap := <[fresh (dom (heap st)) := sort_Sort licenses]> (heap st);
            stdout := stdout st ++ [OutHeader] ++ rows ++ [OutBlank] |}, None)
    ∧ rows ≡ₚ (λ l, OutRow (Key l) (Name l)) <$> licenses
    ∧ ∀ l, l ∈ licenses →
        let real := path_Join ["home"; "u"] (LicenseDirectory E) in
        let after := fs (final (Bootstrap E [] [] demo_world)) in
        (∃ content,
           lookup_path (real ++ ["data"; "raw"; Key l +:+ ".json"]) after
           = Some (File content))
        ∧ (∃ template,
             lookup_path (real ++ ["data"; "templates"; Key l +:+ ".tmpl"]) after
             = Some (File template)).
Proof.
  intros E st.
  apply (X26_Bootstrap_caches_what_ListRemote_lists E [] [] demo_world ["home"; "u"]
           ["tmp"; "license-042"] st).
  - vm_compute. reflexivity.
  - apply demo_keys_plain.
  - apply demo_keys_distinct.
  - reflexivity.
  - vm_compute. reflexivity.
  - split; by apply (bool_decide_unpack _).
Defined.
